(** * orafce [file.c]: the UTL_FILE package, handle table and sandboxed line I/O

    A shallow embedding of [src/file.c].  The C globals [slots] and [slotid]
    and the operating system the code talks to (stdio streams, the file
    system, the [utl_file.utl_file_dir] table reached through SPI) are the
    fields of one [session] record that every entry point takes and returns.
    An [ereport(ERROR, ...)] leaves the function at once; the C globals keep
    whatever was stored in them before the jump, so a call returns its result
    (or the error) together with the session as it stands at that point. *)

From Stdlib Require Import ZArith Lia Ascii String.
From stdpp Require Import base tactics option list numbers strings gmap.

Set Default Proof Using "Type".

(** Text values ([text *], [char *]) are byte sequences. *)
Abbreviation text := (list ascii).
Abbreviation cstr := list_ascii_of_string.

(** Carriage return and line feed. *)
Abbreviation CR := ("013"%char).
Abbreviation LF := ("010"%char).

(** ** Error conditions *)

(** The names [CUSTOM_EXCEPTION] is raised with (lines 13-20). *)
Inductive utl_exception :=
| INVALID_OPERATION
| WRITE_ERROR
| READ_ERROR
| INVALID_FILEHANDLE
| INVALID_MAXLINESIZE
| INVALID_MODE
| INVALID_PATH
| VALUE_ERROR.

(** What an [ereport(ERROR, ...)] of the file carries: its [errcode], and for
    [ERRCODE_RAISE_EXCEPTION] the [errmsg]. *)
Inductive error :=
| RAISE_EXCEPTION (msg : utl_exception)
| INVALID_PARAMETER_VALUE
| NULL_VALUE_NOT_ALLOWED (n : nat)
| PROGRAM_LIMIT_EXCEEDED
| NO_DATA_FOUND
| INTERNAL_ERROR
| CHARACTER_NOT_IN_REPERTOIRE.

Inductive res (A : Type) :=
| Ok (a : A)
| Raise (e : error).
Arguments Ok {A} a.
Arguments Raise {A} e.

Global Instance utl_exception_eq_dec : EqDecision utl_exception.
Proof. solve_decision. Defined.
Global Instance error_eq_dec : EqDecision error.
Proof. solve_decision. Defined.

Definition is_raise {A} (r : res A) : bool :=
  match r with Ok _ => false | Raise _ => true end.

(** ** Machine integers and errno *)

(** [int32] arithmetic wraps (PostgreSQL is built with -fwrapv). *)
Definition int32_wrap (z : Z) : Z := ((z + 2 ^ 31) mod 2 ^ 32 - 2 ^ 31)%Z.

Definition EACCES : Z := 13.
Definition ENAMETOOLONG : Z := 36.
Definition ENOENT : Z := 2.
Definition ENOTDIR : Z := 20.
Definition EBADF : Z := 9.

Definition MAX_LINESIZE : Z := 32767.
Definition MAX_SLOTS : nat := 50.
Definition INVALID_SLOTID : Z := 0.

(** ** The operating system seen through stdio *)

(** An open [FILE]: the bytes still to be read and the [errno] that [fgetc]
    leaves when it returns [EOF] past them (0 at a clean end of file); the
    bytes written so far, how many more the device takes ([None]: no limit)
    and the [errno] of a write that fails; the [errno] with which [fflush]
    and [fclose] fail (0: they succeed). *)
Record stream := Stream {
  s_in : text;
  s_in_errno : Z;
  s_out : text;
  s_room : option nat;
  s_out_errno : Z;
  s_flush_errno : Z;
  s_close_errno : Z
}.

Global Instance stream_eq_dec : EqDecision stream.
Proof. solve_decision. Defined.

(** A [FILE *] is the address of an open stream; [NULL] is address 0, where
    no stream lives. *)
Definition NULL : N := 0.

(** The world outside the process: the open streams by address, the next
    address [fopen] hands out, the files by path (each with what a stream
    opened on it reads and how its device behaves), the paths whose access
    fails with a fixed [errno], and the rows of [utl_file.utl_file_dir]
    ([None] when SPI cannot connect, prepare or run the query). *)
Record world := World {
  streams : gmap N stream;
  next_file : N;
  files : gmap text stream;
  denied : gmap text Z;
  utl_file_dir : option (list text);
  st_blksize : Z;
  TMPDIR : option text
}.

Inductive fopen_mode := mode_a | mode_r | mode_w.

Definition empty_file : stream :=
  {| s_in := []; s_in_errno := 0; s_out := []; s_room := None;
     s_out_errno := 0; s_flush_errno := 0; s_close_errno := 0 |}.

Definition set_in (i : text) (st : stream) : stream :=
  {| s_in := i; s_in_errno := s_in_errno st; s_out := s_out st;
     s_room := s_room st; s_out_errno := s_out_errno st;
     s_flush_errno := s_flush_errno st; s_close_errno := s_close_errno st |}.

Definition set_out (o : text) (room : option nat) (st : stream) : stream :=
  {| s_in := s_in st; s_in_errno := s_in_errno st; s_out := o;
     s_room := room; s_out_errno := s_out_errno st;
     s_flush_errno := s_flush_errno st; s_close_errno := s_close_errno st |}.

Definition set_streams (m : gmap N stream) (w : world) : world :=
  {| streams := m; next_file := next_file w; files := files w;
     denied := denied w; utl_file_dir := utl_file_dir w;
     st_blksize := st_blksize w; TMPDIR := TMPDIR w |}.

Definition set_files (m : gmap text stream) (w : world) : world :=
  {| streams := streams w; next_file := next_file w; files := m;
     denied := denied w; utl_file_dir := utl_file_dir w;
     st_blksize := st_blksize w; TMPDIR := TMPDIR w |}.

(** [fopen(path, mode)]: the new stream's address, or [errno]. *)
Definition fopen (path : text) (mode : fopen_mode) (w : world)
  : (Z + N) * world :=
  match denied w !! path with
  | Some e => (inl e, w)
  | None =>
    let start (st : stream) (w1 : world) :=
      (inr (next_file w1),
       {| streams := <[next_file w1 := st]> (streams w1);
          next_file := N.succ (next_file w1); files := files w1;
          denied := denied w1; utl_file_dir := utl_file_dir w1;
          st_blksize := st_blksize w1; TMPDIR := TMPDIR w1 |}) in
    match mode, files w !! path with
    | mode_r, None => (inl ENOENT, w)
    | mode_r, Some f => start f w
    | mode_a, Some f => start (set_in [] f) w
    | mode_w, Some f =>
      start (set_in [] f) (set_files (<[path := set_in [] f]> (files w)) w)
    | _, None => start empty_file (set_files (<[path := empty_file]> (files w)) w)
    end
  end.

(** [fclose(f)]: 0 or [errno].  Whether or not the call succeeds the stream
    is gone afterwards (C11 7.21.5.1); on an address that is not an open
    stream the model answers [EBADF]. *)
Definition fclose (f : N) (w : world) : Z * world :=
  match streams w !! f with
  | None => (EBADF, w)
  | Some st => (s_close_errno st, set_streams (delete f (streams w)) w)
  end.

(** [fgetc(f)]: the next byte, or [EOF] with the [errno] it sets (0: none,
    the end of the file). *)
Definition fgetc (f : N) (w : world) : (Z + ascii) * world :=
  match streams w !! f with
  | None => (inl EBADF, w)
  | Some st =>
    match s_in st with
    | [] => (inl (s_in_errno st), w)
    | c :: rest =>
      (inr c, set_streams (<[f := set_in rest st]> (streams w)) w)
    end
  end.

(** [ungetc(c, f)] pushes [c] back in front of the unread bytes. *)
Definition ungetc (c : ascii) (f : N) (w : world) : world :=
  match streams w !! f with
  | None => w
  | Some st =>
    set_streams (<[f := set_in (c :: s_in st) st]> (streams w)) w
  end.

(** [fputc(c, f)]: [None] when the byte is written, else [errno]. *)
Definition fputc (c : ascii) (f : N) (w : world) : option Z * world :=
  match streams w !! f with
  | None => (Some EBADF, w)
  | Some st =>
    match s_room st with
    | Some O => (Some (s_out_errno st), w)
    | room =>
      (None,
       set_streams
         (<[f := set_out (s_out st ++ [c]) (Nat.pred <$> room) st]> (streams w)) w)
    end
  end.

(** [fputs] and [fwrite] write byte after byte and stop at the first one
    that fails; [fwrite_bytes] also counts the bytes written. *)
Fixpoint fwrite_bytes (buf : text) (f : N) (w : world)
  : nat * option Z * world :=
  match buf with
  | [] => (O, None, w)
  | c :: rest =>
    match fputc c f w with
    | (Some e, w1) => (O, Some e, w1)
    | (None, w1) =>
      let '(n, r, w2) := fwrite_bytes rest f w1 in (S n, r, w2)
    end
  end.

Definition fputs (buf : text) (f : N) (w : world) : option Z * world :=
  let '(_, r, w1) := fwrite_bytes buf f w in (r, w1).

(** [fflush(f)]: [None] on success, else [errno]. *)
Definition fflush (f : N) (w : world) : option Z * world :=
  match streams w !! f with
  | None => (Some EBADF, w)
  | Some st =>
    if (s_flush_errno st =? 0)%Z then (None, w) else (Some (s_flush_errno st), w)
  end.

(** [stat(path)]: [None] when the file is there, else [errno]. *)
Definition stat (path : text) (w : world) : option Z :=
  match denied w !! path with
  | Some e => Some e
  | None => match files w !! path with Some _ => None | None => Some ENOENT end
  end.

Definition unlink (path : text) (w : world) : option Z * world :=
  match stat path w with
  | Some e => (Some e, w)
  | None => (None, set_files (delete path (files w)) w)
  end.

(** [rename(src, dst)] replaces an existing [dst]. *)
Definition rename (src dst : text) (w : world) : option Z * world :=
  match denied w !! src, denied w !! dst with
  | Some e, _ | None, Some e => (Some e, w)
  | None, None =>
    match files w !! src with
    | None => (Some ENOENT, w)
    | Some f => (None, set_files (<[dst := f]> (delete src (files w))) w)
    end
  end.

(** ** The session: handle table and world *)

(** [FileSlot] (line 101). *)
Record FileSlot := mkFileSlot {
  slot_file : N;
  slot_max_linesize : Z;
  slot_id : Z
}.

Global Instance FileSlot_eq_dec : EqDecision FileSlot.
Proof. solve_decision. Defined.

(** A slot of the zero-initialised array. *)
Definition zero_slot : FileSlot :=
  {| slot_file := NULL; slot_max_linesize := 0; slot_id := 0 |}.

Global Instance FileSlot_inhabited : Inhabited FileSlot := populate zero_slot.

(** The statics [slots] and [slotid] (lines 111-112) and the world. *)
Record session := Session {
  slots : list FileSlot;
  slotid : Z;
  os : world
}.

Definition set_os (w : world) (s : session) : session :=
  {| slots := slots s; slotid := slotid s; os := w |}.

Definition empty_world : world :=
  {| streams := ∅; next_file := 1%N; files := ∅; denied := ∅;
     utl_file_dir := Some []; st_blksize := 4096; TMPDIR := None |}.

(** The state of a fresh backend: all slots zero, [slotid = 0]. *)
Definition initial_session (w : world) : session :=
  {| slots := replicate MAX_SLOTS zero_slot; slotid := 0; os := w |}.

(** ** Calls that may raise *)

Definition M (A : Type) : Type := session → res A * session.

Definition ret {A} (a : A) : M A := λ s, (Ok a, s).
Definition raise {A} (e : error) : M A := λ s, (Raise e, s).
Definition bind {A B} (m : M A) (k : A → M B) : M B :=
  λ s, match m s with
       | (Ok a, s1) => k a s1
       | (Raise e, s1) => (Raise e, s1)
       end.

Notation "'let*' p := m 'in' k" := (bind m (λ p, k))
  (at level 10, p as pattern, m at level 100, k at level 200).
Notation "m ;;; k" := (bind m (λ _, k))
  (at level 100, right associativity).

(** A libc call on the world. *)
Definition sys {A} (call : world → A * world) : M A :=
  λ s, let (a, w) := call (os s) in (Ok a, set_os w s).

Definition when (b : bool) (e : error) : M unit :=
  if b then raise e else ret tt.

Definition CUSTOM_EXCEPTION {A} (msg : utl_exception) : M A :=
  raise (RAISE_EXCEPTION msg).

(** [NOT_NULL_ARG(n)] (line 86). *)
Definition NOT_NULL_ARG {A} (n : nat) (arg : option A) : M A :=
  match arg with
  | None => raise (NULL_VALUE_NOT_ALLOWED n)
  | Some a => ret a
  end.

(** [NON_EMPTY_TEXT(dat)] (line 79). *)
Definition NON_EMPTY_TEXT (dat : text) : M unit :=
  when (length dat =? 0)%nat INVALID_PARAMETER_VALUE.

(** [CHECK_LINESIZE(max_linesize)] (line 95). *)
Definition CHECK_LINESIZE (max_linesize : Z) : M unit :=
  when ((max_linesize <? 1) || (max_linesize >? MAX_LINESIZE))%Z
       (RAISE_EXCEPTION INVALID_MAXLINESIZE).

(** [CHECK_LENGTH(l)] (line 281). *)
Definition CHECK_LENGTH (l max_linesize : Z) : M unit :=
  when (l >? max_linesize)%Z (RAISE_EXCEPTION VALUE_ERROR).

(** [CHECK_FILE_HANDLE()] (line 75). *)
Definition CHECK_FILE_HANDLE (arg0 : option Z) : M Z :=
  match arg0 with
  | None => CUSTOM_EXCEPTION INVALID_FILEHANDLE
  | Some d => ret d
  end.

(** [IO_EXCEPTION()] (line 166), on the [errno] of the call that failed. *)
Definition IO_EXCEPTION {A} (errno : Z) : M A :=
  if ((errno =? EACCES) || (errno =? ENAMETOOLONG)
      || (errno =? ENOENT) || (errno =? ENOTDIR))%Z
  then CUSTOM_EXCEPTION INVALID_PATH
  else CUSTOM_EXCEPTION INVALID_OPERATION.

(** [CHECK_ERRNO_PUT()] (line 451). *)
Definition CHECK_ERRNO_PUT {A} (errno : Z) : M A :=
  if (errno =? EBADF)%Z then CUSTOM_EXCEPTION INVALID_OPERATION
  else CUSTOM_EXCEPTION WRITE_ERROR.

(** ** The handle table *)

Definition slot (s : session) (i : nat) : FileSlot := slots s !!! i.

Definition set_slot (i : nat) (x : FileSlot) (s : session) : session :=
  {| slots := <[i := x]> (slots s); slotid := slotid s; os := os s |}.

(** [get_descriptor] (line 122): the loop from index [i] with [n] turns
    left.  [++slotid] wraps as [int32]. *)
Fixpoint get_descriptor_from (n i : nat) (file : N) (max_linesize : Z)
  (s : session) : Z * session :=
  match n with
  | O => (INVALID_SLOTID, s)
  | S n' =>
    if (slot_id (slot s i) =? INVALID_SLOTID)%Z then
      let slotid1 := int32_wrap (slotid s + 1) in
      let slotid2 :=
        if (slotid1 =? INVALID_SLOTID)%Z then int32_wrap (slotid1 + 1)
        else slotid1 in
      (slotid2,
       {| slots := <[i := {| slot_file := file;
                             slot_max_linesize := max_linesize;
                             slot_id := slotid2 |}]> (slots s);
          slotid := slotid2; os := os s |})
    else get_descriptor_from n' (S i) file max_linesize s
  end.

Definition get_descriptor (file : N) (max_linesize : Z) (s : session)
  : Z * session :=
  get_descriptor_from MAX_SLOTS 0 file max_linesize s.

(** The loop [for (i = 0; i < MAX_SLOTS; i++) if (slots[i].id == d) ...]
    of [get_stream], [utl_file_is_open] and [utl_file_fclose]: the first
    index whose id is [d]. *)
Fixpoint find_slot_from (n i : nat) (d : Z) (s : session) : option nat :=
  match n with
  | O => None
  | S n' =>
    if (slot_id (slot s i) =? d)%Z then Some i
    else find_slot_from n' (S i) d s
  end.

Definition find_slot (d : Z) (s : session) : option nat :=
  find_slot_from MAX_SLOTS 0 d s.

(** [get_stream] (line 144): the stored [FILE *] and [max_linesize]. *)
Definition get_stream (d : Z) : M (N * Z) :=
  if (d =? INVALID_SLOTID)%Z then CUSTOM_EXCEPTION INVALID_FILEHANDLE
  else λ s,
    match find_slot d s with
    | Some i => (Ok (slot_file (slot s i), slot_max_linesize (slot s i)), s)
    | None => CUSTOM_EXCEPTION INVALID_FILEHANDLE s
    end.

(** ** A host to run the entry points on *)

(** Modelled from the spec: [canonicalize_path] belongs to PostgreSQL, not
    to this package; the spec says it "resolves [.], [..], redundant
    separators" "without requiring the path to exist".  The path is cut at
    its separators, empty and [.] components are dropped, a [..] drops the
    component before it (at the root it is dropped itself, at the start of
    a relative path it stays), and what is left is joined again. *)
Fixpoint split_path (path : text) (word : text) : list text :=
  match path with
  | [] => [word]
  | c :: rest =>
    if bool_decide (c = "/"%char) then word :: split_path rest []
    else split_path rest (word ++ [c])
  end.

Fixpoint resolve_components (absolute : bool) (todo : list text)
  (done : list text) : list text :=
  match todo with
  | [] => rev done
  | x :: rest =>
    if bool_decide (x = []) || bool_decide (x = cstr ".")
    then resolve_components absolute rest done
    else if bool_decide (x = cstr "..") then
      match done with
      | [] => resolve_components absolute rest (if absolute then [] else [x])
      | y :: done' =>
        if bool_decide (y = cstr "..")
        then resolve_components absolute rest (x :: done)
        else resolve_components absolute rest done'
      end
    else resolve_components absolute rest (x :: done)
  end.

Definition canonicalize_path_model (path : text) : text :=
  match path with
  | "/"%char :: _ =>
    match resolve_components true (split_path path []) [] with
    | [] => cstr "/"
    | parts => concat (map (λ x, "/"%char :: x) parts)
    end
  | _ =>
    match resolve_components false (split_path path []) [] with
    | [] => cstr "."
    | x :: parts => x ++ concat (map (λ x, "/"%char :: x) parts)
    end
  end.

(** Modelled from the spec: [pg_verifymbstr] belongs to PostgreSQL; the spec
    says the text read "is validated as well-formed multi-byte text".  In a
    single-byte encoding every text without a NUL byte is well formed. *)
Definition pg_verifymbstr_model (buffer : text) : bool :=
  forallb (λ c, negb (bool_decide (c = "000"%char))) buffer.

(** ** The entry points *)

Section UtlFile.

(** PostgreSQL's [canonicalize_path] (port.h) and [pg_verifymbstr]
    (mb/pg_wchar.h, here: is the text well formed in the database
    encoding?) are library functions of the server, not of this package. *)
Variable canonicalize_path : text → text.
Variable pg_verifymbstr : text → bool.

(** SQL [substring(s, 1, n)]. *)
Definition substring1 (s : text) (n : nat) : text := take n s.

(** The [WHERE] clause of the query (line 764):
    [substring($1, 1, length(dir) + 1) = dir || '/']. *)
Definition locality_row (path dir : text) : bool :=
  bool_decide (substring1 path (length dir + 1) = dir ++ cstr "/").

(** [SPI_processed] after running the query with a row limit of 1. *)
Definition SPI_processed (path : text) (dirs : list text) : nat :=
  length (take 1 (filter (λ dir, locality_row path dir = true) dirs)).

(** [check_secure_locality] (line 734). *)
Definition check_secure_locality (path : text) : M unit :=
  if bool_decide (path = cstr "/tmp/regress_orafce") then ret tt
  else λ s,
    match utl_file_dir (os s) with
    | None => raise INTERNAL_ERROR s
    | Some dirs =>
      if (SPI_processed path dirs =? 0)%nat
      then raise (RAISE_EXCEPTION INVALID_PATH) s
      else ret tt s
    end.

(** [get_safe_path] (line 790). *)
Definition get_safe_path (location filename : text) : M text :=
  NON_EMPTY_TEXT location ;;;
  NON_EMPTY_TEXT filename ;;;
  let fullname := canonicalize_path (location ++ cstr "/" ++ filename) in
  check_secure_locality fullname ;;;
  ret fullname.

(** The [switch] on the mode letter (line 222). *)
Definition mode_of_letter (c : ascii) : option fopen_mode :=
  if bool_decide (c = "a"%char) || bool_decide (c = "A"%char) then Some mode_a
  else if bool_decide (c = "r"%char) || bool_decide (c = "R"%char) then Some mode_r
  else if bool_decide (c = "w"%char) || bool_decide (c = "W"%char) then Some mode_w
  else None.

(** [utl_file_fopen] (line 197). *)
Definition utl_file_fopen (arg0 arg1 arg2 : option text) (arg3 : option Z)
  : M Z :=
  let* location := NOT_NULL_ARG 0 arg0 in
  let* filename := NOT_NULL_ARG 1 arg1 in
  let* open_mode := NOT_NULL_ARG 2 arg2 in
  let* max_linesize := NOT_NULL_ARG 3 arg3 in
  NON_EMPTY_TEXT open_mode ;;;
  CHECK_LINESIZE max_linesize ;;;
  when (negb (length open_mode =? 1)%nat) (RAISE_EXCEPTION INVALID_MODE) ;;;
  match mode_of_letter (default "000"%char (head open_mode)) with
  | None => CUSTOM_EXCEPTION INVALID_MODE
  | Some mode =>
    let* fullname := get_safe_path location filename in
    let* opened := sys (fopen fullname mode) in
    match opened with
    | inl errno => IO_EXCEPTION errno
    | inr file =>
      λ s,
        let (d, s1) := get_descriptor file max_linesize s in
        if (d =? INVALID_SLOTID)%Z then
          (sys (fclose file) ;;; raise PROGRAM_LIMIT_EXCEEDED) s1
        else (Ok d, s1)
    end
  end.

(** [utl_file_is_open] (line 263). *)
Definition utl_file_is_open (arg0 : option Z) : M bool :=
  λ s,
    match arg0 with
    | Some d =>
      match find_slot d s with
      | Some i => (Ok (negb (slot_file (slot s i) =? NULL)%N), s)
      | None => (Ok false, s)
      end
    | None => (Ok false, s)
    end.

(** The loop of [get_line] (line 303).  [fuel] is [max_linesize - csize],
    so [csize < max_linesize] reads [fuel > 0]; [buffer] holds the [csize]
    bytes stored so far.  Returns [buffer], [eof] and [errno]. *)
Fixpoint get_line_loop (fuel : nat) (f : N) (buffer : text) (eof : bool)
  (errno : Z) (w : world) : text * bool * Z * world :=
  match fuel with
  | O => (buffer, eof, errno, w)
  | S fuel' =>
    match fgetc f w with
    | (inl e, w1) => (buffer, eof, (if (e =? 0)%Z then errno else e), w1)
    | (inr c, w1) =>
      if bool_decide (c = "013"%char) then
        match fgetc f w1 with
        | (inl e, w2) => (buffer, false, (if (e =? 0)%Z then errno else e), w2)
        | (inr c', w2) =>
          if negb (bool_decide (c' = "010"%char))
          then (buffer, false, errno, ungetc c' f w2)
          else (buffer, false, errno, w2)
        end
      else if bool_decide (c = "010"%char) then (buffer, false, errno, w1)
      else get_line_loop fuel' f (buffer ++ [c]) false errno w1
    end
  end.

(** [get_line] (line 287): the line ([NULL], here [None], at the end of the
    file) and [*iseof]. *)
Definition get_line (f : N) (max_linesize : Z) : M (option text * bool) :=
  λ s,
    let '(buffer, eof, errno, w) :=
      get_line_loop (Z.to_nat max_linesize) f [] true 0 (os s) in
    let s1 := set_os w s in
    if negb eof then
      if pg_verifymbstr buffer then (Ok (Some buffer, false), s1)
      else (Raise CHARACTER_NOT_IN_REPERTOIRE, s1)
    else if (errno =? 0)%Z then (Ok (None, true), s1)
    else if (errno =? EBADF)%Z then CUSTOM_EXCEPTION INVALID_OPERATION s1
    else CUSTOM_EXCEPTION READ_ERROR s1.

(** [utl_file_get_line] (line 366); [arg1] is the optional [len]. *)
Definition utl_file_get_line (arg0 arg1 : option Z) : M text :=
  let* d := CHECK_FILE_HANDLE arg0 in
  let* (f, max_linesize) := get_stream d in
  let* max_linesize :=
    match arg1 with
    | Some len =>
      CHECK_LINESIZE len ;;;
      ret (if (max_linesize >? len)%Z then len else max_linesize)
    | None => ret max_linesize
    end in
  let* (result, iseof) := get_line f max_linesize in
  if iseof : bool then raise NO_DATA_FOUND
  else ret (default [] result).

(** [utl_file_get_nextline] (line 407); [None] is SQL NULL. *)
Definition utl_file_get_nextline (arg0 : option Z) : M (option text) :=
  let* d := CHECK_FILE_HANDLE arg0 in
  let* (f, max_linesize) := get_stream d in
  let* (result, iseof) := get_line f max_linesize in
  if iseof : bool then ret None
  else ret (Some (default [] result)).

(** [do_flush] (line 426). *)
Definition do_flush (f : N) : M unit :=
  let* r := sys (fflush f) in
  match r with
  | None => ret tt
  | Some errno =>
    if (errno =? EBADF)%Z then CUSTOM_EXCEPTION INVALID_OPERATION
    else CUSTOM_EXCEPTION WRITE_ERROR
  end.

(** [do_put] (line 461). *)
Definition do_put (arg0 : option Z) (arg1 : option text) : M N :=
  let* d := CHECK_FILE_HANDLE arg0 in
  let* (f, max_linesize) := get_stream d in
  let* buffer := NOT_NULL_ARG 1 arg1 in
  let len := length buffer in
  CHECK_LENGTH (Z.of_nat len) max_linesize ;;;
  let* (written, r) := sys (fwrite_bytes buffer f) in
  if negb (written =? len)%nat then CHECK_ERRNO_PUT (default 0%Z r)
  else ret f.

(** [utl_file_put] (line 484). *)
Definition utl_file_put (arg0 : option Z) (arg1 : option text) : M bool :=
  do_put arg0 arg1 ;;; ret true.

(** [do_new_line] (line 491), not on WIN32: [lines] turns of the loop. *)
Fixpoint do_new_line_loop (lines : nat) (f : N) : M unit :=
  match lines with
  | O => ret tt
  | S lines' =>
    let* r := sys (fputc "010"%char f) in
    match r with
    | Some errno => CHECK_ERRNO_PUT errno
    | None => do_new_line_loop lines' f
    end
  end.

Definition do_new_line (f : N) (lines : Z) : M unit :=
  do_new_line_loop (Z.to_nat lines) f.

(** [utl_file_put_line] (line 507). *)
Definition utl_file_put_line (arg0 : option Z) (arg1 : option text)
  (arg2 : option bool) : M bool :=
  let* f := do_put arg0 arg1 in
  let autoflush := default false arg2 in
  do_new_line f 1 ;;;
  (if autoflush then do_flush f else ret tt) ;;;
  ret true.

(** [utl_file_new_line] (line 525). *)
Definition utl_file_new_line (arg0 arg1 : option Z) : M bool :=
  let* d := CHECK_FILE_HANDLE arg0 in
  let* (f, _) := get_stream d in
  let lines := default 1%Z arg1 in
  do_new_line f lines ;;;
  ret true.

(** What [fputs] writes of a buffer: the bytes before the first NUL. *)
Fixpoint c_string (buffer : text) : text :=
  match buffer with
  | [] => []
  | c :: rest => if bool_decide (c = "000"%char) then [] else c :: c_string rest
  end.

Definition put_char (c : ascii) (f : N) : M unit :=
  let* r := sys (fputc c f) in
  match r with
  | Some errno => CHECK_ERRNO_PUT errno
  | None => ret tt
  end.

(** The loop of [utl_file_putf] (line 577) over the rest [fpt] of the
    format; [args] are [arg1 .. arg5], [None] for SQL NULL. *)
Fixpoint putf_loop (fpt : text) (f : N) (max_linesize : Z)
  (args : list (option text)) (cur_par : nat) (cur_len : Z) : M unit :=
  match fpt with
  | [] => ret tt
  | [c] =>
    CHECK_LENGTH (cur_len + 1) max_linesize ;;;
    put_char c f
  | c0 :: ((c1 :: rest) as tail) =>
    if bool_decide (c0 = "\"%char) && bool_decide (c1 = "n"%char) then
      CHECK_LENGTH (cur_len + 1) max_linesize ;;;
      put_char "010"%char f ;;;
      putf_loop rest f max_linesize args cur_par (cur_len + 1)
    else if bool_decide (c0 = "%"%char) then
      if bool_decide (c1 = "%"%char) then
        CHECK_LENGTH (cur_len + 1) max_linesize ;;;
        put_char "%"%char f ;;;
        putf_loop rest f max_linesize args cur_par (cur_len + 1)
      else if bool_decide (c1 = "s"%char) then
        let cur_par := S cur_par in
        match (if (cur_par <=? 5)%nat then mjoin (args !! (cur_par - 1)%nat)
               else None) with
        | Some buffer =>
          let bfsize := Z.of_nat (length buffer) in
          let cur_len := (cur_len + bfsize)%Z in
          CHECK_LENGTH cur_len max_linesize ;;;
          let* r := sys (fputs (c_string buffer) f) in
          match r with
          | Some errno => CHECK_ERRNO_PUT errno
          | None => putf_loop rest f max_linesize args cur_par cur_len
          end
        | None => putf_loop rest f max_linesize args cur_par cur_len
        end
      else putf_loop rest f max_linesize args cur_par cur_len
    else
      CHECK_LENGTH (cur_len + 1) max_linesize ;;;
      put_char c0 f ;;;
      putf_loop tail f max_linesize args cur_par (cur_len + 1)
  end.

(** [utl_file_putf] (line 559). *)
Definition utl_file_putf (arg0 : option Z) (arg1 : option text)
  (args : list (option text)) : M bool :=
  let* d := CHECK_FILE_HANDLE arg0 in
  let* (f, max_linesize) := get_stream d in
  let* format := NOT_NULL_ARG 1 arg1 in
  putf_loop format f max_linesize args 0 0 ;;;
  ret true.

(** [utl_file_fflush] (line 643). *)
Definition utl_file_fflush (arg0 : option Z) : M unit :=
  let* d := CHECK_FILE_HANDLE arg0 in
  let* (f, _) := get_stream d in
  do_flush f.

(** The body run on a slot by [utl_file_fclose] and [utl_file_fclose_all]
    (lines 678-686 and 713-721): close the stream when there is one, raise
    when that fails, else clear the slot. *)
Definition close_slot (i : nat) : M unit :=
  λ s,
    let file := slot_file (slot s i) in
    let (failed, s1) :=
      if (file =? NULL)%N then (None, s)
      else
        let (errno, w) := fclose file (os s) in
        (if (errno =? 0)%Z then None else Some errno, set_os w s) in
    match failed with
    | Some errno =>
      if (errno =? EBADF)%Z then CUSTOM_EXCEPTION INVALID_FILEHANDLE s1
      else CUSTOM_EXCEPTION WRITE_ERROR s1
    | None =>
      (Ok tt,
       set_slot i {| slot_file := NULL;
                     slot_max_linesize := slot_max_linesize (slot s1 i);
                     slot_id := INVALID_SLOTID |} s1)
    end.

(** [utl_file_fclose] (line 668). *)
Definition utl_file_fclose (d : Z) : M unit :=
  λ s,
    match find_slot d s with
    | Some i => close_slot i s
    | None => CUSTOM_EXCEPTION INVALID_FILEHANDLE s
    end.

(** [utl_file_fclose_all] (line 704): the loop from index [i] with [n]
    turns left. *)
Fixpoint fclose_all_from (n i : nat) : M unit :=
  match n with
  | O => ret tt
  | S n' =>
    λ s,
      if negb (slot_id (slot s i) =? INVALID_SLOTID)%Z then
        (close_slot i ;;; fclose_all_from n' (S i)) s
      else fclose_all_from n' (S i) s
  end.

Definition utl_file_fclose_all : M unit := fclose_all_from MAX_SLOTS 0.

(** [utl_file_fremove] (line 816). *)
Definition utl_file_fremove (arg0 arg1 : option text) : M unit :=
  let* location := NOT_NULL_ARG 0 arg0 in
  let* filename := NOT_NULL_ARG 1 arg1 in
  let* fullname := get_safe_path location filename in
  let* r := sys (unlink fullname) in
  match r with
  | Some errno => IO_EXCEPTION errno
  | None => ret tt
  end.

(** [utl_file_frename] (line 832). *)
Definition utl_file_frename (arg0 arg1 arg2 arg3 : option text)
  (arg4 : option bool) : M unit :=
  let* src_location := NOT_NULL_ARG 0 arg0 in
  let* src_filename := NOT_NULL_ARG 1 arg1 in
  let* dst_location := NOT_NULL_ARG 2 arg2 in
  let* dst_filename := NOT_NULL_ARG 3 arg3 in
  let overwrite := default false arg4 in
  let* srcpath := get_safe_path src_location src_filename in
  let* dstpath := get_safe_path dst_location dst_filename in
  (if negb overwrite then
     let* st := sys (λ w, (stat dstpath w, w)) in
     match st with
     | None => CUSTOM_EXCEPTION WRITE_ERROR
     | Some errno =>
       if negb (errno =? ENOENT)%Z then IO_EXCEPTION errno else ret tt
     end
   else ret tt) ;;;
  let* r := sys (rename srcpath dstpath) in
  match r with
  | Some errno => IO_EXCEPTION errno
  | None => ret tt
  end.

(** [utl_file_fgetattr] (line 864), called with a row result type: the
    tuple (exists, size, block size), [None] for a NULL column. *)
Definition utl_file_fgetattr (arg0 arg1 : option text)
  : M (bool * option Z * option Z) :=
  let* location := NOT_NULL_ARG 0 arg0 in
  let* filename := NOT_NULL_ARG 1 arg1 in
  let* fullname := get_safe_path location filename in
  λ s,
    match stat fullname (os s), files (os s) !! fullname with
    | None, Some file =>
      (Ok (true, Some (Z.of_nat (length (s_in file))),
           Some (st_blksize (os s))), s)
    | _, _ => (Ok (false, None, None), s)
    end.

(** [utl_file_tmpdir] (line 907), not on WIN32. *)
Definition utl_file_tmpdir : M text :=
  λ s, (Ok (default (cstr "/tmp") (TMPDIR (os s))), s).


(** ** Calls and sessions *)

(** What an entry point hands back ([Datum]). *)
Inductive Datum :=
| D_int32 (z : Z)
| D_bool (b : bool)
| D_text (t : text)
| D_null
| D_void
| D_attr (fexists : bool) (size blksize : option Z).

(** One SQL-level call of the package, with its arguments ([None]: NULL or
    not given). *)
Inductive call :=
| FOPEN (location filename open_mode : option text) (max_linesize : option Z)
| IS_OPEN (file : option Z)
| GET_LINE (file len : option Z)
| GET_NEXTLINE (file : option Z)
| PUT (file : option Z) (buffer : option text)
| PUT_LINE (file : option Z) (buffer : option text) (autoflush : option bool)
| NEW_LINE (file lines : option Z)
| PUTF (file : option Z) (format : option text) (args : list (option text))
| FFLUSH (file : option Z)
| FCLOSE (file : Z)
| FCLOSE_ALL
| FREMOVE (location filename : option text)
| FRENAME (src_location src_filename dst_location dst_filename : option text)
    (overwrite : option bool)
| FGETATTR (location filename : option text)
| TMPDIR_CALL.

Definition fmap_M {A B} (g : A → B) (m : M A) : M B :=
  let* a := m in ret (g a).

Definition run (c : call) : M Datum :=
  match c with
  | FOPEN a0 a1 a2 a3 => fmap_M D_int32 (utl_file_fopen a0 a1 a2 a3)
  | IS_OPEN a0 => fmap_M D_bool (utl_file_is_open a0)
  | GET_LINE a0 a1 => fmap_M D_text (utl_file_get_line a0 a1)
  | GET_NEXTLINE a0 =>
    fmap_M (λ r, match r with Some t => D_text t | None => D_null end)
           (utl_file_get_nextline a0)
  | PUT a0 a1 => fmap_M D_bool (utl_file_put a0 a1)
  | PUT_LINE a0 a1 a2 => fmap_M D_bool (utl_file_put_line a0 a1 a2)
  | NEW_LINE a0 a1 => fmap_M D_bool (utl_file_new_line a0 a1)
  | PUTF a0 a1 args => fmap_M D_bool (utl_file_putf a0 a1 args)
  | FFLUSH a0 => fmap_M (λ _, D_void) (utl_file_fflush a0)
  | FCLOSE d => fmap_M (λ _, D_null) (utl_file_fclose d)
  | FCLOSE_ALL => fmap_M (λ _, D_void) utl_file_fclose_all
  | FREMOVE a0 a1 => fmap_M (λ _, D_void) (utl_file_fremove a0 a1)
  | FRENAME a0 a1 a2 a3 a4 =>
    fmap_M (λ _, D_void) (utl_file_frename a0 a1 a2 a3 a4)
  | FGETATTR a0 a1 =>
    fmap_M (λ '(e, sz, blk), D_attr e sz blk) (utl_file_fgetattr a0 a1)
  | TMPDIR_CALL => fmap_M D_text utl_file_tmpdir
  end.

(** The session after a sequence of calls, whatever each of them returned
    or raised. *)
Fixpoint run_all (cs : list call) (s : session) : session :=
  match cs with
  | [] => s
  | c :: rest => run_all rest (snd (run c s))
  end.

(** A session is reachable when a backend gets there from its start by
    calls of the package. *)
Definition reachable (s : session) : Prop :=
  ∃ w cs, s = run_all cs (initial_session w).

(** ** Notions the statements use *)

(** What [++slotid], skipping [INVALID_SLOTID], leaves in [slotid]. *)
Definition next_slotid (c : Z) : Z :=
  let c1 := int32_wrap (c + 1) in
  if (c1 =? INVALID_SLOTID)%Z then int32_wrap (c1 + 1) else c1.

(** A slot is occupied when its id is not [INVALID_SLOTID]. *)
Definition occupied (s : session) (i : nat) : Prop :=
  slot_id (slot s i) ≠ INVALID_SLOTID.

Definition table_full (s : session) : Prop :=
  ∀ i, i < MAX_SLOTS → occupied s i.

(** No id is held by two occupied slots. *)
Definition unique_ids (s : session) : Prop :=
  ∀ i j, i < MAX_SLOTS → j < MAX_SLOTS →
    occupied s i → slot_id (slot s i) = slot_id (slot s j) → i = j.

(** The handle table ([slots] and [slotid]) is the same in both sessions. *)
Definition same_table (s s' : session) : Prop :=
  slots s' = slots s ∧ slotid s' = slotid s.

(** The allow-list is the same in both sessions. *)
Definition same_dirs (s s' : session) : Prop :=
  utl_file_dir (os s') = utl_file_dir (os s).

(** Table and allow-list are as they were. *)
Definition undamaged (s s' : session) : Prop :=
  same_table s s' ∧ same_dirs s s'.

Definition keeps_table {A} (m : M A) : Prop :=
  ∀ s, undamaged s (snd (m s)).

(** A libc call that leaves [utl_file.utl_file_dir] alone. *)
Definition quiet {A} (call : world → A * world) : Prop :=
  ∀ w, utl_file_dir (snd (call w)) = utl_file_dir w.

Definition is_fopen (c : call) : bool :=
  match c with FOPEN _ _ _ _ => true | _ => false end.

(** The slot that a successful close leaves behind. *)
Definition cleared (x : FileSlot) : FileSlot :=
  {| slot_file := NULL; slot_max_linesize := slot_max_linesize x;
     slot_id := INVALID_SLOTID |}.

(** The exception [utl_file_fclose] and [utl_file_fclose_all] raise when
    [fclose] fails with [errno] (lines 680-683 and 715-718). *)
Definition close_exception (errno : Z) : error :=
  RAISE_EXCEPTION (if (errno =? EBADF)%Z then INVALID_FILEHANDLE else WRITE_ERROR).

(** What the slots before index [k] look like once they have been
    reclaimed: the occupied ones cleared, the free ones as they were. *)
Definition reclaimed_below (k : nat) (s s' : session) : Prop :=
  ∀ i, i < k →
    slot s' i = (if decide (occupied s i) then cleared (slot s i) else slot s i) ∧
    (occupied s i → slot_file (slot s i) ≠ NULL →
     streams (os s') !! slot_file (slot s i) = None).

Definition untouched_from (k : nat) (s s' : session) : Prop :=
  ∀ i, k ≤ i → slot s' i = slot s i.

(** Every occupied slot that has a stream holds one that is open, and no
    occupied slot before it holds the same: on such a table each [fclose]
    of a scan through the slots is given an open stream. *)
Definition open_streams (s : session) : Prop :=
  ∀ i, i < MAX_SLOTS → occupied s i → slot_file (slot s i) ≠ NULL →
    is_Some (streams (os s) !! slot_file (slot s i)) ∧
    ∀ j, j < i → occupied s j → slot_file (slot s j) ≠ slot_file (slot s i).

(** ** Sessions the statements are tried on *)

Definition ENOSPC : Z := 28.

(** A file on a full device: what is written to it is only found to be
    lost when the stream is closed. *)
Definition full_device_file : stream :=
  {| s_in := []; s_in_errno := 0; s_out := []; s_room := None;
     s_out_errno := ENOSPC; s_flush_errno := ENOSPC; s_close_errno := ENOSPC |}.

(** A file of two lines, the first ended by CR LF, the second by LF. *)
Definition log_file : stream :=
  set_in (cstr "one" ++ ["013"; "010"] ++ cstr "two" ++ ["010"])%char empty_file.

(** [/tmp/allowed] is registered; [/tmp/allowed/full] is on the full
    device, [/tmp/allowed/log] holds two lines. *)
Definition example_world : world :=
  {| streams := ∅; next_file := 1;
     files := {[ cstr "/tmp/allowed/full" := full_device_file;
                 cstr "/tmp/allowed/log" := log_file ]};
     denied := {[ cstr "/tmp/allowed/secret" := EACCES ]};
     utl_file_dir := Some [cstr "/tmp/allowed"];
     st_blksize := 4096; TMPDIR := None |}.

Definition open_example (filename mode : string) : call :=
  FOPEN (Some (cstr "/tmp/allowed")) (Some (cstr filename))
        (Some (cstr mode)) (Some 100%Z).

(** Two handles: 1 on the full device, 2 on the log. *)
Definition two_handles : session :=
  run_all [open_example "full" "a"; open_example "log" "r"]
          (initial_session example_world).

(** All fifty slots taken: fifty handles on the log. *)
Definition fifty_handles : session :=
  run_all (replicate MAX_SLOTS (open_example "log" "r"))
          (initial_session example_world).

(** An id read as [uint32]: the order in which the counter issues ids. *)
Definition uint32 (z : Z) : Z := (z mod 2 ^ 32)%Z.

(** The table invariant while the counter has not gone all the way round:
    at most [n] ids have been issued, every occupied slot holds one of them,
    and no two occupied slots hold the same. *)
Definition table_inv (n : Z) (s : session) : Prop :=
  length (slots s) = MAX_SLOTS ∧
  (- 2 ^ 31 ≤ slotid s < 2 ^ 31)%Z ∧
  (uint32 (slotid s) ≤ n)%Z ∧
  (∀ i, i < MAX_SLOTS → occupied s i →
     (- 2 ^ 31 ≤ slot_id (slot s i) < 2 ^ 31)%Z ∧
     (uint32 (slot_id (slot s i)) ≤ uint32 (slotid s))%Z) ∧
  unique_ids s.

(** [s'] is [s] with some slots released: each slot is as before or free. *)
Definition released (s s' : session) : Prop :=
  length (slots s') = length (slots s) ∧
  slotid s' = slotid s ∧
  ∀ i, i < MAX_SLOTS → slot s' i = slot s i ∨ ¬ occupied s' i.

(** How many of the calls are [utl_file_fopen]. *)
Fixpoint fopen_calls (cs : list call) : Z :=
  match cs with
  | [] => 0
  | c :: rest => ((if is_fopen c then 1 else 0) + fopen_calls rest)%Z
  end.

(** Handle 1 on the log, handle 2 on the full device. *)
Definition log_then_full : session :=
  run_all [open_example "log" "r"; open_example "full" "a"]
          (initial_session example_world).

(** Handle 1 on the log, read to its end. *)
Definition log_read_out : session :=
  run_all [open_example "log" "r"; GET_NEXTLINE (Some 1%Z);
           GET_NEXTLINE (Some 1%Z)]
          (initial_session example_world).

(** [example_world] with [/tmp/allowed/tail], whose one line has no
    terminator after it, and a handle on that file. *)
Definition tail_file : stream := set_in (cstr "end") empty_file.

Definition tail_world : world :=
  set_files (<[cstr "/tmp/allowed/tail" := tail_file]> (files example_world))
            example_world.

Definition tail_reader : session :=
  run_all [open_example "tail" "r"] (initial_session tail_world).

(** The sessions of a backend that keeps handle 1 on the log open and
    opens and closes a second handle again and again: [c] is the counter,
    [nf] the next stream address, [m1] what slot 1 keeps in
    [max_linesize]. *)
Definition cycling_world (nf : N) : world :=
  {| streams := {[ 1%N := log_file ]}; next_file := nf;
     files := files example_world; denied := denied example_world;
     utl_file_dir := utl_file_dir example_world;
     st_blksize := st_blksize example_world; TMPDIR := TMPDIR example_world |}.

Definition cycling_session (c : Z) (nf : N) (m1 : Z) : session :=
  {| slots := <[0 := {| slot_file := 1; slot_max_linesize := 100; slot_id := 1 |}]>
              (<[1 := {| slot_file := NULL; slot_max_linesize := m1;
                         slot_id := INVALID_SLOTID |}]>
                 (replicate MAX_SLOTS zero_slot));
     slotid := c; os := cycling_world nf |}.

(** The session after the 2^32-th open: the counter has come round to 1
    while handle 1 is still open. *)
Definition wrapped_session : session :=
  {| slots := <[0 := {| slot_file := 1; slot_max_linesize := 100; slot_id := 1 |}]>
              (<[1 := {| slot_file := 2 ^ 32; slot_max_linesize := 100;
                         slot_id := 1 |}]>
                 (replicate MAX_SLOTS zero_slot));
     slotid := 1;
     os := {| streams := <[(2 ^ 32)%N := log_file]> {[ 1%N := log_file ]};
              next_file := 2 ^ 32 + 1;
              files := files example_world; denied := denied example_world;
              utl_file_dir := utl_file_dir example_world;
              st_blksize := st_blksize example_world;
              TMPDIR := TMPDIR example_world |} |}.

(** The path [check_secure_locality] lets through without a look at the
    table (line 744). *)
Definition regress_path : text := cstr "/tmp/regress_orafce".

(** [path] starts with [dir] followed by a separator. *)
Definition under_prefix (path dir : text) : Prop :=
  (dir ++ cstr "/") `prefix_of` path.

(** [path] lies under a registered directory. *)
Definition allowed (dirs : list text) (path : text) : Prop :=
  ∃ dir, dir ∈ dirs ∧ under_prefix path dir.

(** What [IO_EXCEPTION] raises for an [errno]. *)
Definition io_error (errno : Z) : error :=
  RAISE_EXCEPTION
    (if ((errno =? EACCES) || (errno =? ENAMETOOLONG)
         || (errno =? ENOENT) || (errno =? ENOTDIR))%Z
     then INVALID_PATH else INVALID_OPERATION).

(** The call [rename(srcpath, dstpath)] and what [utl_file_frename] makes
    of its result (lines 858-861). *)
Definition rename_outcome (srcpath dstpath : text) (s : session)
  : res unit * session :=
  match rename srcpath dstpath (os s) with
  | (None, w) => (Ok tt, set_os w s)
  | (Some errno, w) => (Raise (io_error errno), set_os w s)
  end.

(** ** What a formatted write emits *)

(** One thing [putf] emits: a single byte, or an argument. *)
Inductive putf_item :=
| item_char (c : ascii)
| item_arg (buffer : text).

(** The format read from left to right, [used] arguments consumed so far:
    the last character of the format stands for itself; backslash-n gives
    a newline; [%%] gives [%]; [%s] takes the next of the five arguments
    and emits it when it is there and not NULL, and nothing otherwise; [%]
    with any other character after it emits nothing and takes that
    character with it; every other character stands for itself. *)
Fixpoint putf_items (format : text) (args : list (option text)) (used : nat)
  : list putf_item :=
  match format with
  | [] => []
  | [c] => [item_char c]
  | c0 :: ((c1 :: rest) as tail) =>
    if bool_decide (c0 = "\"%char ∧ c1 = "n"%char) then
      item_char "010" :: putf_items rest args used
    else if bool_decide (c0 = "%"%char ∧ c1 = "%"%char) then
      item_char "%" :: putf_items rest args used
    else if bool_decide (c0 = "%"%char ∧ c1 = "s"%char) then
      match (if (used <? 5)%nat then mjoin (args !! used) else None) with
      | Some buffer => item_arg buffer :: putf_items rest args (S used)
      | None => putf_items rest args (S used)
      end
    else if bool_decide (c0 = "%"%char) then putf_items rest args used
    else item_char c0 :: putf_items tail args used
  end.

(** The bytes an item puts on the stream, and what it adds to the count
    held against [max_linesize]. *)
Definition item_bytes (i : putf_item) : text :=
  match i with item_char c => [c] | item_arg buffer => c_string buffer end.

Definition item_count (i : putf_item) : Z :=
  match i with item_char _ => 1 | item_arg buffer => Z.of_nat (length buffer) end.

Definition items_bytes (items : list putf_item) : text :=
  concat (map item_bytes items).

Fixpoint items_count (items : list putf_item) : Z :=
  match items with
  | [] => 0
  | i :: rest => (item_count i + items_count rest)%Z
  end.

(** The session with [out] appended to what stream [f] has written. *)
Definition append_out (f : N) (out : text) (s : session) : session :=
  match streams (os s) !! f with
  | Some st =>
    set_os (set_streams
              (<[f := set_out (s_out st ++ out) (s_room st) st]> (streams (os s)))
              (os s)) s
  | None => s
  end.

(** Emitting items one after the other, each counted before it is
    written. *)
Fixpoint emit (items : list putf_item) (f : N) (max_linesize cur_len : Z)
  (s : session) : res unit * session :=
  match items with
  | [] => (Ok tt, s)
  | i :: rest =>
    if (cur_len + item_count i >? max_linesize)%Z
    then (Raise (RAISE_EXCEPTION VALUE_ERROR), s)
    else emit rest f max_linesize (cur_len + item_count i)
              (append_out f (item_bytes i) s)
  end.

(** One handle, open for writing on a new file. *)
Definition one_writer : session :=
  run_all [open_example "out" "w"] (initial_session example_world).

(** ** What a line read sees *)

(** The world with the unread input of stream [f] replaced by [rest]. *)
Definition with_input (f : N) (rest : text) (st : stream) (w : world) : world :=
  set_streams (<[f := set_in rest st]> (streams w)) w.

(** [term] is a line terminator in front of [rest]: CR LF, a lone LF, or a
    lone CR that no LF follows. *)
Definition terminator (term rest : text) : Prop :=
  term = [CR; LF] ∨ term = [LF] ∨ (term = [CR] ∧ head rest ≠ Some LF).

(** The unread input [input] splits into the line read, the terminator
    taken with it and the input left, for a read of at most [limit]
    characters: the line holds no CR and no LF and at most [limit]
    characters; it ends at a terminator, found before the limit is
    reached, or else at the limit or at the end of the input. *)
Definition line_split (limit : nat) (input line term rest : text) : Prop :=
  input = line ++ term ++ rest ∧
  length line ≤ limit ∧
  (CR ∉ line) ∧ (LF ∉ line) ∧
  ((terminator term rest ∧ length line < limit) ∨
   (term = [] ∧ (length line = limit ∨ rest = []))).

(** What [get_line] returns when no character at all was read. *)
Definition nothing_read (limit : nat) (st : stream)
  : res (option text * bool) :=
  let errno := if (limit =? 0)%nat then 0%Z else s_in_errno st in
  if (errno =? 0)%Z then Ok (None, true)
  else if (errno =? EBADF)%Z then Raise (RAISE_EXCEPTION INVALID_OPERATION)
  else Raise (RAISE_EXCEPTION READ_ERROR).

(** ** Sessions a backend can be in *)

(** What libc promises of the addresses of its streams: [fopen] does not
    return [NULL] for a stream it has opened, and an open stream lives at
    an address that [fopen] has handed out before. *)
Definition world_ok (w : world) : Prop :=
  (0 < next_file w)%N ∧
  ∀ f, is_Some (streams w !! f) → (0 < f < next_file w)%N.

(** The world has moved on: no address is handed out twice, and the
    promise above still holds when it did before. *)
Definition grows (w w' : world) : Prop :=
  (next_file w ≤ next_file w')%N ∧ (world_ok w → world_ok w').

(** A libc call, and a call of the package, after which the world has
    moved on in this sense. *)
Definition tidy {A} (call : world → A * world) : Prop :=
  ∀ w, grows w (snd (call w)).

Definition keeps_world {A} (m : M A) : Prop :=
  ∀ s, grows (os s) (os (snd (m s))).

(** A slot is free exactly when it holds no stream. *)
Definition free_iff_null (s : session) : Prop :=
  ∀ i, i < MAX_SLOTS →
    slot_id (slot s i) = INVALID_SLOTID ↔ slot_file (slot s i) = NULL.

(** No stream is held by two occupied slots. *)
Definition no_shared_stream (s : session) : Prop :=
  ∀ i j, i < MAX_SLOTS → j < MAX_SLOTS → occupied s i → occupied s j →
    slot_file (slot s i) = slot_file (slot s j) → i = j.

(** What holds of the sessions of a backend: the table has its 50 slots,
    libc keeps its promise, free slots are the ones without a stream, the
    streams of the occupied slots have been handed out by [fopen], and no
    two of them are the same. *)
Definition session_ok (s : session) : Prop :=
  length (slots s) = MAX_SLOTS ∧
  world_ok (os s) ∧
  free_iff_null s ∧
  (∀ i, i < MAX_SLOTS → occupied s i →
     (slot_file (slot s i) < next_file (os s))%N) ∧
  no_shared_stream s.

(** Each slot of [s'] is the slot of [s], or that slot cleared. *)
Definition same_or_cleared (s s' : session) : Prop :=
  length (slots s') = length (slots s) ∧
  slotid s' = slotid s ∧
  ∀ i, i < MAX_SLOTS → slot s' i = slot s i ∨ slot s' i = cleared (slot s i).

(** A handle argument that names nothing: SQL NULL, [INVALID_SLOTID], or an
    id that no slot holds. *)
Definition dead_handle (arg0 : option Z) (s : session) : Prop :=
  match arg0 with
  | None => True
  | Some d =>
    d = INVALID_SLOTID ∨ ∀ i, i < MAX_SLOTS → slot_id (slot s i) ≠ d
  end.

(** The handles that the calls [cs], run one after the other from [s],
    have returned: only [utl_file_fopen] returns an [int32]. *)
Fixpoint issued (cs : list call) (s : session) : list Z :=
  match cs with
  | [] => []
  | c :: rest =>
    match run c s with
    | (Ok (D_int32 d), s') => d :: issued rest s'
    | (_, s') => issued rest s'
    end
  end.

(** The calls that write to a stream.  What they write stays with the
    stream: the files of the world are those that [fopen], [unlink] and
    [rename] leave. *)
Definition is_write (c : call) : bool :=
  match c with
  | PUT _ _ | PUT_LINE _ _ _ | NEW_LINE _ _ | PUTF _ _ _ => true
  | _ => false
  end.

(** ** Text files *)

(** The bytes of a text file: each line with the terminator after it. *)
Definition file_bytes (ls : list (text * text)) : text :=
  concat (map (λ lt, lt.1 ++ lt.2) ls).

(** A line terminator as a writer leaves it: LF, or CR LF. *)
Definition newline (term : text) : Prop := term = [LF] ∨ term = [CR; LF].

(** A line that [get_line] returns whole under the limit [max_linesize]:
    no CR, no LF, shorter than the limit, well formed. *)
Definition readable (max_linesize : Z) (line : text) : Prop :=
  (CR ∉ line) ∧ (LF ∉ line) ∧
  (Z.of_nat (length line) < max_linesize)%Z ∧
  pg_verifymbstr line = true.

(** [n] calls of [utl_file_get_nextline] in a row, and what each gave. *)
Fixpoint read_lines (n : nat) (file : option Z) (s : session)
  : list (res (option text)) * session :=
  match n with
  | O => ([], s)
  | S n' =>
    let '(r, s1) := utl_file_get_nextline file s in
    let '(rs, s2) := read_lines n' file s1 in
    (r :: rs, s2)
  end.

(** One [utl_file_put_line] for each line, until one raises. *)
Fixpoint put_lines (ls : list text) (file : option Z) : M unit :=
  match ls with
  | [] => ret tt
  | l :: rest => utl_file_put_line file (Some l) None ;;; put_lines rest file
  end.

(** ** Errors *)

(** A call raises nothing but errors for which [P] holds. *)
Definition raises_only {A} (P : error → Prop) (m : M A) : Prop :=
  ∀ s e s', m s = (Raise e, s') → P e.

(** The errors of the argument checks of the calls that take a path. *)
Definition path_errors : list error :=
  [ INVALID_PARAMETER_VALUE; RAISE_EXCEPTION INVALID_PATH; INTERNAL_ERROR ].

(** The errors each call of the package can raise. *)
Definition may_raise (c : call) : list error :=
  match c with
  | FOPEN _ _ _ _ =>
    [ NULL_VALUE_NOT_ALLOWED 0; NULL_VALUE_NOT_ALLOWED 1;
      NULL_VALUE_NOT_ALLOWED 2; NULL_VALUE_NOT_ALLOWED 3;
      RAISE_EXCEPTION INVALID_MAXLINESIZE; RAISE_EXCEPTION INVALID_MODE;
      RAISE_EXCEPTION INVALID_OPERATION; PROGRAM_LIMIT_EXCEEDED ] ++ path_errors
  | IS_OPEN _ => []
  | GET_LINE _ _ =>
    [ RAISE_EXCEPTION INVALID_FILEHANDLE; RAISE_EXCEPTION INVALID_MAXLINESIZE;
      NO_DATA_FOUND; RAISE_EXCEPTION INVALID_OPERATION;
      RAISE_EXCEPTION READ_ERROR; CHARACTER_NOT_IN_REPERTOIRE ]
  | GET_NEXTLINE _ =>
    [ RAISE_EXCEPTION INVALID_FILEHANDLE; RAISE_EXCEPTION INVALID_OPERATION;
      RAISE_EXCEPTION READ_ERROR; CHARACTER_NOT_IN_REPERTOIRE ]
  | PUT _ _ | PUT_LINE _ _ _ | PUTF _ _ _ =>
    [ RAISE_EXCEPTION INVALID_FILEHANDLE; NULL_VALUE_NOT_ALLOWED 1;
      RAISE_EXCEPTION VALUE_ERROR; RAISE_EXCEPTION INVALID_OPERATION;
      RAISE_EXCEPTION WRITE_ERROR ]
  | NEW_LINE _ _ | FFLUSH _ =>
    [ RAISE_EXCEPTION INVALID_FILEHANDLE; RAISE_EXCEPTION INVALID_OPERATION;
      RAISE_EXCEPTION WRITE_ERROR ]
  | FCLOSE _ | FCLOSE_ALL =>
    [ RAISE_EXCEPTION INVALID_FILEHANDLE; RAISE_EXCEPTION WRITE_ERROR ]
  | FREMOVE _ _ =>
    [ NULL_VALUE_NOT_ALLOWED 0; NULL_VALUE_NOT_ALLOWED 1;
      RAISE_EXCEPTION INVALID_OPERATION ] ++ path_errors
  | FRENAME _ _ _ _ _ =>
    [ NULL_VALUE_NOT_ALLOWED 0; NULL_VALUE_NOT_ALLOWED 1;
      NULL_VALUE_NOT_ALLOWED 2; NULL_VALUE_NOT_ALLOWED 3;
      RAISE_EXCEPTION WRITE_ERROR; RAISE_EXCEPTION INVALID_OPERATION ]
    ++ path_errors
  | FGETATTR _ _ =>
    [ NULL_VALUE_NOT_ALLOWED 0; NULL_VALUE_NOT_ALLOWED 1 ] ++ path_errors
  | TMPDIR_CALL => []
  end.

(** ** More sessions the statements are tried on *)

(** A file on a device that takes no more bytes. *)
Definition stuck_file : stream :=
  {| s_in := []; s_in_errno := 0; s_out := []; s_room := Some 0;
     s_out_errno := ENOSPC; s_flush_errno := 0; s_close_errno := 0 |}.

(** [example_world] with [/tmp/allowed/stuck] on such a device. *)
Definition stuck_world : world :=
  set_files (<[cstr "/tmp/allowed/stuck" := stuck_file]> (files example_world))
            example_world.

(** One handle, open for appending on the stuck file. *)
Definition stuck_writer : session :=
  run_all [open_example "stuck" "a"] (initial_session stuck_world).

(** One handle on the log that reads at most three characters a call. *)
Definition short_reader : session :=
  run_all [FOPEN (Some (cstr "/tmp/allowed")) (Some (cstr "log"))
                 (Some (cstr "r")) (Some 3%Z)]
          (initial_session example_world).

(** * Properties *)

(** ** The handle table *)

Lemma int32_wrap_range z : (- 2 ^ 31 ≤ int32_wrap z < 2 ^ 31)%Z.
Proof. unfold int32_wrap. pose proof (Z.mod_pos_bound (z + 2 ^ 31) (2 ^ 32)). lia. Qed.

Lemma int32_wrap_id z : (- 2 ^ 31 ≤ z < 2 ^ 31)%Z → int32_wrap z = z.
Proof. intros Hz. unfold int32_wrap. rewrite Z.mod_small; lia. Qed.

Lemma next_slotid_nonzero c : next_slotid c ≠ INVALID_SLOTID.
Proof.
  unfold next_slotid, INVALID_SLOTID.
  destruct (Z.eqb_spec (int32_wrap (c + 1)) 0) as [E|E]; [|done].
  rewrite E. by vm_compute.
Qed.

Lemma next_slotid_range c : (- 2 ^ 31 ≤ next_slotid c < 2 ^ 31)%Z.
Proof. unfold next_slotid. case_match; apply int32_wrap_range. Qed.

Lemma find_slot_from_Some n i d s k :
  find_slot_from n i d s = Some k →
  i ≤ k < i + n ∧ slot_id (slot s k) = d ∧
  ∀ j, i ≤ j < k → slot_id (slot s j) ≠ d.
Proof.
  revert i. induction n as [|n IH]; intros i; simpl; [done|].
  destruct (Z.eqb_spec (slot_id (slot s i)) d) as [E|E].
  - intros [= <-]. repeat split; [lia..|done|]. intros j ?; lia.
  - intros H. destruct (IH _ H) as (Hk & Hd & Hlt).
    repeat split; [lia..|done|].
    intros j Hj. destruct (decide (j = i)) as [->|]; [done|]. apply Hlt; lia.
Qed.

Lemma find_slot_from_None n i d s :
  find_slot_from n i d s = None →
  ∀ j, i ≤ j < i + n → slot_id (slot s j) ≠ d.
Proof.
  revert i. induction n as [|n IH]; intros i; simpl; [intros _ j ?; lia|].
  destruct (Z.eqb_spec (slot_id (slot s i)) d) as [E|E]; [done|].
  intros H j Hj. destruct (decide (j = i)) as [->|]; [done|].
  apply (IH _ H); lia.
Qed.

(** [get_descriptor] takes the first free slot, the one its sibling loops
    find for id [INVALID_SLOTID]. *)
Lemma get_descriptor_from_find n i file max_linesize s :
  get_descriptor_from n i file max_linesize s =
  match find_slot_from n i INVALID_SLOTID s with
  | None => (INVALID_SLOTID, s)
  | Some k =>
    (next_slotid (slotid s),
     {| slots := <[k := {| slot_file := file;
                           slot_max_linesize := max_linesize;
                           slot_id := next_slotid (slotid s) |}]> (slots s);
        slotid := next_slotid (slotid s); os := os s |})
  end.
Proof.
  revert i. induction n as [|n IH]; intros i; simpl; [done|].
  destruct (slot_id (slot s i) =? INVALID_SLOTID)%Z; [done|]. apply IH.
Qed.

Lemma find_slot_full s :
  table_full s → find_slot INVALID_SLOTID s = None.
Proof.
  intros Hfull. unfold find_slot.
  destruct (find_slot_from _ _ _ _) as [k|] eqn:E; [|done].
  apply find_slot_from_Some in E as (Hk & Hd & _).
  destruct (Hfull k); [lia|done].
Qed.

Lemma find_slot_not_full s :
  find_slot INVALID_SLOTID s = None → table_full s.
Proof.
  intros E i Hi. unfold find_slot in E.
  apply (find_slot_from_None _ _ _ _ E). lia.
Qed.

Lemma get_descriptor_full file max_linesize s :
  table_full s → get_descriptor file max_linesize s = (INVALID_SLOTID, s).
Proof.
  intros Hfull. unfold get_descriptor.
  rewrite get_descriptor_from_find. fold (find_slot INVALID_SLOTID s).
  by rewrite find_slot_full.
Qed.

(** ** Calls that leave the handle table and the allow-list alone *)

Lemma undamaged_refl s : undamaged s s.
Proof. done. Qed.

Lemma undamaged_trans s1 s2 s3 :
  undamaged s1 s2 → undamaged s2 s3 → undamaged s1 s3.
Proof. intros [[??]?] [[??]?]. unfold undamaged, same_table, same_dirs. split_and!; congruence. Qed.

Lemma undamaged_set_os w s :
  utl_file_dir w = utl_file_dir (os s) → undamaged s (set_os w s).
Proof. done. Qed.

Lemma quiet_fopen path mode : quiet (fopen path mode).
Proof. intros w. unfold fopen. by repeat case_match. Qed.

Lemma quiet_fclose f : quiet (fclose f).
Proof. intros w. unfold fclose. by repeat case_match. Qed.

Lemma quiet_fgetc f : quiet (fgetc f).
Proof. intros w. unfold fgetc. by repeat case_match. Qed.

Lemma quiet_ungetc c f w : utl_file_dir (ungetc c f w) = utl_file_dir w.
Proof. unfold ungetc. by repeat case_match. Qed.

Lemma quiet_fputc c f : quiet (fputc c f).
Proof. intros w. unfold fputc. by repeat case_match. Qed.

Lemma quiet_fwrite_bytes buf f : quiet (fwrite_bytes buf f).
Proof.
  induction buf as [|c rest IH]; intros w; simpl; [done|].
  pose proof (quiet_fputc c f w) as Hc.
  destruct (fputc c f w) as [[e|] w1]; simpl in *; [done|].
  specialize (IH w1). destruct (fwrite_bytes rest f w1) as [[n r] w2].
  simpl in *. congruence.
Qed.

Lemma quiet_fputs buf f : quiet (fputs buf f).
Proof.
  intros w. unfold fputs. pose proof (quiet_fwrite_bytes buf f w) as H.
  by destruct (fwrite_bytes buf f w) as [[n r] w1].
Qed.

Lemma quiet_fflush f : quiet (fflush f).
Proof. intros w. unfold fflush. by repeat case_match. Qed.

Lemma quiet_unlink path : quiet (unlink path).
Proof. intros w. unfold unlink. by repeat case_match. Qed.

Lemma quiet_rename src dst : quiet (rename src dst).
Proof. intros w. unfold rename. by repeat case_match. Qed.

Lemma quiet_stat path : quiet (λ w, (stat path w, w)).
Proof. done. Qed.

Lemma quiet_get_line_loop fuel f buffer eof errno w :
  utl_file_dir (snd (get_line_loop fuel f buffer eof errno w)) = utl_file_dir w.
Proof.
  revert buffer eof errno w. induction fuel as [|fuel IH]; intros; simpl; [done|].
  pose proof (quiet_fgetc f w) as H1.
  destruct (fgetc f w) as [[e|c] w1]; simpl in *; [done|].
  case_bool_decide.
  - pose proof (quiet_fgetc f w1) as H2.
    destruct (fgetc f w1) as [[e|c'] w2]; simpl in *; [congruence|].
    case_bool_decide; simpl; [|rewrite quiet_ungetc]; congruence.
  - case_bool_decide; simpl; [done|]. rewrite IH. done.
Qed.

Lemma keeps_table_ret {A} (a : A) : keeps_table (ret a).
Proof. intros s. apply undamaged_refl. Qed.

Lemma keeps_table_raise {A} e : keeps_table (raise (A:=A) e).
Proof. intros s. apply undamaged_refl. Qed.

Lemma keeps_table_bind {A B} (m : M A) (k : A → M B) :
  keeps_table m → (∀ a, keeps_table (k a)) → keeps_table (bind m k).
Proof.
  intros Hm Hk s. unfold bind. specialize (Hm s).
  destruct (m s) as [[a|e] s1]; simpl in *; [|done].
  eapply undamaged_trans; [done|apply Hk].
Qed.

Lemma keeps_table_sys {A} (c : world → A * world) :
  quiet c → keeps_table (sys c).
Proof.
  intros Hc s. unfold sys. specialize (Hc (os s)).
  destruct (c (os s)). by apply undamaged_set_os.
Qed.

Lemma keeps_table_when b e : keeps_table (when b e).
Proof. destruct b; [apply keeps_table_raise|apply keeps_table_ret]. Qed.

Lemma keeps_table_CUSTOM_EXCEPTION {A} msg :
  keeps_table (CUSTOM_EXCEPTION (A:=A) msg).
Proof. apply keeps_table_raise. Qed.

Lemma keeps_table_NOT_NULL_ARG {A} n (arg : option A) :
  keeps_table (NOT_NULL_ARG n arg).
Proof. destruct arg; [apply keeps_table_ret|apply keeps_table_raise]. Qed.

Lemma keeps_table_CHECK_FILE_HANDLE arg0 : keeps_table (CHECK_FILE_HANDLE arg0).
Proof. destruct arg0; [apply keeps_table_ret|apply keeps_table_raise]. Qed.

Lemma keeps_table_IO_EXCEPTION {A} errno : keeps_table (IO_EXCEPTION (A:=A) errno).
Proof. unfold IO_EXCEPTION. case_match; apply keeps_table_raise. Qed.

Lemma keeps_table_CHECK_ERRNO_PUT {A} errno :
  keeps_table (CHECK_ERRNO_PUT (A:=A) errno).
Proof. unfold CHECK_ERRNO_PUT. case_match; apply keeps_table_raise. Qed.

Lemma keeps_table_get_stream d : keeps_table (get_stream d).
Proof.
  unfold get_stream. case_match; [apply keeps_table_raise|].
  intros s. case_match; apply undamaged_refl.
Qed.

Lemma keeps_table_check_secure_locality path :
  keeps_table (check_secure_locality path).
Proof.
  unfold check_secure_locality. case_match; [apply keeps_table_ret|].
  intros s. repeat case_match; apply undamaged_refl.
Qed.

Create HintDb keeps discriminated.

#[local] Hint Resolve keeps_table_ret keeps_table_raise keeps_table_sys
  keeps_table_when keeps_table_CUSTOM_EXCEPTION keeps_table_NOT_NULL_ARG
  keeps_table_CHECK_FILE_HANDLE keeps_table_IO_EXCEPTION
  keeps_table_CHECK_ERRNO_PUT keeps_table_get_stream
  keeps_table_check_secure_locality
  quiet_fopen quiet_fclose quiet_fputc quiet_fwrite_bytes quiet_fputs
  quiet_fflush quiet_unlink quiet_rename quiet_stat : keeps.

Ltac keeps_step :=
  match goal with
  | |- keeps_table (bind _ _) => apply keeps_table_bind; [|intros ?]
  | |- keeps_table (match ?x with _ => _ end) => destruct x
  | |- keeps_table _ => solve [eauto with keeps]
  end.

Ltac keeps := repeat keeps_step.

Lemma keeps_table_get_safe_path location filename :
  keeps_table (get_safe_path location filename).
Proof. unfold get_safe_path, NON_EMPTY_TEXT. keeps. Qed.

Lemma keeps_table_get_line f max_linesize :
  keeps_table (get_line f max_linesize).
Proof.
  intros s. unfold get_line.
  pose proof (quiet_get_line_loop (Z.to_nat max_linesize) f [] true 0 (os s)) as H.
  destruct (get_line_loop _ _ _ _ _ _) as [[[buffer eof] errno] w].
  repeat case_match; by apply undamaged_set_os.
Qed.

Lemma keeps_table_do_flush f : keeps_table (do_flush f).
Proof. unfold do_flush. keeps. Qed.

Lemma keeps_table_put_char c f : keeps_table (put_char c f).
Proof. unfold put_char. keeps. Qed.

#[local] Hint Resolve keeps_table_get_safe_path keeps_table_get_line
  keeps_table_do_flush keeps_table_put_char : keeps.

Lemma keeps_table_do_put arg0 arg1 : keeps_table (do_put arg0 arg1).
Proof. unfold do_put, CHECK_LENGTH. keeps. Qed.

Lemma keeps_table_do_new_line f lines : keeps_table (do_new_line f lines).
Proof.
  unfold do_new_line. induction (Z.to_nat lines) as [|n IH]; simpl; keeps.
Qed.

Lemma keeps_table_putf_loop fpt f max_linesize args cur_par cur_len :
  keeps_table (putf_loop fpt f max_linesize args cur_par cur_len).
Proof.
  remember (length fpt) as n eqn:Hn. revert fpt Hn cur_par cur_len.
  induction (lt_wf n) as [n _ IH]. intros fpt -> cur_par cur_len.
  destruct fpt as [|c0 [|c1 rest]]; simpl; unfold CHECK_LENGTH; keeps;
    try (eapply IH; [|done]; simpl; lia).
Qed.

#[local] Hint Resolve keeps_table_do_put keeps_table_do_new_line
  keeps_table_putf_loop : keeps.

Lemma keeps_table_is_open arg0 : keeps_table (utl_file_is_open arg0).
Proof. intros s. unfold utl_file_is_open. repeat case_match; done. Qed.

Lemma keeps_table_fgetattr arg0 arg1 : keeps_table (utl_file_fgetattr arg0 arg1).
Proof.
  unfold utl_file_fgetattr. keeps. intros s. repeat case_match; done.
Qed.

Lemma IO_EXCEPTION_raises {A} errno s :
  ∃ e, IO_EXCEPTION (A:=A) errno s = (Raise e, s) ∧
       (e = RAISE_EXCEPTION INVALID_PATH ∨ e = RAISE_EXCEPTION INVALID_OPERATION).
Proof.
  unfold IO_EXCEPTION, CUSTOM_EXCEPTION, raise. case_match; eauto.
Qed.

Lemma get_safe_path_session location filename s :
  snd (get_safe_path location filename s) = s.
Proof.
  unfold get_safe_path, NON_EMPTY_TEXT, check_secure_locality, when, bind,
    ret, raise.
  repeat (case_match; simplify_eq/=; try done).
Qed.

(** What [utl_file_fopen] does to the table: nothing when it raises; when
    it returns, what [get_descriptor] did for the stream just opened. *)
Lemma fopen_table arg0 arg1 arg2 arg3 s :
  match utl_file_fopen arg0 arg1 arg2 arg3 s with
  | (Raise _, s') => undamaged s s'
  | (Ok d, s') =>
    ∃ file max_linesize w,
      get_descriptor file max_linesize (set_os w s) = (d, s') ∧
      utl_file_dir w = utl_file_dir (os s) ∧
      d ≠ INVALID_SLOTID
  end.
Proof.
  unfold utl_file_fopen.
  destruct arg0 as [location|], arg1 as [filename|], arg2 as [open_mode|],
    arg3 as [max_linesize|]; try done.
  unfold bind at 1 2 3 4; simpl.
  unfold NON_EMPTY_TEXT, CHECK_LINESIZE, when, bind at 1 2 3.
  destruct (length open_mode =? 0); [done|].
  destruct (_ || _); [done|].
  destruct (negb _); [done|]. simpl.
  destruct (mode_of_letter _) as [mode|]; [|done].
  unfold bind at 1.
  pose proof (get_safe_path_session location filename s) as Hs.
  destruct (get_safe_path location filename s) as [[fullname|e] s0];
    simpl in Hs; subst s0; [|done].
  unfold bind, sys. pose proof (quiet_fopen fullname mode (os s)) as Hq.
  destruct (fopen fullname mode (os s)) as [[errno|file] w]; simpl in Hq.
  { by destruct (IO_EXCEPTION_raises (A:=Z) errno (set_os w s)) as (e & -> & _). }
  destruct (get_descriptor file max_linesize (set_os w s)) as [d s1] eqn:Hd.
  destruct (Z.eqb_spec d INVALID_SLOTID) as [->|Hne].
  - unfold get_descriptor in Hd. rewrite get_descriptor_from_find in Hd.
    destruct (find_slot_from _ _ _ _); simplify_eq/=.
    + by destruct (next_slotid_nonzero (slotid s)).
    + pose proof (quiet_fclose file w) as Hq2.
      destruct (fclose file w); simpl in *. split; [done|]. red. simpl. congruence.
  - by exists file, max_linesize, w.
Qed.

(** ** Closing *)

Lemma fclose_streams f w :
  streams (snd (fclose f w)) = delete f (streams w) ∧
  (fst (fclose f w) = 0%Z ∨
   (streams w !! f = None ∧ fst (fclose f w) = EBADF) ∨
   ∃ st, streams w !! f = Some st ∧ fst (fclose f w) = s_close_errno st).
Proof.
  unfold fclose. destruct (streams w !! f) as [st|] eqn:E; simpl.
  - split; [done|]. right; right; eauto.
  - split; [by rewrite delete_id|]. right; left; done.
Qed.

(** [close_slot] either clears the slot or raises and leaves the table. *)
Lemma close_slot_cases i s :
  (∃ w, close_slot i s = (Ok tt, set_slot i (cleared (slot s i)) (set_os w s)) ∧
        utl_file_dir w = utl_file_dir (os s) ∧
        streams w = (if (slot_file (slot s i) =? NULL)%N then streams (os s)
                     else delete (slot_file (slot s i)) (streams (os s)))) ∨
  (∃ w errno, close_slot i s = (Raise (close_exception errno), set_os w s) ∧
        utl_file_dir w = utl_file_dir (os s) ∧
        slot_file (slot s i) ≠ NULL ∧ errno ≠ 0%Z ∧
        errno = fst (fclose (slot_file (slot s i)) (os s)) ∧
        streams w = delete (slot_file (slot s i)) (streams (os s))).
Proof.
  unfold close_slot.
  destruct (N.eqb_spec (slot_file (slot s i)) NULL) as [E|E].
  { left. exists (os s). split; [|done]. simpl. by destruct s. }
  pose proof (fclose_streams (slot_file (slot s i)) (os s)) as [Hst _].
  pose proof (quiet_fclose (slot_file (slot s i)) (os s)) as Hq.
  destruct (fclose (slot_file (slot s i)) (os s)) as [errno w]; simpl in *.
  destruct (Z.eqb_spec errno 0) as [->|Hne].
  - left. by exists w.
  - right. exists w, errno. unfold close_exception, CUSTOM_EXCEPTION, raise.
    by destruct (errno =? EBADF)%Z.
Qed.

Lemma slot_set_slot_eq i x s : i < length (slots s) → slot (set_slot i x s) i = x.
Proof. intros. unfold slot, set_slot; simpl. by apply list_lookup_total_insert_eq. Qed.

Lemma slot_set_slot_ne i j x s : i ≠ j → slot (set_slot i x s) j = slot s j.
Proof. intros. unfold slot, set_slot; simpl. by apply list_lookup_total_insert_ne. Qed.

Lemma slot_set_os w s i : slot (set_os w s) i = slot s i.
Proof. done. Qed.

Lemma fclose_all_from_spec n i s :
  i + n ≤ length (slots s) →
  ∃ k, i ≤ k ≤ i + n ∧
    let '(r, s') := fclose_all_from n i s in
    slotid s' = slotid s ∧ length (slots s') = length (slots s) ∧
    same_dirs s s' ∧
    streams (os s') ⊆ streams (os s) ∧
    (∀ j, j < i → slot s' j = slot s j) ∧
    (∀ j, i ≤ j < k →
       slot s' j = (if decide (occupied s j) then cleared (slot s j) else slot s j) ∧
       (occupied s j → slot_file (slot s j) ≠ NULL →
        streams (os s') !! slot_file (slot s j) = None)) ∧
    untouched_from k s s' ∧
    match r with
    | Ok _ => k = i + n
    | Raise e =>
      k < i + n ∧ occupied s k ∧ slot_file (slot s k) ≠ NULL ∧
      streams (os s') !! slot_file (slot s k) = None ∧
      ((∃ st, streams (os s) !! slot_file (slot s k) = Some st ∧
              s_close_errno st ≠ 0%Z ∧ e = close_exception (s_close_errno st)) ∨
       (e = RAISE_EXCEPTION INVALID_FILEHANDLE ∧
        (streams (os s) !! slot_file (slot s k) = None ∨
         ∃ j, i ≤ j < k ∧ occupied s j ∧
              slot_file (slot s j) = slot_file (slot s k))))
    end.
Proof.
  revert i s. induction n as [|n IH]; intros i s Hlen.
  { exists i. split; [lia|]. simpl. split_and!; try done; try lia. }
  simpl.
  destruct (Z.eqb_spec (slot_id (slot s i)) INVALID_SLOTID) as [Efree|Eocc]; simpl.
  - (* a free slot: skipped *)
    destruct (IH (S i) s) as (k & Hk & H); [lia|]. exists k. split; [lia|].
    destruct (fclose_all_from n (S i) s) as [r s'].
    destruct H as (Hid & Hl & Hdir & Hsub & Hlow & Hmid & Hhi & Hr).
    split_and!; try done.
    + intros j ?. apply Hlow. lia.
    + intros j Hj. destruct (decide (j = i)) as [->|].
      * split; [|done].
        rewrite decide_False by (unfold occupied; tauto). apply Hlow. lia.
      * apply Hmid. lia.
    + destruct r; [lia|]. destruct Hr as (? & ? & ? & ? & He).
      split_and!; [lia|done..|].
      destruct He as [?|(-> & [?|(j & ? & ? & ?)])]; [by left|right..].
      * split; [done|by left].
      * split; [done|]. right. exists j. split_and!; [lia..|done|done].
  - (* an occupied slot: closed *)
    unfold bind.
    destruct (close_slot_cases i s)
      as [(w & -> & Hwd & Hw)|(w & errno & -> & Hwd & Hnn & Herr & Hfc & Hw)].
    + set (s1 := set_slot i (cleared (slot s i)) (set_os w s)).
      destruct (IH (S i) s1) as (k & Hk & H).
      { unfold s1, set_slot; simpl. rewrite length_insert. lia. }
      exists k. split; [lia|].
      destruct (fclose_all_from n (S i) s1) as [r s'].
      destruct H as (Hid & Hl & Hdir & Hsub & Hlow & Hmid & Hhi & Hr).
      assert (Hs1 : ∀ j, j ≠ i → slot s1 j = slot s j).
      { intros j ?. unfold s1. by rewrite slot_set_slot_ne. }
      assert (Hs1i : slot s1 i = cleared (slot s i)).
      { unfold s1. rewrite slot_set_slot_eq; [done|simpl; lia]. }
      assert (Hsub1 : streams (os s1) ⊆ streams (os s)).
      { unfold s1; simpl. rewrite Hw.
        destruct (slot_file (slot s i) =? NULL)%N; [reflexivity|apply delete_subseteq]. }
      assert (Hocc : ∀ j, j ≠ i → occupied s1 j ↔ occupied s j).
      { intros j ?. unfold occupied. by rewrite Hs1. }
      split_and!.
      * done.
      * rewrite Hl. unfold s1, set_slot; simpl. by rewrite length_insert.
      * red. rewrite Hdir. done.
      * by etrans.
      * intros j ?. rewrite Hlow by lia. apply Hs1. lia.
      * intros j Hj. destruct (decide (j = i)) as [->|Hji]; split.
        -- rewrite Hlow by lia. rewrite Hs1i. by rewrite decide_True.
        -- intros _ Hf. eapply lookup_weaken_None; [|exact Hsub].
           unfold s1; simpl. rewrite Hw.
           destruct (N.eqb_spec (slot_file (slot s i)) NULL); [done|].
           apply lookup_delete_eq.
        -- destruct (Hmid j) as [-> _]; [lia|].
           destruct (decide (occupied s1 j)) as [H1|H1],
             (decide (occupied s j)) as [H2|H2]; rewrite (Hs1 j) by done;
             try done; exfalso; apply Hocc in H1 || apply Hocc in H2; done.
        -- intros Ho Hf. destruct (Hmid j) as [_ Hc]; [lia|].
           rewrite <- (Hs1 j) by done.
           apply Hc; [by apply Hocc|by rewrite (Hs1 j)].
      * intros j ?. rewrite Hhi by done. apply Hs1. lia.
      * destruct r; [lia|]. destruct Hr as (? & Ho & Hf & Hcl & He).
        rewrite !(Hs1 k) in Hf, Hcl, He by lia.
        split_and!; [lia|apply Hocc; [lia|done]|done..|].
        destruct He as [(st & Hst & ?)|(-> & Hno)].
        { left. exists st. split; [|done]. by eapply lookup_weaken. }
        right. split; [done|].
        destruct Hno as [Hno|(j & Hj & Hoj & Hfj)].
        -- unfold s1 in Hno; simpl in Hno. rewrite Hw in Hno.
           destruct (N.eqb_spec (slot_file (slot s i)) NULL) as [?|Hnn];
             [by left|].
           destruct (decide (slot_file (slot s i) = slot_file (slot s k)))
             as [Eq|Ne].
           ++ right. exists i. split_and!; [lia..|done|done].
           ++ left. by rewrite lookup_delete_ne in Hno.
        -- right. exists j. rewrite (Hs1 j) in Hfj by lia.
           split_and!; [lia..|apply Hocc; [lia|done]|done].
    + exists i. split; [lia|]. simpl. split_and!; try done; try lia.
      * rewrite Hw. apply delete_subseteq.
      * rewrite Hw. apply lookup_delete_eq.
      * destruct (fclose_streams (slot_file (slot s i)) (os s)) as [_ Hc].
        destruct Hc as [?|[[Hno Hb]|(st & Hst & Hc)]]; [congruence| |].
        -- right. rewrite Hfc, Hb. split; [done|by left].
        -- left. exists st. split; [done|]. rewrite <- Hc, <- Hfc. done.
Qed.

(** The whole scan. *)
Lemma fclose_all_spec s :
  length (slots s) = MAX_SLOTS →
  ∃ k, k ≤ MAX_SLOTS ∧
    let '(r, s') := utl_file_fclose_all s in
    slotid s' = slotid s ∧
    length (slots s') = length (slots s) ∧
    same_dirs s s' ∧
    reclaimed_below k s s' ∧
    untouched_from k s s' ∧
    match r with
    | Ok _ => k = MAX_SLOTS
    | Raise e =>
      k < MAX_SLOTS ∧ occupied s k ∧ slot_file (slot s k) ≠ NULL ∧
      ((∃ st, streams (os s) !! slot_file (slot s k) = Some st ∧
              s_close_errno st ≠ 0%Z ∧ e = close_exception (s_close_errno st)) ∨
       (e = RAISE_EXCEPTION INVALID_FILEHANDLE ∧
        (streams (os s) !! slot_file (slot s k) = None ∨
         ∃ j, j < k ∧ occupied s j ∧
              slot_file (slot s j) = slot_file (slot s k))))
    end.
Proof.
  intros Hlen.
  destruct (fclose_all_from_spec MAX_SLOTS 0 s) as (k & Hk & H); [lia|].
  exists k. split; [lia|]. unfold utl_file_fclose_all.
  destruct (fclose_all_from MAX_SLOTS 0 s) as [r s'].
  destruct H as (Hid & Hl & Hdir & _ & _ & Hmid & Hhi & Hr).
  split; [done|]. split; [done|]. split; [done|]. split; [|split; [done|]].
  - intros i Hi. apply Hmid. lia.
  - destruct r as [|e]; [lia|].
    destruct Hr as (? & ? & ? & _ & He).
    split; [lia|]. split; [done|]. split; [done|].
    destruct He as [?|(-> & [?|(j & ? & ? & ?)])]; [by left|right..].
    + split; [done|by left].
    + split; [done|]. right. exists j. split; [lia|done].
Qed.


(** ** Opening *)

Lemma table_full_check s :
  length (slots s) = MAX_SLOTS →
  forallb (λ x, negb (slot_id x =? INVALID_SLOTID)%Z) (slots s) = true →
  table_full s.
Proof.
  intros Hlen Hall i Hi. unfold occupied, slot.
  rewrite forallb_forall in Hall.
  assert (Hin : In (slots s !!! i) (slots s)).
  { apply list_elem_of_In, list_elem_of_lookup_total_2. lia. }
  specialize (Hall _ Hin). apply negb_true_iff, Z.eqb_neq in Hall. done.
Qed.

Lemma fopen_streams path mode w file w1 :
  fopen path mode w = (inr file, w1) →
  file = next_file w ∧
  ∃ st, streams w1 = <[file := st]> (streams w).
Proof.
  unfold fopen. intros H.
  repeat (case_match; simplify_eq/=); eauto.
Qed.

(** C2: when all 50 slots are occupied, a call of [utl_file_fopen] that
    passes validation and opens its stream raises PROGRAM_LIMIT_EXCEEDED;
    the stream it has just opened is closed first, so at the raise it is no
    longer among the open streams, every other stream is as before the
    call, and the handle table is unchanged.  No call of [utl_file_fopen]
    returns a handle while the table is full. *)
Theorem fopen_table_full_closes_stream
  location filename open_mode max_linesize letter mode fullname file w1 s :
  table_full s →
  (1 ≤ max_linesize ≤ MAX_LINESIZE)%Z →
  open_mode = [letter] →
  mode_of_letter letter = Some mode →
  fst (get_safe_path location filename s) = Ok fullname →
  fopen fullname mode (os s) = (inr file, w1) →
  let '(r, s') := utl_file_fopen (Some location) (Some filename)
                                 (Some open_mode) (Some max_linesize) s in
  r = Raise PROGRAM_LIMIT_EXCEEDED ∧
  same_table s s' ∧
  is_Some (streams w1 !! file) ∧
  os s' = snd (fclose file w1) ∧
  streams (os s') !! file = None ∧
  (∀ f, f ≠ file → streams (os s') !! f = streams (os s) !! f) ∧
  ∀ arg0 arg1 arg2 arg3,
    is_raise (fst (utl_file_fopen arg0 arg1 arg2 arg3 s)) = true.
Proof.
  intros Hfull Hsize -> Hmode Hpath Hopen.
  assert (Hnone : ∀ arg0 arg1 arg2 arg3,
            is_raise (fst (utl_file_fopen arg0 arg1 arg2 arg3 s)) = true).
  { intros arg0 arg1 arg2 arg3.
    pose proof (fopen_table arg0 arg1 arg2 arg3 s) as H.
    destruct (utl_file_fopen arg0 arg1 arg2 arg3 s) as [[d|e] s']; [|done].
    destruct H as (f & m & w & Hd & _ & Hnz).
    rewrite get_descriptor_full in Hd by done. by simplify_eq. }
  unfold utl_file_fopen.
  unfold bind at 1 2 3 4; simpl.
  unfold NON_EMPTY_TEXT, CHECK_LINESIZE, when, bind at 1 2 3; simpl.
  replace ((max_linesize <? 1)%Z || (max_linesize >? MAX_LINESIZE)%Z)
    with false by (symmetry; apply orb_false_iff; lia).
  simpl. rewrite Hmode. unfold bind at 1.
  pose proof (get_safe_path_session location filename s) as Hs.
  destruct (get_safe_path location filename s) as [r0 s0].
  simpl in Hpath, Hs. subst r0 s0.
  unfold bind at 1, sys at 1. rewrite Hopen.
  rewrite get_descriptor_full by done. simpl.
  unfold bind, sys; simpl.
  apply fopen_streams in Hopen as (Hfile & st & Hst).
  pose proof (fclose_streams file w1) as [Hdel _].
  destruct (fclose file w1) as [errno w2]; simpl in *.
  split; [done|]. split; [done|]. split; [|split; [done|split; [|split]]].
  - rewrite Hst, lookup_insert_eq. by eexists.
  - rewrite Hdel. apply lookup_delete_eq.
  - intros f Hf. rewrite Hdel, Hst.
    rewrite lookup_delete_ne by done. by rewrite lookup_insert_ne.
  - exact Hnone.
Qed.

(** ** Ids *)

Lemma uint32_next c :
  (- 2 ^ 31 ≤ c < 2 ^ 31)%Z → (uint32 c < 2 ^ 32 - 1)%Z →
  next_slotid c = int32_wrap (c + 1) ∧
  uint32 (next_slotid c) = (uint32 c + 1)%Z.
Proof.
  intros Hc Hu. unfold uint32 in *.
  assert (Hw : (int32_wrap (c + 1) mod 2 ^ 32 = c mod 2 ^ 32 + 1)%Z).
  { unfold int32_wrap. rewrite Zminus_mod_idemp_l.
    replace (c + 1 + 2 ^ 31 - 2 ^ 31)%Z with (c + 1)%Z by lia.
    rewrite <- Zplus_mod_idemp_l. apply Z.mod_small.
    pose proof (Z.mod_pos_bound c (2 ^ 32)). lia. }
  assert (Hn : next_slotid c = int32_wrap (c + 1)).
  { unfold next_slotid, INVALID_SLOTID.
    destruct (Z.eqb_spec (int32_wrap (c + 1)) 0) as [E|E]; [|done].
    rewrite E in Hw. rewrite Z.mod_0_l in Hw by lia.
    pose proof (Z.mod_pos_bound c (2 ^ 32)). lia. }
  by rewrite Hn.
Qed.

Lemma uint32_cases a :
  (- 2 ^ 31 ≤ a < 2 ^ 31)%Z →
  (0 ≤ a ∧ uint32 a = a)%Z ∨ (a < 0 ∧ uint32 a = a + 2 ^ 32)%Z.
Proof.
  intros Ha. unfold uint32. destruct (Z_lt_le_dec a 0).
  - right. split; [done|].
    rewrite <- (Z_mod_plus_full a 1 (2 ^ 32)). apply Z.mod_small. lia.
  - left. split; [done|]. apply Z.mod_small. lia.
Qed.

Lemma uint32_inj a b :
  (- 2 ^ 31 ≤ a < 2 ^ 31)%Z → (- 2 ^ 31 ≤ b < 2 ^ 31)%Z →
  uint32 a = uint32 b → a = b.
Proof.
  intros Ha Hb.
  destruct (uint32_cases a Ha) as [[? ->]|[? ->]],
    (uint32_cases b Hb) as [[? ->]|[? ->]]; lia.
Qed.

Lemma table_inv_initial w : table_inv 0 (initial_session w).
Proof.
  assert (Hz : ∀ i, i < MAX_SLOTS → slot (initial_session w) i = zero_slot).
  { intros i Hi. change (replicate MAX_SLOTS zero_slot !!! i = zero_slot).
    by apply lookup_total_replicate_2. }
  split_and!; try done.
  - intros i Hi Ho. unfold occupied in Ho. by rewrite Hz in Ho.
  - intros i j Hi Hj Ho. unfold occupied in Ho. by rewrite Hz in Ho.
Qed.

Lemma table_inv_mono n n' s : (n ≤ n')%Z → table_inv n s → table_inv n' s.
Proof. intros Hn (?&?&?&?&?). split; [done|]. split; [done|]. split; [lia|done]. Qed.

Lemma released_same_table s s' : same_table s s' → released s s'.
Proof.
  intros [Hsl Hid]. split_and!; [by rewrite Hsl|done|].
  intros i _. left. unfold slot. by rewrite Hsl.
Qed.

Lemma table_inv_released n s s' : released s s' → table_inv n s → table_inv n s'.
Proof.
  intros (Hlen & Hid & Hsl) (Hl & Hr & Hn & Hocc & Huniq).
  assert (Hkeep : ∀ i, i < MAX_SLOTS → occupied s' i →
            slot s' i = slot s i ∧ occupied s i).
  { intros i Hi Ho. destruct (Hsl i Hi) as [E|E]; [|done].
    split; [done|]. unfold occupied in *. by rewrite <- E. }
  split; [by rewrite Hlen|]. split; [by rewrite Hid|].
  split; [by rewrite Hid|]. split.
  - intros i Hi Ho. destruct (Hkeep i Hi Ho) as [E Ho'].
    rewrite E, Hid. by apply Hocc.
  - intros i j Hi Hj Ho Heq. destruct (Hkeep i Hi Ho) as [Ei Hoi].
    assert (Hoj : occupied s' j) by (unfold occupied in *; by rewrite <- Heq).
    destruct (Hkeep j Hj Hoj) as [Ej _].
    apply Huniq; [done..|]. by rewrite <- Ei, <- Ej.
Qed.

(** A fresh id keeps the occupied ids distinct while the counter has not
    gone all the way round. *)
Lemma table_inv_get_descriptor n file max_linesize s d s' :
  table_inv n s → (n < 2 ^ 32 - 1)%Z →
  get_descriptor file max_linesize s = (d, s') →
  table_inv (n + 1) s'.
Proof.
  intros (Hl & Hr & Hn & Hocc & Huniq) Hlt.
  unfold get_descriptor. rewrite get_descriptor_from_find.
  destruct (find_slot_from MAX_SLOTS 0 INVALID_SLOTID s) as [k|] eqn:Hk;
    intros [= <- <-];
    [|split; [done|]; split; [done|]; split; [lia|done]].
  apply find_slot_from_Some in Hk as (Hk & Hfree & _).
  destruct (uint32_next (slotid s)) as [Hnext Hu]; [done|lia|].
  pose proof (next_slotid_range (slotid s)) as Hnr.
  set (x := {| slot_file := file; slot_max_linesize := max_linesize;
               slot_id := next_slotid (slotid s) |}).
  set (s' := {| slots := <[k:=x]> (slots s); slotid := next_slotid (slotid s);
                os := os s |}).
  assert (Hsk : slot s' k = x).
  { unfold slot, s'; simpl. apply list_lookup_total_insert_eq. lia. }
  assert (Hso : ∀ i, i ≠ k → slot s' i = slot s i).
  { intros i ?. unfold slot, s'; simpl. by apply list_lookup_total_insert_ne. }
  assert (Hold : ∀ i, i < MAX_SLOTS → i ≠ k → occupied s' i →
            slot_id (slot s' i) ≠ next_slotid (slotid s)).
  { intros i Hi Hik Ho E. unfold occupied in Ho. rewrite Hso in Ho, E by done.
    destruct (Hocc i Hi Ho) as [_ Hle]. rewrite E, Hu in Hle. lia. }
  split; [unfold s'; simpl; by rewrite length_insert|].
  split; [done|]. split; [simpl; lia|]. split.
  - intros i Hi Ho. destruct (decide (i = k)) as [->|Hik].
    + rewrite Hsk. simpl. split; [done|lia].
    + unfold occupied in Ho. rewrite Hso in * by done.
      destruct (Hocc i Hi Ho) as [? Hle]. split; [done|]. simpl. lia.
  - intros i j Hi Hj Ho Heq.
    destruct (decide (i = k)) as [->|Hik], (decide (j = k)) as [->|Hjk]; [done|..].
    + exfalso. apply (Hold j Hj Hjk).
      * unfold occupied in *. by rewrite <- Heq.
      * rewrite <- Heq, Hsk. done.
    + exfalso. apply (Hold i Hi Hik Ho). rewrite Heq, Hsk. done.
    + unfold occupied in Ho. rewrite !Hso in * by done. by apply Huniq.
Qed.

(** ** One call *)

Lemma keeps_table_get_line_call arg0 arg1 : keeps_table (utl_file_get_line arg0 arg1).
Proof. unfold utl_file_get_line, CHECK_LINESIZE. keeps. Qed.

Lemma keeps_table_get_nextline arg0 : keeps_table (utl_file_get_nextline arg0).
Proof. unfold utl_file_get_nextline. keeps. Qed.

Lemma keeps_table_put arg0 arg1 : keeps_table (utl_file_put arg0 arg1).
Proof. unfold utl_file_put. keeps. Qed.

Lemma keeps_table_put_line arg0 arg1 arg2 :
  keeps_table (utl_file_put_line arg0 arg1 arg2).
Proof. unfold utl_file_put_line. keeps. Qed.

Lemma keeps_table_new_line arg0 arg1 : keeps_table (utl_file_new_line arg0 arg1).
Proof. unfold utl_file_new_line. keeps. Qed.

Lemma keeps_table_putf arg0 arg1 args : keeps_table (utl_file_putf arg0 arg1 args).
Proof. unfold utl_file_putf. keeps. Qed.

Lemma keeps_table_fflush arg0 : keeps_table (utl_file_fflush arg0).
Proof. unfold utl_file_fflush. keeps. Qed.

Lemma keeps_table_fremove arg0 arg1 : keeps_table (utl_file_fremove arg0 arg1).
Proof. unfold utl_file_fremove. keeps. Qed.

Lemma keeps_table_frename arg0 arg1 arg2 arg3 arg4 :
  keeps_table (utl_file_frename arg0 arg1 arg2 arg3 arg4).
Proof. unfold utl_file_frename. keeps. Qed.

Lemma keeps_table_tmpdir : keeps_table utl_file_tmpdir.
Proof. intros s. done. Qed.

Lemma keeps_table_fmap_M {A B} (g : A → B) m :
  keeps_table m → keeps_table (fmap_M g m).
Proof. intros H. unfold fmap_M. keeps. Qed.

Lemma fmap_M_snd {A B} (g : A → B) m s : snd (fmap_M g m s) = snd (m s).
Proof. unfold fmap_M, bind, ret. by destruct (m s) as [[?|?] ?]. Qed.

Lemma fmap_M_is_raise {A B} (g : A → B) m s :
  is_raise (fst (fmap_M g m s)) = is_raise (fst (m s)).
Proof. unfold fmap_M, bind, ret. by destruct (m s) as [[?|?] ?]. Qed.

Lemma released_undamaged s s' : undamaged s s' → released s s'.
Proof. intros [H _]. by apply released_same_table. Qed.

(** What [utl_file_fclose] does to the table: nothing when it raises, one
    slot cleared when it returns. *)
Lemma fclose_table d s :
  match utl_file_fclose d s with
  | (Raise _, s') => undamaged s s'
  | (Ok _, s') => released s s' ∧ same_dirs s s'
  end.
Proof.
  unfold utl_file_fclose. destruct (find_slot d s) as [i|]; [|done].
  destruct (close_slot_cases i s)
    as [(w & -> & Hwd & _)|(w & errno & -> & Hwd & _)]; [|done].
  split; [|done]. split_and!.
  - unfold set_slot; simpl. by rewrite length_insert.
  - done.
  - intros j _. destruct (decide (j = i)) as [->|Hne].
    + destruct (decide (i < length (slots s))) as [Hi|Hi].
      * right. unfold occupied. rewrite slot_set_slot_eq by done. simpl.
        intros H; by apply H.
      * left. unfold slot, set_slot; simpl. rewrite list_insert_ge; [done|lia].
    + left. by rewrite slot_set_slot_ne.
Qed.

Lemma fclose_all_table s :
  length (slots s) = MAX_SLOTS →
  released s (snd (utl_file_fclose_all s)) ∧
  same_dirs s (snd (utl_file_fclose_all s)).
Proof.
  intros Hlen.
  destruct (fclose_all_spec s Hlen) as (k & Hk & H).
  destruct (utl_file_fclose_all s) as [r s']; simpl.
  destruct H as (Hid & Hl & Hdir & Hrec & Hun & _).
  split; [|done]. split; [done|]. split; [done|].
  intros i Hi. destruct (decide (i < k)) as [Hik|Hik].
  - destruct (Hrec i Hik) as [E _].
    destruct (decide (occupied s i)); [right|by left].
    unfold occupied. rewrite E. simpl. intros H; by apply H.
  - left. apply Hun. lia.
Qed.

(** Every call either releases slots (or leaves the table alone), or it is
    a successful [utl_file_fopen] and the table is what [get_descriptor]
    made of it. *)
Lemma run_table c s :
  length (slots s) = MAX_SLOTS →
  same_dirs s (snd (run c s)) ∧
  (released s (snd (run c s)) ∨
   (is_fopen c = true ∧ ∃ file max_linesize w d,
      get_descriptor file max_linesize (set_os w s) = (d, snd (run c s)))).
Proof.
  intros Hlen.
  assert (Hk : ∀ A (m : M A) P, keeps_table m →
            same_dirs s (snd (m s)) ∧ (released s (snd (m s)) ∨ P)).
  { intros A m P Hm. destruct (Hm s) as [? ?]. split; [done|].
    left. by apply released_same_table. }
  destruct c; cbn [run]; rewrite fmap_M_snd.
  - pose proof (fopen_table location filename open_mode max_linesize s) as H.
    destruct (utl_file_fopen _ _ _ _ s) as [[d|e] s']; simpl.
    + destruct H as (f & m & w & Hd & Hw & _). split.
      * unfold get_descriptor in Hd. rewrite get_descriptor_from_find in Hd.
        red. destruct (find_slot_from _ _ _ _); simplify_eq/=; done.
      * right. split; [done|]. by exists f, m, w, d.
    + destruct H. split; [done|]. left. by apply released_same_table.
  - apply Hk, keeps_table_is_open.
  - apply Hk, keeps_table_get_line_call.
  - apply Hk, keeps_table_get_nextline.
  - apply Hk, keeps_table_put.
  - apply Hk, keeps_table_put_line.
  - apply Hk, keeps_table_new_line.
  - apply Hk, keeps_table_putf.
  - apply Hk, keeps_table_fflush.
  - pose proof (fclose_table file s) as H.
    destruct (utl_file_fclose file s) as [[?|?] s']; simpl.
    + destruct H. split; [done|by left].
    + destruct H. split; [done|]. left. by apply released_same_table.
  - destruct (fclose_all_table s Hlen). split; [done|by left].
  - apply Hk, keeps_table_fremove.
  - apply Hk, keeps_table_frename.
  - apply Hk, keeps_table_fgetattr.
  - apply Hk, keeps_table_tmpdir.
Qed.

Lemma table_inv_same_table n s s' :
  same_table s s' → table_inv n s → table_inv n s'.
Proof. intros H. apply table_inv_released. by apply released_same_table. Qed.

Lemma table_inv_run c n s :
  table_inv n s →
  (n + (if is_fopen c then 1 else 0) < 2 ^ 32)%Z →
  table_inv (n + (if is_fopen c then 1 else 0)) (snd (run c s)).
Proof.
  intros Hinv Hn.
  destruct (run_table c s) as [_ [Hrel|(Hc & f & m & w & d & Hd)]].
  { by destruct Hinv. }
  - eapply table_inv_mono; [|by eapply table_inv_released].
    destruct (is_fopen c); lia.
  - rewrite Hc in *. eapply table_inv_get_descriptor; [|lia|exact Hd].
    by eapply table_inv_same_table; [|exact Hinv].
Qed.

Lemma fopen_calls_nonneg cs : (0 ≤ fopen_calls cs)%Z.
Proof. induction cs as [|c cs IH]; simpl; [done|]. destruct (is_fopen c); lia. Qed.

Lemma table_inv_run_all cs n s :
  table_inv n s →
  (n + fopen_calls cs < 2 ^ 32)%Z →
  table_inv (n + fopen_calls cs) (run_all cs s).
Proof.
  revert n s. induction cs as [|c cs IH]; intros n s Hinv Hn; simpl in *.
  { by rewrite Z.add_0_r. }
  pose proof (fopen_calls_nonneg cs).
  rewrite Z.add_assoc. apply IH; [|lia].
  apply table_inv_run; [done|]. destruct (is_fopen c); lia.
Qed.

Lemma find_slot_from_slots n i d s s' :
  slots s' = slots s → find_slot_from n i d s' = find_slot_from n i d s.
Proof.
  intros E. revert i. induction n as [|n IH]; intros i; simpl; [done|].
  unfold slot. rewrite E. by rewrite IH.
Qed.

Lemma get_stream_same_table d s s' :
  same_table s s' → fst (get_stream d s') = fst (get_stream d s).
Proof.
  intros [E _]. unfold get_stream. case_match; [done|].
  unfold find_slot. rewrite (find_slot_from_slots _ _ _ s s' E).
  unfold slot. rewrite E. by case_match.
Qed.


(** ** Calls that succeed *)

Lemma find_slot_first d k s :
  k < MAX_SLOTS → slot_id (slot s k) = d →
  (∀ j, j < k → slot_id (slot s j) ≠ d) →
  find_slot d s = Some k.
Proof.
  intros Hk Hd Hlt. unfold find_slot.
  destruct (find_slot_from MAX_SLOTS 0 d s) as [k'|] eqn:E.
  - apply find_slot_from_Some in E as (Hk' & Hd' & Hlt').
    f_equal. destruct (Nat.lt_trichotomy k' k) as [?|[?|?]]; [|done|].
    + by destruct (Hlt k').
    + destruct (Hlt' k); [lia|done].
  - destruct (find_slot_from_None _ _ _ _ E k); [lia|done].
Qed.

Lemma utl_file_fopen_ok
  location filename open_mode max_linesize letter mode fullname file w1 k s :
  (1 ≤ max_linesize ≤ MAX_LINESIZE)%Z →
  open_mode = [letter] →
  mode_of_letter letter = Some mode →
  fst (get_safe_path location filename s) = Ok fullname →
  fopen fullname mode (os s) = (inr file, w1) →
  find_slot INVALID_SLOTID s = Some k →
  utl_file_fopen (Some location) (Some filename) (Some open_mode)
                 (Some max_linesize) s
  = (Ok (next_slotid (slotid s)),
     {| slots := <[k := {| slot_file := file; slot_max_linesize := max_linesize;
                           slot_id := next_slotid (slotid s) |}]> (slots s);
        slotid := next_slotid (slotid s); os := w1 |}).
Proof.
  intros Hsize -> Hmode Hpath Hopen Hfree.
  unfold utl_file_fopen.
  unfold bind at 1 2 3 4; simpl.
  unfold NON_EMPTY_TEXT, CHECK_LINESIZE, when, bind at 1 2 3; simpl.
  replace ((max_linesize <? 1)%Z || (max_linesize >? MAX_LINESIZE)%Z)
    with false by (symmetry; apply orb_false_iff; lia).
  simpl. rewrite Hmode. unfold bind at 1.
  pose proof (get_safe_path_session location filename s) as Hs.
  destruct (get_safe_path location filename s) as [r0 s0].
  simpl in Hpath, Hs. subst r0 s0.
  unfold bind at 1, sys at 1. rewrite Hopen.
  unfold get_descriptor. rewrite get_descriptor_from_find.
  change (find_slot_from MAX_SLOTS 0 INVALID_SLOTID (set_os w1 s))
    with (find_slot INVALID_SLOTID s).
  rewrite Hfree. simpl.
  destruct (Z.eqb_spec (next_slotid (slotid s)) INVALID_SLOTID) as [E|_]; [|done].
  by destruct (next_slotid_nonzero (slotid s)).
Qed.

Lemma utl_file_fclose_ok d k st s :
  find_slot d s = Some k →
  slot_file (slot s k) ≠ NULL →
  streams (os s) !! slot_file (slot s k) = Some st →
  s_close_errno st = 0%Z →
  utl_file_fclose d s
  = (Ok tt,
     set_slot k (cleared (slot s k))
       (set_os (set_streams (delete (slot_file (slot s k)) (streams (os s)))
                            (os s)) s)).
Proof.
  intros Hfind Hnn Hst Hok. unfold utl_file_fclose. rewrite Hfind.
  unfold close_slot.
  destruct (N.eqb_spec (slot_file (slot s k)) NULL) as [?|_]; [done|].
  unfold fclose. rewrite Hst, Hok. done.
Qed.

Lemma int32_wrap_cases z :
  (0 ≤ z < 2 ^ 32)%Z →
  int32_wrap z = (if (z <? 2 ^ 31)%Z then z else z - 2 ^ 32)%Z.
Proof.
  intros Hz. unfold int32_wrap. destruct (Z.ltb_spec z (2 ^ 31)).
  - rewrite Z.mod_small; lia.
  - rewrite <- (Z_mod_plus_full _ (-1)). rewrite Z.mod_small; lia.
Qed.

Lemma next_slotid_no_wrap c :
  (- 2 ^ 31 ≤ c < 2 ^ 31)%Z → c ≠ (-1)%Z →
  next_slotid c = int32_wrap (c + 1).
Proof.
  intros Hc Hne. unfold next_slotid, INVALID_SLOTID.
  destruct (Z.eqb_spec (int32_wrap (c + 1)) 0) as [E|E]; [|done].
  exfalso. unfold int32_wrap in E.
  destruct (Z_lt_le_dec (c + 1) (2 ^ 31)).
  - rewrite Z.mod_small in E; lia.
  - rewrite <- (Z_mod_plus_full _ (-1)) in E. rewrite Z.mod_small in E; lia.
Qed.

Lemma run_all_app cs1 cs2 s :
  run_all (cs1 ++ cs2) s = run_all cs2 (run_all cs1 s).
Proof. revert s. induction cs1 as [|c cs1 IH]; intros s; simpl; [done|apply IH]. Qed.

Lemma reachable_run c s : reachable s → reachable (snd (run c s)).
Proof.
  intros (w & cs & ->). exists w, (cs ++ [c]). by rewrite run_all_app.
Qed.

(** ** The sandbox *)

Lemma locality_row_prefix path dir :
  locality_row path dir = true ↔ under_prefix path dir.
Proof.
  unfold locality_row, substring1, under_prefix.
  rewrite bool_decide_eq_true. split.
  - intros E. exists (drop (length dir + 1) path).
    rewrite <- E. by rewrite take_drop.
  - intros [k ->].
    replace (length dir + 1) with (length (dir ++ cstr "/"))
      by (rewrite length_app; reflexivity).
    by rewrite take_app_length.
Qed.

Lemma SPI_processed_zero path dirs :
  SPI_processed path dirs = 0 ↔ ¬ allowed dirs path.
Proof.
  unfold SPI_processed, allowed. induction dirs as [|dir dirs IH].
  { split; [|done]. intros _ (dir & Hin & _). by apply elem_of_nil in Hin. }
  rewrite filter_cons. destruct (decide (locality_row path dir = true)) as [E|E].
  - split; [done|]. intros H. destruct H. exists dir.
    split; [apply list_elem_of_here|by apply locality_row_prefix].
  - rewrite IH. split.
    + intros H (d & Hin & Hp). apply elem_of_cons in Hin as [->|Hin].
      * by apply locality_row_prefix in Hp.
      * apply H. by exists d.
    + intros H (d & Hin & Hp). apply H. exists d.
      split; [by apply list_elem_of_further|done].
Qed.

Lemma classic_allowed dirs path : allowed dirs path ∨ ¬ allowed dirs path.
Proof.
  induction dirs as [|dir dirs IH].
  { right. intros (dir & Hin & _). by apply elem_of_nil in Hin. }
  destruct (decide (locality_row path dir = true)) as [E|E].
  { left. exists dir. split; [apply list_elem_of_here|by apply locality_row_prefix]. }
  destruct IH as [(d & Hin & Hp)|Hno].
  - left. exists d. split; [by apply list_elem_of_further|done].
  - right. intros (d & Hin & Hp). apply elem_of_cons in Hin as [->|Hin].
    + by apply locality_row_prefix in Hp.
    + apply Hno. by exists d.
Qed.

Lemma check_secure_locality_spec path dirs s :
  utl_file_dir (os s) = Some dirs →
  (path = regress_path → check_secure_locality path s = (Ok tt, s)) ∧
  (path ≠ regress_path → allowed dirs path →
   check_secure_locality path s = (Ok tt, s)) ∧
  (path ≠ regress_path → ¬ allowed dirs path →
   check_secure_locality path s = (Raise (RAISE_EXCEPTION INVALID_PATH), s)).
Proof.
  intros Hdirs. unfold check_secure_locality. fold regress_path.
  split; [|split].
  - intros ->. by rewrite bool_decide_eq_true_2.
  - intros Hne Hal. rewrite bool_decide_eq_false_2 by done. rewrite Hdirs.
    destruct (Nat.eqb_spec (SPI_processed path dirs) 0) as [E|E]; [|done].
    by apply SPI_processed_zero in E.
  - intros Hne Hal. rewrite bool_decide_eq_false_2 by done. rewrite Hdirs.
    destruct (Nat.eqb_spec (SPI_processed path dirs) 0) as [E|E]; [done|].
    destruct E. by apply SPI_processed_zero.
Qed.

(** C1 (amended): for a non-empty directory and a non-empty filename (an
    empty one is refused before with the invalid-parameter error), the
    concatenated and canonicalized path is accepted if and only if it
    starts with a registered directory immediately followed by a
    separator, so that [/tmp/allowed] does not match [/tmp/allowed_evil];
    when no registered directory matches, resolution raises INVALID_PATH.
    One path is the exception: [/tmp/regress_orafce] is accepted whatever
    the table holds. *)
Theorem get_safe_path_sandbox location filename dirs s :
  utl_file_dir (os s) = Some dirs →
  let path := canonicalize_path (location ++ cstr "/" ++ filename) in
  (location = [] ∨ filename = [] →
   get_safe_path location filename s = (Raise INVALID_PARAMETER_VALUE, s)) ∧
  (location ≠ [] → filename ≠ [] → path ≠ regress_path →
   (allowed dirs path → get_safe_path location filename s = (Ok path, s)) ∧
   (¬ allowed dirs path →
    get_safe_path location filename s
    = (Raise (RAISE_EXCEPTION INVALID_PATH), s)) ∧
   (fst (get_safe_path location filename s) = Ok path ↔ allowed dirs path)) ∧
  (location ≠ [] → filename ≠ [] → path = regress_path →
   get_safe_path location filename s = (Ok path, s)) ∧
  ¬ under_prefix (cstr "/tmp/allowed_evil/x") (cstr "/tmp/allowed").
Proof.
  intros Hdirs path.
  assert (Hgo : location ≠ [] → filename ≠ [] →
            get_safe_path location filename s
            = (let (r, s1) := check_secure_locality path s in
               (match r with Ok _ => Ok path | Raise e => Raise e end, s1))).
  { intros Hl Hf. unfold get_safe_path, NON_EMPTY_TEXT, when, bind, ret.
    destruct location; [done|]. destruct filename; [done|].
    cbn [length Nat.eqb]. fold path.
    by destruct (check_secure_locality path s) as [[[]|e] s1]. }
  destruct (check_secure_locality_spec path dirs s Hdirs) as (Hreg & Hin & Hout).
  split; [|split; [|split]].
  - unfold get_safe_path, NON_EMPTY_TEXT, when, bind, raise.
    intros [->| ->]; [done|]. by destruct location.
  - intros Hl Hf Hne. rewrite (Hgo Hl Hf).
    split; [|split].
    + intros Hal. by rewrite (Hin Hne Hal).
    + intros Hal. by rewrite (Hout Hne Hal).
    + destruct (classic_allowed dirs path) as [Hal|Hal].
      * rewrite (Hin Hne Hal). done.
      * rewrite (Hout Hne Hal). simpl. split; [done|]. by intros ?.
  - intros Hl Hf Heq. rewrite (Hgo Hl Hf). by rewrite (Hreg Heq).
  - intros [k Hk]. discriminate Hk.
Qed.

(** ** The open mode *)

Lemma mode_of_letter_is_Some c :
  is_Some (mode_of_letter c) ↔ c ∈ [ "r"; "R"; "w"; "W"; "a"; "A" ]%char.
Proof.
  split.
  - intros [mode Hm]. unfold mode_of_letter in Hm. rewrite !elem_of_cons.
    repeat (case_bool_decide; [subst c; tauto|]). discriminate Hm.
  - rewrite !elem_of_cons, elem_of_nil.
    intros [->|[->|[->|[->|[->|[->|[]]]]]]]; by eexists.
Qed.

(** Once the mode letter is accepted, INVALID_MODE cannot be raised. *)
Lemma fopen_accepted_mode location filename c mode max_linesize s :
  mode_of_letter c = Some mode →
  fst (utl_file_fopen (Some location) (Some filename) (Some [c])
                      (Some max_linesize) s)
  ≠ Raise (RAISE_EXCEPTION INVALID_MODE).
Proof.
  intros Hmode. unfold utl_file_fopen.
  unfold bind at 1 2 3 4; simpl.
  unfold NON_EMPTY_TEXT, CHECK_LINESIZE, when, bind at 1 2 3; simpl.
  destruct (_ || _); [done|]. simpl. rewrite Hmode. unfold bind at 1.
  pose proof (get_safe_path_session location filename s) as Hs.
  destruct (get_safe_path location filename s) as [[fullname|e] s0] eqn:Hp;
    simpl in Hs; subst s0.
  2:{ simpl. intros [= ->]. revert Hp.
      unfold get_safe_path, NON_EMPTY_TEXT, check_secure_locality, when, bind,
        ret, raise.
      repeat (case_match; simplify_eq/=; try done). }
  unfold bind, sys.
  destruct (fopen fullname mode (os s)) as [[errno|file] w].
  { destruct (IO_EXCEPTION_raises (A:=Z) errno (set_os w s)) as (e & -> & [-> | ->]);
      simpl; done. }
  destruct (get_descriptor file max_linesize (set_os w s)) as [d s1].
  destruct (d =? INVALID_SLOTID)%Z; [|done].
  destruct (fclose file (os s1)); done.
Qed.

(** C10 (amended): with a valid [max_linesize], [utl_file_fopen] takes each
    of the one-letter modes r, R, w, W, a, A (a lowercase letter exactly
    like its uppercase one) and goes on to resolve the path; any other
    one-letter mode and any mode of two or more letters raises
    INVALID_MODE.  The empty mode is refused before that, with the
    invalid-parameter error of an empty string. *)
Theorem fopen_mode_letters location filename open_mode max_linesize s :
  (1 ≤ max_linesize ≤ MAX_LINESIZE)%Z →
  let open m :=
    utl_file_fopen (Some location) (Some filename) (Some m)
                   (Some max_linesize) s in
  (open_mode = [] → open open_mode = (Raise INVALID_PARAMETER_VALUE, s)) ∧
  (2 ≤ length open_mode →
   open open_mode = (Raise (RAISE_EXCEPTION INVALID_MODE), s)) ∧
  (∀ c, open_mode = [c] →
     c ∉ [ "r"; "R"; "w"; "W"; "a"; "A" ]%char →
     open open_mode = (Raise (RAISE_EXCEPTION INVALID_MODE), s)) ∧
  (∀ c, open_mode = [c] →
     c ∈ [ "r"; "R"; "w"; "W"; "a"; "A" ]%char →
     fst (open open_mode) ≠ Raise (RAISE_EXCEPTION INVALID_MODE)) ∧
  open (cstr "r") = open (cstr "R") ∧
  open (cstr "w") = open (cstr "W") ∧
  open (cstr "a") = open (cstr "A").
Proof.
  intros Hsize open.
  assert (Hls : ((max_linesize <? 1)%Z || (max_linesize >? MAX_LINESIZE)%Z)
                = false) by (apply orb_false_iff; lia).
  assert (Hone : ∀ c, open [c] =
            match mode_of_letter c with
            | None => (Raise (RAISE_EXCEPTION INVALID_MODE), s)
            | Some mode =>
              (let* fullname := get_safe_path location filename in
               let* opened := sys (fopen fullname mode) in
               match opened with
               | inl errno => IO_EXCEPTION errno
               | inr file =>
                 λ s,
                   let (d, s1) := get_descriptor file max_linesize s in
                   if (d =? INVALID_SLOTID)%Z then
                     (sys (fclose file) ;;; raise PROGRAM_LIMIT_EXCEEDED) s1
                   else (Ok d, s1)
               end) s
            end).
  { intros c. unfold open, utl_file_fopen.
    unfold bind at 1 2 3 4; simpl.
    unfold NON_EMPTY_TEXT, CHECK_LINESIZE, when, bind at 1 2 3; simpl.
    rewrite Hls. simpl. by destruct (mode_of_letter c). }
  split; [|split; [|split; [|split]]].
  - intros ->. done.
  - intros Hlen. unfold open, utl_file_fopen.
    unfold bind at 1 2 3 4; simpl.
    unfold NON_EMPTY_TEXT, CHECK_LINESIZE, when, bind at 1 2 3; simpl.
    destruct open_mode as [|c0 [|c1 rest]]; simpl in Hlen; [lia..|].
    simpl. rewrite Hls. done.
  - intros c -> Hc. rewrite Hone.
    destruct (mode_of_letter c) as [mode|] eqn:E; [|done].
    destruct Hc. apply mode_of_letter_is_Some. by exists mode.
  - intros c -> Hc.
    apply mode_of_letter_is_Some in Hc as [mode Hm].
    by eapply fopen_accepted_mode.
  - split; [|split]; (etrans; [refine (Hone _)|]);
      (etrans; [|symmetry; refine (Hone _)]); reflexivity.
Qed.

(** ** Renaming *)

Lemma IO_EXCEPTION_eq {A} errno s :
  IO_EXCEPTION (A:=A) errno s = (Raise (io_error errno), s).
Proof. unfold IO_EXCEPTION, io_error, CUSTOM_EXCEPTION, raise. by case_match. Qed.

Lemma set_os_id s : set_os (os s) s = s.
Proof. by destruct s. Qed.

Lemma get_safe_path_Ok location filename s path :
  fst (get_safe_path location filename s) = Ok path →
  get_safe_path location filename s = (Ok path, s).
Proof.
  intros H. pose proof (get_safe_path_session location filename s) as Hs.
  destruct (get_safe_path location filename s); simpl in *. congruence.
Qed.

(** C9: with [overwrite] false or absent, [utl_file_frename] first asks
    [stat] for the destination: when it is there the call raises
    WRITE_ERROR and [rename] is never called; when [stat] fails for a
    reason other than ENOENT the call raises what [IO_EXCEPTION] makes of
    that [errno], which is never WRITE_ERROR; only on ENOENT does it go on
    to [rename].  With [overwrite] true there is no such check: the result
    is that of [rename], which puts the source in the place of an existing
    destination. *)
Theorem frename_overwrite_protection
  src_location src_filename dst_location dst_filename overwrite
  srcpath dstpath s :
  fst (get_safe_path src_location src_filename s) = Ok srcpath →
  fst (get_safe_path dst_location dst_filename s) = Ok dstpath →
  let r := utl_file_frename (Some src_location) (Some src_filename)
             (Some dst_location) (Some dst_filename) overwrite s in
  (overwrite ≠ Some true →
   (stat dstpath (os s) = None →
    r = (Raise (RAISE_EXCEPTION WRITE_ERROR), s)) ∧
   (∀ errno, stat dstpath (os s) = Some errno → errno ≠ ENOENT →
      r = (Raise (io_error errno), s) ∧
      io_error errno ≠ RAISE_EXCEPTION WRITE_ERROR) ∧
   (stat dstpath (os s) = Some ENOENT →
    r = rename_outcome srcpath dstpath s)) ∧
  (overwrite = Some true →
   r = rename_outcome srcpath dstpath s ∧
   ∀ f, files (os s) !! srcpath = Some f →
        denied (os s) !! srcpath = None → denied (os s) !! dstpath = None →
        fst r = Ok tt ∧
        files (os (snd r)) !! dstpath = Some f ∧
        (srcpath ≠ dstpath → files (os (snd r)) !! srcpath = None)).
Proof.
  intros Hsrc Hdst r.
  apply get_safe_path_Ok in Hsrc, Hdst.
  assert (Hr : r = (let* _ :=
                      (if negb (default false overwrite) then
                         let* st := sys (λ w, (stat dstpath w, w)) in
                         match st with
                         | None => CUSTOM_EXCEPTION WRITE_ERROR
                         | Some errno =>
                           if negb (errno =? ENOENT)%Z then IO_EXCEPTION errno
                           else ret tt
                         end
                       else ret tt) in
                    let* r := sys (rename srcpath dstpath) in
                    match r with
                    | Some errno => IO_EXCEPTION errno
                    | None => ret tt
                    end) s).
  { unfold r, utl_file_frename. unfold bind at 1 2 3 4; simpl.
    unfold bind at 1. rewrite Hsrc. unfold bind at 1. rewrite Hdst. done. }
  assert (Hgo : (let* r := sys (rename srcpath dstpath) in
                 match r with
                 | Some errno => IO_EXCEPTION errno
                 | None => ret tt
                 end) s = rename_outcome srcpath dstpath s).
  { unfold bind, sys, rename_outcome.
    destruct (rename srcpath dstpath (os s)) as [[errno|] w]; [|done].
    apply IO_EXCEPTION_eq. }
  split.
  - intros Hov.
    assert (default false overwrite = false) as Hd
      by (destruct overwrite as [[]|]; done).
    rewrite Hd in Hr. simpl in Hr. unfold bind at 1 2, sys at 1 in Hr.
    rewrite set_os_id in Hr.
    split; [|split].
    + intros Hst. rewrite Hst in Hr. done.
    + intros errno Hst Hne. rewrite Hst in Hr.
      apply Z.eqb_neq in Hne. rewrite Hne in Hr. simpl in Hr.
      rewrite IO_EXCEPTION_eq in Hr. split; [done|].
      unfold io_error. by case_match.
    + intros Hst. rewrite Hst in Hr. rewrite Z.eqb_refl in Hr. simpl in Hr.
      by rewrite Hr, <- Hgo.
  - intros ->. simpl in Hr. unfold bind at 1 in Hr. simpl in Hr.
    rewrite Hgo in Hr. split; [done|].
    intros f Hf Hds Hdd. rewrite Hr. unfold rename_outcome, rename.
    rewrite Hds, Hdd, Hf. simpl. split; [done|]. split.
    + apply lookup_insert_eq.
    + intros Hne. rewrite lookup_insert_ne by done. apply lookup_delete_eq.
Qed.

(** ** Formatted writes *)

Lemma set_out_id st : set_out (s_out st) (s_room st) st = st.
Proof. by destruct st. Qed.

Lemma set_streams_id w : set_streams (streams w) w = w.
Proof. by destruct w. Qed.

Lemma append_out_lookup f out s st :
  streams (os s) !! f = Some st →
  streams (os (append_out f out s)) !! f
  = Some (set_out (s_out st ++ out) (s_room st) st).
Proof. intros H. unfold append_out. rewrite H. simpl. apply lookup_insert_eq. Qed.

Lemma append_out_nil f s : append_out f [] s = s.
Proof.
  unfold append_out. destruct (streams (os s) !! f) as [st|] eqn:E; [|done].
  rewrite app_nil_r, set_out_id, insert_id by done.
  by rewrite set_streams_id, set_os_id.
Qed.

Lemma append_out_app f a b s :
  append_out f b (append_out f a s) = append_out f (a ++ b) s.
Proof.
  destruct (streams (os s) !! f) as [st|] eqn:E.
  - unfold append_out at 1. rewrite (append_out_lookup f a s st E).
    unfold append_out. rewrite E. simpl.
    rewrite insert_insert_eq, app_assoc. done.
  - unfold append_out. rewrite E. by rewrite E.
Qed.

Lemma fputc_ok c f st s :
  streams (os s) !! f = Some st → s_room st = None →
  sys (fputc c f) s = (Ok None, append_out f [c] s).
Proof.
  intros Hst Hroom. unfold sys, fputc, append_out. rewrite Hst, Hroom. done.
Qed.

Lemma put_char_ok c f st s :
  streams (os s) !! f = Some st → s_room st = None →
  put_char c f s = (Ok tt, append_out f [c] s).
Proof.
  intros Hst Hroom. unfold put_char, bind.
  by rewrite (fputc_ok c f st s Hst Hroom).
Qed.

Lemma fputs_ok buf f st s :
  streams (os s) !! f = Some st → s_room st = None →
  sys (fputs buf f) s = (Ok None, append_out f buf s).
Proof.
  intros Hst Hroom.
  assert (H : ∀ w, w = os s →
            fwrite_bytes buf f w = (length buf, None, os (append_out f buf s))).
  { revert s st Hst Hroom. induction buf as [|c rest IH]; intros s st Hst Hroom w ->.
    - simpl. by rewrite append_out_nil.
    - simpl. pose proof (fputc_ok c f st s Hst Hroom) as Hc.
      unfold sys in Hc. destruct (fputc c f (os s)) as [r w1].
      injection Hc as -> Hw.
      rewrite (IH (append_out f [c] s) _ (append_out_lookup f [c] s st Hst) Hroom w1).
      + by rewrite append_out_app.
      + by rewrite <- Hw. }
  unfold sys, fputs. rewrite (H (os s) eq_refl).
  unfold append_out. rewrite Hst. done.
Qed.

Lemma append_out_open f out s st :
  streams (os s) !! f = Some st → s_room st = None →
  ∃ st', streams (os (append_out f out s)) !! f = Some st' ∧ s_room st' = None.
Proof.
  intros Hst Hroom. eexists. split; [by apply append_out_lookup|done].
Qed.

Lemma putf_items_unfold c0 c1 rest args used :
  putf_items (c0 :: c1 :: rest) args used
  = (if bool_decide (c0 = "\"%char ∧ c1 = "n"%char) then
       item_char "010" :: putf_items rest args used
     else if bool_decide (c0 = "%"%char ∧ c1 = "%"%char) then
       item_char "%" :: putf_items rest args used
     else if bool_decide (c0 = "%"%char ∧ c1 = "s"%char) then
       match (if (used <? 5)%nat then mjoin (args !! used) else None) with
       | Some buffer => item_arg buffer :: putf_items rest args (S used)
       | None => putf_items rest args (S used)
       end
     else if bool_decide (c0 = "%"%char) then putf_items rest args used
     else item_char c0 :: putf_items (c1 :: rest) args used).
Proof. reflexivity. Qed.

Lemma putf_loop_unfold c0 c1 rest f max_linesize args cur_par cur_len :
  putf_loop (c0 :: c1 :: rest) f max_linesize args cur_par cur_len
  = (if bool_decide (c0 = "\"%char) && bool_decide (c1 = "n"%char) then
       CHECK_LENGTH (cur_len + 1) max_linesize ;;;
       put_char "010"%char f ;;;
       putf_loop rest f max_linesize args cur_par (cur_len + 1)
     else if bool_decide (c0 = "%"%char) then
       if bool_decide (c1 = "%"%char) then
         CHECK_LENGTH (cur_len + 1) max_linesize ;;;
         put_char "%"%char f ;;;
         putf_loop rest f max_linesize args cur_par (cur_len + 1)
       else if bool_decide (c1 = "s"%char) then
         match (if (S cur_par <=? 5)%nat
                then mjoin (args !! (S cur_par - 1)%nat) else None) with
         | Some buffer =>
           CHECK_LENGTH (cur_len + Z.of_nat (length buffer)) max_linesize ;;;
           let* r := sys (fputs (c_string buffer) f) in
           match r with
           | Some errno => CHECK_ERRNO_PUT errno
           | None =>
             putf_loop rest f max_linesize args (S cur_par)
                       (cur_len + Z.of_nat (length buffer))
           end
         | None => putf_loop rest f max_linesize args (S cur_par) cur_len
         end
       else putf_loop rest f max_linesize args cur_par cur_len
     else
       CHECK_LENGTH (cur_len + 1) max_linesize ;;;
       put_char c0 f ;;;
       putf_loop (c1 :: rest) f max_linesize args cur_par (cur_len + 1)).
Proof. reflexivity. Qed.

(** The loop of [utl_file_putf] emits the items of the format. *)
Lemma putf_loop_emit fpt f max_linesize args cur_par cur_len st s :
  streams (os s) !! f = Some st → s_room st = None →
  putf_loop fpt f max_linesize args cur_par cur_len s
  = emit (putf_items fpt args cur_par) f max_linesize cur_len s.
Proof.
  clear canonicalize_path pg_verifymbstr.
  remember (length fpt) as n eqn:Hn. revert fpt Hn cur_par cur_len st s.
  induction (lt_wf n) as [n _ IH]. intros fpt -> cur_par cur_len st s Hst Hroom.
  assert (Hchar : ∀ c fpt' cur_par',
            length fpt' < length fpt →
            (CHECK_LENGTH (cur_len + 1) max_linesize ;;;
             put_char c f ;;;
             putf_loop fpt' f max_linesize args cur_par' (cur_len + 1)) s
            = emit (item_char c :: putf_items fpt' args cur_par')
                   f max_linesize cur_len s).
  { intros c fpt' cur_par' Hlt. simpl. unfold CHECK_LENGTH, when, bind at 1.
    destruct (cur_len + 1 >? max_linesize)%Z; [done|]. simpl.
    unfold bind at 1. rewrite (put_char_ok c f st s Hst Hroom).
    destruct (append_out_open f [c] s st Hst Hroom) as (st' & Hst' & Hroom').
    by eapply IH. }
  destruct fpt as [|c0 [|c1 rest]]; [done| |].
  - simpl. unfold CHECK_LENGTH, when, bind at 1.
    destruct (cur_len + 1 >? max_linesize)%Z; [done|]. simpl.
    by rewrite (put_char_ok c0 f st s Hst Hroom).
  - rewrite putf_loop_unfold, putf_items_unfold.
    destruct (decide (c0 = "\"%char)) as [->|Hbs].
    { rewrite (bool_decide_eq_true_2 ("\"%char = "\"%char)) by done.
      destruct (decide (c1 = "n"%char)) as [->|Hn].
      - rewrite !bool_decide_eq_true_2 by done. cbn [andb].
        apply Hchar. simpl; lia.
      - rewrite (bool_decide_eq_false_2 (c1 = "n"%char)) by done.
        rewrite (bool_decide_eq_false_2 (_ ∧ _)) by tauto.
        rewrite !(bool_decide_eq_false_2 ("\"%char = "%"%char ∧ _))
          by (intros [? _]; done).
        rewrite (bool_decide_eq_false_2 ("\"%char = "%"%char)) by done.
        cbn [andb]. apply Hchar. simpl; lia. }
    rewrite (bool_decide_eq_false_2 (c0 = "\"%char)) by done.
    rewrite (bool_decide_eq_false_2 (c0 = "\"%char ∧ _)) by tauto.
    cbn [andb].
    destruct (decide (c0 = "%"%char)) as [->|Hpc].
    2:{ rewrite (bool_decide_eq_false_2 (c0 = "%"%char)) by done.
        rewrite !(bool_decide_eq_false_2 (c0 = "%"%char ∧ _)) by tauto.
        apply Hchar. simpl; lia. }
    rewrite (bool_decide_eq_true_2 ("%"%char = "%"%char)) by done.
    destruct (decide (c1 = "%"%char)) as [->|Hpp].
    { rewrite !bool_decide_eq_true_2 by done. apply Hchar. simpl; lia. }
    rewrite (bool_decide_eq_false_2 (c1 = "%"%char)) by done.
    rewrite (bool_decide_eq_false_2 (_ ∧ c1 = "%"%char)) by tauto.
    destruct (decide (c1 = "s"%char)) as [->|Hs].
    2:{ rewrite (bool_decide_eq_false_2 (c1 = "s"%char)) by done.
        rewrite (bool_decide_eq_false_2 (_ ∧ c1 = "s"%char)) by tauto.
        eapply IH; [|done..]. simpl; lia. }
    rewrite !bool_decide_eq_true_2 by done.
    replace (S cur_par - 1) with cur_par by lia.
    replace (S cur_par <=? 5) with (cur_par <? 5) by done.
    destruct (if cur_par <? 5 then mjoin (args !! cur_par) else None)
      as [buffer|]; [|eapply IH; [|done..]; simpl; lia].
    cbn [emit item_count item_bytes]. unfold CHECK_LENGTH, when, bind at 1.
    destruct (_ >? _)%Z; [done|]. simpl. unfold bind at 1.
    rewrite (fputs_ok (c_string buffer) f st s Hst Hroom).
    destruct (append_out_open f (c_string buffer) s st Hst Hroom)
      as (st' & Hst' & Hroom').
    eapply IH; [|done..]. simpl; lia.
Qed.

Lemma item_count_nonneg i : (0 ≤ item_count i)%Z.
Proof. destruct i; simpl; lia. Qed.

Lemma items_count_nonneg items : (0 ≤ items_count items)%Z.
Proof.
  induction items as [|i rest IH]; simpl; [done|].
  pose proof (item_count_nonneg i). lia.
Qed.

Lemma emit_ok items f max_linesize cur_len s :
  (cur_len + items_count items ≤ max_linesize)%Z →
  emit items f max_linesize cur_len s
  = (Ok tt, append_out f (items_bytes items) s).
Proof.
  revert cur_len s. induction items as [|i rest IH]; intros cur_len s Hle.
  { simpl. by rewrite append_out_nil. }
  simpl in *. pose proof (items_count_nonneg rest).
  destruct (Z.gtb_spec (cur_len + item_count i) max_linesize); [lia|].
  rewrite IH by lia. by rewrite append_out_app.
Qed.

Lemma emit_overflow items f max_linesize cur_len s :
  (cur_len ≤ max_linesize)%Z →
  (cur_len + items_count items > max_linesize)%Z →
  ∃ k, k < length items ∧
    (cur_len + items_count (take k items) ≤ max_linesize)%Z ∧
    (cur_len + items_count (take (S k) items) > max_linesize)%Z ∧
    emit items f max_linesize cur_len s
    = (Raise (RAISE_EXCEPTION VALUE_ERROR),
       append_out f (items_bytes (take k items)) s).
Proof.
  revert cur_len s. induction items as [|i rest IH]; intros cur_len s Hle Hgt.
  { simpl in Hgt. lia. }
  simpl in Hgt. cbn [emit].
  destruct (Z.gtb_spec (cur_len + item_count i) max_linesize) as [Hi|Hi].
  - exists 0. simpl. rewrite append_out_nil.
    split; [lia|]. split; [lia|]. split; [lia|done].
  - destruct (IH (cur_len + item_count i)%Z (append_out f (item_bytes i) s))
      as (k & Hk & Hle' & Hgt' & Hemit); [lia..|].
    exists (S k). rewrite Hemit, append_out_app.
    split; [simpl; lia|]. split; [simpl in *; lia|].
    split; [cbn [take items_count] in *; lia|done].
Qed.

(** C6 (amended): [utl_file_putf] reads the format from left to right and
    emits one newline for backslash-n, one [%] for [%%], the next argument
    for [%s] when that argument (one of five) is there and not NULL and
    nothing when it is not; a [%] followed by any other character is dropped
    together with that character; every other character, and the last
    character of the format whatever it is, is emitted as it stands.  Each
    emitted character counts against [max_linesize], and the call raises
    VALUE_ERROR at the first item that takes the count over it, with the
    items before it already written.  So [putf(h, "a%sb\nc", "X")] emits
    [a], [X], [b], newline, [c], and [putf(h, "%%")] emits one [%]. *)
Theorem putf_emits_items file format args f max_linesize st s :
  fst (get_stream file s) = Ok (f, max_linesize) →
  streams (os s) !! f = Some st →
  s_room st = None →
  (0 ≤ max_linesize)%Z →
  let items := putf_items format args 0 in
  let call := utl_file_putf (Some file) (Some format) args s in
  ((items_count items ≤ max_linesize)%Z →
   call = (Ok true, append_out f (items_bytes items) s)) ∧
  ((items_count items > max_linesize)%Z →
   ∃ k, k < length items ∧
     (items_count (take k items) ≤ max_linesize)%Z ∧
     (items_count (take (S k) items) > max_linesize)%Z ∧
     call = (Raise (RAISE_EXCEPTION VALUE_ERROR),
             append_out f (items_bytes (take k items)) s)) ∧
  items_bytes (putf_items (cstr "a%sb\nc") [Some (cstr "X")] 0)
  = ["a"; "X"; "b"; "010"; "c"]%char ∧
  items_bytes (putf_items (cstr "%%") [] 0) = ["%"%char].
Proof.
  intros Hget Hst Hroom Hmax items call.
  assert (Hcall : call = (let (r, s') := emit items f max_linesize 0 s in
                          (match r with Ok _ => Ok true | Raise e => Raise e end,
                           s'))).
  { unfold call, utl_file_putf. unfold bind at 1; simpl. unfold bind at 1.
    assert (get_stream file s = (Ok (f, max_linesize), s)) as ->.
    { unfold get_stream in *. case_match; [done|].
      destruct (find_slot file s); simpl in *; by simplify_eq. }
    unfold bind at 1; simpl. unfold bind.
    rewrite (putf_loop_emit format f max_linesize args 0 0 st s Hst Hroom).
    fold items. by destruct (emit items f max_linesize 0 s) as [[[]|e] s']. }
  split; [|split; [|split; reflexivity]].
  - intros Hle. rewrite Hcall, emit_ok by lia. done.
  - intros Hgt.
    destruct (emit_overflow items f max_linesize 0 s)
      as (k & Hk & Hle & Hgt' & Hemit); [lia..|].
    exists k. rewrite Hcall, Hemit. done.
Qed.

(** ** Reading a line *)

Lemma set_in_id st : set_in (s_in st) st = st.
Proof. by destruct st. Qed.

Lemma with_input_lookup f rest st w :
  streams (with_input f rest st w) !! f = Some (set_in rest st).
Proof. apply lookup_insert_eq. Qed.

Lemma with_input_id f st w :
  streams w !! f = Some st → with_input f (s_in st) st w = w.
Proof.
  intros H. unfold with_input. rewrite set_in_id, insert_id by done.
  apply set_streams_id.
Qed.

Lemma with_input_twice f r1 r2 st w :
  with_input f r2 (set_in r1 st) (with_input f r1 st w) = with_input f r2 st w.
Proof. unfold with_input, set_streams; simpl. by rewrite insert_insert_eq. Qed.

Lemma fgetc_nil f st w :
  streams w !! f = Some st → s_in st = [] →
  fgetc f w = (inl (s_in_errno st), w).
Proof. intros H E. unfold fgetc. by rewrite H, E. Qed.

Lemma fgetc_cons f st w c r :
  streams w !! f = Some st → s_in st = c :: r →
  fgetc f w = (inr c, with_input f r st w).
Proof. intros H E. unfold fgetc. by rewrite H, E. Qed.

Lemma ungetc_with_input c f r st w :
  ungetc c f (with_input f r st w) = with_input f (c :: r) st w.
Proof.
  unfold ungetc. rewrite with_input_lookup. simpl.
  unfold with_input, set_streams; simpl. by rewrite insert_insert_eq.
Qed.

(** The loop of [get_line]: what it has read when it stops. *)
Lemma get_line_loop_spec fuel f buffer eof errno w st :
  streams w !! f = Some st →
  ∃ line term rest,
    line_split fuel (s_in st) line term rest ∧
    get_line_loop fuel f buffer eof errno w
    = (buffer ++ line,
       (if bool_decide (line = [] ∧ term = []) then eof else false),
       (if bool_decide (line = [] ∧ term = []) then
          (if (fuel =? 0)%nat then errno
           else if (s_in_errno st =? 0)%Z then errno else s_in_errno st)
        else (get_line_loop fuel f buffer eof errno w).1.2),
       with_input f rest st w).
Proof.
  revert buffer eof errno w st.
  induction fuel as [|fuel IH]; intros buffer eof errno w st Hst.
  { exists [], [], (s_in st). split.
    - split; [done|]. split; [done|].
      split; [apply not_elem_of_nil|]. split; [apply not_elem_of_nil|].
      right. by split; [|left].
    - simpl. rewrite app_nil_r, with_input_id by done. done. }
  cbn [get_line_loop].
  destruct (s_in st) as [|c r] eqn:Hin.
  { rewrite (fgetc_nil f st w Hst Hin).
    exists [], [], []. split.
    - split; [done|]. split; [simpl; lia|].
      split; [apply not_elem_of_nil|]. split; [apply not_elem_of_nil|].
      right. by split; [|right].
    - simpl. rewrite app_nil_r. rewrite <- Hin, with_input_id by done. done. }
  rewrite (fgetc_cons f st w c r Hst Hin).
  pose proof (with_input_lookup f r st w) as Hst1.
  case_bool_decide as Hcr.
  { subst c. destruct r as [|c' r'] eqn:Hr.
    - rewrite (fgetc_nil f (set_in [] st) _ Hst1 eq_refl).
      exists [], [CR], []. split.
      + split; [done|]. split; [simpl; lia|].
        split; [apply not_elem_of_nil|]. split; [apply not_elem_of_nil|].
        left. split; [|simpl; lia]. right; right. done.
      + rewrite bool_decide_eq_false_2 by (intros [_ ?]; done).
        rewrite app_nil_r. done.
    - rewrite (fgetc_cons f (set_in (c' :: r') st) _ c' r' Hst1 eq_refl).
      rewrite with_input_twice.
      case_bool_decide as Hlf; cbn [negb].
      + subst c'. exists [], [CR; LF], r'. split.
        * split; [done|]. split; [simpl; lia|].
          split; [apply not_elem_of_nil|]. split; [apply not_elem_of_nil|].
          left. split; [|simpl; lia]. by left.
        * rewrite bool_decide_eq_false_2 by (intros [_ ?]; done).
          rewrite app_nil_r. done.
      + rewrite ungetc_with_input.
        exists [], [CR], (c' :: r'). split.
        * split; [done|]. split; [simpl; lia|].
          split; [apply not_elem_of_nil|]. split; [apply not_elem_of_nil|].
          left. split; [|simpl; lia]. right; right. split; [done|].
          simpl. congruence.
        * rewrite bool_decide_eq_false_2 by (intros [_ ?]; done).
          rewrite app_nil_r. done. }
  case_bool_decide as Hlf.
  { subst c. exists [], [LF], r. split.
    - split; [done|]. split; [simpl; lia|].
      split; [apply not_elem_of_nil|]. split; [apply not_elem_of_nil|].
      left. split; [|simpl; lia]. right; left. done.
    - rewrite bool_decide_eq_false_2 by (intros [_ ?]; done).
      rewrite app_nil_r. done. }
  destruct (IH (buffer ++ [c]) false errno (with_input f r st w) (set_in r st) Hst1)
    as (line & term & rest & Hsplit & Hloop).
  exists (c :: line), term, rest. split.
  - destruct Hsplit as (Hcat & Hlen & Hncr & Hnlf & Hend). simpl in Hcat.
    split; [by rewrite Hcat|]. split; [simpl; lia|].
    split; [rewrite not_elem_of_cons; by split|].
    split; [rewrite not_elem_of_cons; by split|].
    destruct Hend as [[Ht Hl]|[Ht Hl]]; [left|right].
    + split; [done|simpl; lia].
    + split; [done|]. destruct Hl as [Hl|Hl]; [left; simpl; lia|by right].
  - rewrite bool_decide_eq_false_2 by (intros [? _]; done).
    rewrite Hloop. rewrite with_input_twice, <- app_assoc. simpl.
    f_equal. f_equal. by case_bool_decide.
Qed.

Lemma line_split_nothing limit input rest :
  line_split limit input [] [] rest → limit = 0 ∨ input = [].
Proof.
  intros (Hcat & Hlen & _ & _ & [[Ht _]|[_ [Hl|Hl]]]).
  - destruct Ht as [?|[?|[? _]]]; done.
  - left. simpl in Hl. lia.
  - right. by rewrite Hcat, Hl.
Qed.

(** [get_line] in full. *)
Lemma get_line_spec f max_linesize st s :
  streams (os s) !! f = Some st →
  ∃ line term rest,
    line_split (Z.to_nat max_linesize) (s_in st) line term rest ∧
    get_line f max_linesize s
    = ((if bool_decide (line = [] ∧ term = [])
        then nothing_read (Z.to_nat max_linesize) st
        else if pg_verifymbstr line then Ok (Some line, false)
        else Raise CHARACTER_NOT_IN_REPERTOIRE),
       set_os (with_input f rest st (os s)) s).
Proof.
  intros Hst.
  destruct (get_line_loop_spec (Z.to_nat max_linesize) f [] true 0 (os s) st Hst)
    as (line & term & rest & Hsplit & Hloop).
  exists line, term, rest. split; [done|].
  unfold get_line. rewrite Hloop. simpl.
  case_bool_decide as Hnone; simpl; [|by case_match].
  unfold nothing_read, CUSTOM_EXCEPTION, raise.
  destruct (Z.to_nat max_linesize =? 0)%nat; simpl; [done|].
  destruct (s_in_errno st =? 0)%Z eqn:E0; [by rewrite Z.eqb_refl|].
  rewrite E0. by case_match.
Qed.

(** C4: one call of [get_line] on an open stream with [max_linesize]
    splits the unread input into the line it returns, the terminator it
    takes with it and the input it leaves.  The line holds at most
    [max_linesize] characters and neither CR nor LF; the terminator is
    CR LF, a lone LF, or a lone CR -- and then the character after it, when
    there is one, is not LF and stays unread, pushed back -- and is only
    taken when fewer than [max_linesize] characters were read before it;
    without a terminator the line ends at [max_linesize] characters or at
    the end of the input.  When anything was read, the line is returned
    with [iseof] false (or the call fails on text that is not well
    formed). *)
Theorem get_line_reads_one_line f max_linesize st s :
  streams (os s) !! f = Some st →
  ∃ line term rest,
    s_in st = line ++ term ++ rest ∧
    (Z.of_nat (length line) ≤ Z.max 0 max_linesize)%Z ∧
    (CR ∉ line) ∧ (LF ∉ line) ∧
    ((terminator term rest ∧ (Z.of_nat (length line) < max_linesize)%Z) ∨
     (term = [] ∧ (Z.of_nat (length line) = Z.max 0 max_linesize ∨ rest = []))) ∧
    streams (os (snd (get_line f max_linesize s))) !! f = Some (set_in rest st) ∧
    snd (get_line f max_linesize s) = set_os (with_input f rest st (os s)) s ∧
    fst (get_line f max_linesize s)
    = (if bool_decide (line = [] ∧ term = [])
       then nothing_read (Z.to_nat max_linesize) st
       else if pg_verifymbstr line then Ok (Some line, false)
       else Raise CHARACTER_NOT_IN_REPERTOIRE).
Proof.
  intros Hst.
  destruct (get_line_spec f max_linesize st s Hst)
    as (line & term & rest & (Hcat & Hlen & Hncr & Hnlf & Hend) & Hget).
  exists line, term, rest. rewrite Hget. simpl.
  split; [done|]. split; [lia|]. split; [done|]. split; [done|].
  split; [|split; [apply with_input_lookup|done]].
  destruct Hend as [[Ht Hl]|[Ht Hl]]; [left|right].
  - split; [done|lia].
  - split; [done|]. destruct Hl as [Hl|Hl]; [left; lia|by right].
Qed.

Lemma get_stream_Ok file s f max_linesize :
  fst (get_stream file s) = Ok (f, max_linesize) →
  get_stream file s = (Ok (f, max_linesize), s).
Proof.
  unfold get_stream. case_match; [done|].
  destruct (find_slot file s); simpl; [|done]. by intros [= -> ->].
Qed.

(** The two read entry points on the result of [get_line]. *)
Lemma read_entry_points file f max_linesize s :
  fst (get_stream file s) = Ok (f, max_linesize) →
  utl_file_get_line (Some file) None s
  = (let '(r, s') := get_line f max_linesize s in
     (match r with
      | Ok (result, true) => Raise NO_DATA_FOUND
      | Ok (result, false) => Ok (default [] result)
      | Raise e => Raise e
      end, s')) ∧
  utl_file_get_nextline (Some file) s
  = (let '(r, s') := get_line f max_linesize s in
     (match r with
      | Ok (result, true) => Ok None
      | Ok (result, false) => Ok (Some (default [] result))
      | Raise e => Raise e
      end, s')).
Proof.
  intros Hget. apply get_stream_Ok in Hget.
  unfold utl_file_get_line, utl_file_get_nextline.
  unfold bind at 1 5; simpl. unfold bind at 1 4. rewrite Hget.
  unfold bind at 1; simpl. unfold bind.
  by destruct (get_line f max_linesize s) as [[[result []]|e] s'].
Qed.

(** The entry points differ in one thing only. *)
Lemma get_line_vs_get_nextline arg0 s :
  utl_file_get_line arg0 None s
  = (let '(r, s') := utl_file_get_nextline arg0 s in
     (match r with
      | Ok (Some line) => Ok line
      | Ok None => Raise NO_DATA_FOUND
      | Raise e => Raise e
      end, s')).
Proof.
  unfold utl_file_get_line, utl_file_get_nextline.
  destruct arg0 as [file|]; [|done].
  unfold bind at 1 5; simpl. unfold bind at 1 4.
  destruct (get_stream file s) as [[[f max_linesize]|e] s1]; [|done].
  unfold bind at 1; simpl. unfold bind.
  by destruct (get_line f max_linesize s1) as [[[result []]|e] s'].
Qed.

Lemma read_at_end file f max_linesize st s :
  fst (get_stream file s) = Ok (f, max_linesize) →
  streams (os s) !! f = Some st →
  (1 ≤ max_linesize)%Z →
  s_in st = [] → s_in_errno st = 0%Z →
  fst (get_line f max_linesize s) = Ok (None, true) ∧
  utl_file_get_line (Some file) None s = (Raise NO_DATA_FOUND, s) ∧
  utl_file_get_nextline (Some file) s = (Ok None, s).
Proof.
  intros Hget Hst Hmax Hin Herr.
  destruct (read_entry_points file f max_linesize s Hget) as [-> ->].
  destruct (get_line_spec f max_linesize st s Hst)
    as (line & term & rest & (Hcat & _) & ->).
  rewrite Hin in Hcat. symmetry in Hcat.
  apply app_eq_nil in Hcat as [-> Hcat]. apply app_eq_nil in Hcat as [-> ->].
  rewrite bool_decide_eq_true_2 by done.
  rewrite <- Hin, with_input_id, set_os_id by done.
  unfold nothing_read. rewrite Herr.
  destruct (Z.to_nat max_linesize =? 0)%nat; done.
Qed.

Lemma read_some file f max_linesize st s :
  fst (get_stream file s) = Ok (f, max_linesize) →
  streams (os s) !! f = Some st →
  (1 ≤ max_linesize)%Z →
  s_in st ≠ [] →
  ∃ line term rest,
    line_split (Z.to_nat max_linesize) (s_in st) line term rest ∧
    let s' := set_os (with_input f rest st (os s)) s in
    (pg_verifymbstr line = true →
     fst (get_line f max_linesize s) = Ok (Some line, false) ∧
     utl_file_get_line (Some file) None s = (Ok line, s') ∧
     utl_file_get_nextline (Some file) s = (Ok (Some line), s')) ∧
    (pg_verifymbstr line = false →
     utl_file_get_line (Some file) None s
     = (Raise CHARACTER_NOT_IN_REPERTOIRE, s') ∧
     utl_file_get_nextline (Some file) s
     = (Raise CHARACTER_NOT_IN_REPERTOIRE, s')).
Proof.
  intros Hget Hst Hmax Hin.
  destruct (read_entry_points file f max_linesize s Hget) as [-> ->].
  destruct (get_line_spec f max_linesize st s Hst)
    as (line & term & rest & Hsplit & ->).
  exists line, term, rest. split; [done|].
  rewrite bool_decide_eq_false_2.
  - split; intros ->; done.
  - intros [-> ->]. apply line_split_nothing in Hsplit as [?|?]; [lia|done].
Qed.

(** At the end of the stream nothing is read, whatever the limit. *)
Lemma get_line_at_end f limit st s :
  streams (os s) !! f = Some st →
  s_in st = [] → s_in_errno st = 0%Z →
  get_line f limit s = (Ok (None, true), s).
Proof.
  intros Hst Hin Herr.
  destruct (get_line_spec f limit st s Hst)
    as (line & term & rest & (Hcat & _) & ->).
  rewrite Hin in Hcat. symmetry in Hcat.
  apply app_eq_nil in Hcat as [-> Hcat]. apply app_eq_nil in Hcat as [-> ->].
  rewrite bool_decide_eq_true_2 by done.
  rewrite <- Hin, with_input_id, set_os_id by done.
  unfold nothing_read. rewrite Herr.
  destruct (Z.to_nat limit =? 0)%nat; done.
Qed.

(** [utl_file_get_line] with its [len] on the result of [get_line]. *)
Lemma read_with_len file f max_linesize len s :
  fst (get_stream file s) = Ok (f, max_linesize) →
  utl_file_get_line (Some file) (Some len) s
  = (if ((len <? 1) || (len >? MAX_LINESIZE))%Z
     then (Raise (RAISE_EXCEPTION INVALID_MAXLINESIZE), s)
     else let '(r, s') := get_line f (Z.min max_linesize len) s in
          (match r with
           | Ok (result, true) => Raise NO_DATA_FOUND
           | Ok (result, false) => Ok (default [] result)
           | Raise e => Raise e
           end, s')).
Proof.
  intros Hget. apply get_stream_Ok in Hget.
  unfold utl_file_get_line.
  unfold bind at 1; simpl. unfold bind at 1. rewrite Hget.
  unfold bind at 1. unfold CHECK_LINESIZE, when.
  destruct ((len <? 1) || (len >? MAX_LINESIZE))%Z; [done|].
  unfold bind at 2; simpl. unfold bind.
  replace (if (max_linesize >? len)%Z then len else max_linesize)
    with (Z.min max_linesize len)
    by (destruct (Z.gtb_spec max_linesize len); lia).
  by destruct (get_line f (Z.min max_linesize len) s) as [[[result []]|e] s'].
Qed.

(** C5 (amended): on an open handle, when the stream is at its end and no
    character can be read, [get_line] reports [iseof], [utl_file_get_line]
    raises NO_DATA_FOUND and [utl_file_get_nextline] returns NULL.  When
    there is input, at least one character is read and [iseof] is false:
    both entry points return the same line (or both fail on text that is
    not well formed); a last line without terminator is returned whole
    although the end of the stream follows at once, as the next read then
    reports.  Called on the handle alone, the two entry points give the
    same result and session for every call, except that the one raises
    NO_DATA_FOUND where the other returns NULL.  [utl_file_get_line] has a
    second argument that [utl_file_get_nextline] has not: a [len] outside
    1..32767 raises INVALID_MAXLINESIZE and reads nothing; otherwise the
    read is the one of [get_line] under the smaller of [len] and the
    handle's [max_linesize], so a [len] that is not smaller changes
    nothing, and at the end of the stream the call raises NO_DATA_FOUND
    as without it. *)
Theorem read_at_end_of_stream file f max_linesize st s :
  fst (get_stream file s) = Ok (f, max_linesize) →
  streams (os s) !! f = Some st →
  (1 ≤ max_linesize)%Z →
  (s_in st = [] → s_in_errno st = 0%Z →
   fst (get_line f max_linesize s) = Ok (None, true) ∧
   utl_file_get_line (Some file) None s = (Raise NO_DATA_FOUND, s) ∧
   utl_file_get_nextline (Some file) s = (Ok None, s)) ∧
  (s_in st ≠ [] →
   ∃ line s',
     line `prefix_of` s_in st ∧
     ((fst (get_line f max_linesize s) = Ok (Some line, false) ∧
       utl_file_get_line (Some file) None s = (Ok line, s') ∧
       utl_file_get_nextline (Some file) s = (Ok (Some line), s')) ∨
      (pg_verifymbstr line = false ∧
       utl_file_get_line (Some file) None s
       = (Raise CHARACTER_NOT_IN_REPERTOIRE, s') ∧
       utl_file_get_nextline (Some file) s
       = (Raise CHARACTER_NOT_IN_REPERTOIRE, s')))) ∧
  (s_in st ≠ [] → (CR ∉ s_in st) → (LF ∉ s_in st) →
   (Z.of_nat (length (s_in st)) ≤ max_linesize)%Z →
   pg_verifymbstr (s_in st) = true →
   let s' := set_os (with_input f [] st (os s)) s in
   fst (get_line f max_linesize s) = Ok (Some (s_in st), false) ∧
   utl_file_get_line (Some file) None s = (Ok (s_in st), s') ∧
   utl_file_get_nextline (Some file) s = (Ok (Some (s_in st)), s') ∧
   (s_in_errno st = 0%Z →
    utl_file_get_line (Some file) None s' = (Raise NO_DATA_FOUND, s') ∧
    utl_file_get_nextline (Some file) s' = (Ok None, s'))) ∧
  (∀ arg0 s0,
     utl_file_get_line arg0 None s0
     = (let '(r, s') := utl_file_get_nextline arg0 s0 in
        (match r with
         | Ok (Some line) => Ok line
         | Ok None => Raise NO_DATA_FOUND
         | Raise e => Raise e
         end, s'))) ∧
  (∀ len, (len < 1 ∨ MAX_LINESIZE < len)%Z →
     utl_file_get_line (Some file) (Some len) s
     = (Raise (RAISE_EXCEPTION INVALID_MAXLINESIZE), s)) ∧
  (∀ len, (1 ≤ len ≤ MAX_LINESIZE)%Z →
     utl_file_get_line (Some file) (Some len) s
     = (let '(r, s') := get_line f (Z.min max_linesize len) s in
        (match r with
         | Ok (result, true) => Raise NO_DATA_FOUND
         | Ok (result, false) => Ok (default [] result)
         | Raise e => Raise e
         end, s')) ∧
     ((max_linesize ≤ len)%Z →
      utl_file_get_line (Some file) (Some len) s
      = utl_file_get_line (Some file) None s) ∧
     (s_in st = [] → s_in_errno st = 0%Z →
      utl_file_get_line (Some file) (Some len) s = (Raise NO_DATA_FOUND, s))).
Proof.
  intros Hget Hst Hmax. split; [|split; [|split; [|split; [|split]]]].
  - intros Hin Herr. by eapply read_at_end.
  - intros Hin.
    destruct (read_some file f max_linesize st s Hget Hst Hmax Hin)
      as (line & term & rest & (Hcat & _) & Hgood & Hbad).
    exists line, (set_os (with_input f rest st (os s)) s).
    split; [by exists (term ++ rest)|].
    destruct (pg_verifymbstr line) eqn:E; [left; by apply Hgood|right].
    split; [done|by apply Hbad].
  - intros Hin Hncr Hnlf Hlen Hmb s'.
    destruct (read_some file f max_linesize st s Hget Hst Hmax Hin)
      as (line & term & rest & (Hcat & Hl & _ & _ & Hend) & Hgood & _).
    assert (term = [] ∧ rest = []) as [-> ->].
    { destruct Hend as [[Ht _]|[-> Hr]].
      - exfalso. rewrite Hcat in Hncr, Hnlf.
        rewrite !elem_of_app in Hncr, Hnlf.
        destruct Ht as [->|[->|[-> _]]].
        + apply Hncr. right; left. apply list_elem_of_here.
        + apply Hnlf. right; left. apply list_elem_of_here.
        + apply Hncr. right; left. apply list_elem_of_here.
      - split; [done|]. destruct Hr as [Hr|Hr]; [|done].
        rewrite Hcat, !length_app in Hlen. simpl in Hlen.
        destruct rest; [done|]. simpl in Hlen. lia. }
    rewrite !app_nil_r in Hcat. subst line.
    destruct (Hgood Hmb) as (H1 & H2 & H3).
    split; [done|]. split; [done|]. split; [done|].
    intros Herr.
    assert (Hget' : fst (get_stream file s') = Ok (f, max_linesize)).
    { rewrite <- Hget. by apply get_stream_same_table. }
    destruct (read_at_end file f max_linesize (set_in [] st) s' Hget'
                (with_input_lookup f [] st (os s)) Hmax eq_refl Herr)
      as (_ & ? & ?).
    done.
  - apply get_line_vs_get_nextline.
  - intros len Hlen. rewrite (read_with_len file f max_linesize len s Hget).
    replace ((len <? 1) || (len >? MAX_LINESIZE))%Z with true; [done|].
    symmetry. apply orb_true_iff. lia.
  - intros len Hlen.
    assert (Hcall : utl_file_get_line (Some file) (Some len) s
                    = (let '(r, s') := get_line f (Z.min max_linesize len) s in
                       (match r with
                        | Ok (result, true) => Raise NO_DATA_FOUND
                        | Ok (result, false) => Ok (default [] result)
                        | Raise e => Raise e
                        end, s'))).
    { rewrite (read_with_len file f max_linesize len s Hget).
      replace ((len <? 1) || (len >? MAX_LINESIZE))%Z with false; [done|].
      symmetry. apply orb_false_iff. lia. }
    split; [done|]. split.
    + intros Hle. rewrite Hcall.
      destruct (read_entry_points file f max_linesize s Hget) as [-> _].
      by rewrite Z.min_l by lia.
    + intros Hin Herr. rewrite Hcall.
      by rewrite (get_line_at_end f _ st s Hst Hin Herr).
Qed.

(** ** Stream addresses *)

Lemma grows_refl w : grows w w.
Proof. split; [lia|done]. Qed.

Lemma grows_trans a b c : grows a b → grows b c → grows a c.
Proof. intros [? Hab] [? Hbc]. split; [lia|]. intros ?. by apply Hbc, Hab. Qed.

(** A call that hands out no address and opens no stream. *)
Lemma grows_same_streams w w' :
  next_file w' = next_file w →
  (∀ f, is_Some (streams w' !! f) → is_Some (streams w !! f)) →
  grows w w'.
Proof.
  intros Hn Hs. split; [lia|]. intros [H0 Hok]. split; [by rewrite Hn|].
  intros f Hf. rewrite Hn. by apply Hok, Hs.
Qed.

Lemma is_Some_insert_present f f' (st st' : stream) (m : gmap N stream) :
  m !! f = Some st → is_Some (<[f := st']> m !! f') → is_Some (m !! f').
Proof.
  intros Hf. destruct (decide (f' = f)) as [->|Hne].
  - by rewrite Hf.
  - by rewrite lookup_insert_ne.
Qed.

Lemma tidy_fopen path mode : tidy (fopen path mode).
Proof.
  intros w. unfold fopen.
  assert (Hstart : ∀ st w1, next_file w1 = next_file w → streams w1 = streams w →
            grows w {| streams := <[next_file w1 := st]> (streams w1);
                       next_file := N.succ (next_file w1); files := files w1;
                       denied := denied w1; utl_file_dir := utl_file_dir w1;
                       st_blksize := st_blksize w1; TMPDIR := TMPDIR w1 |}).
  { intros st w1 Hn Hs. split; simpl; [lia|]. intros [H0 Hok].
    split; simpl; [lia|]. intros f. rewrite Hn, Hs.
    destruct (decide (f = next_file w)) as [->|Hne]; [lia|].
    rewrite lookup_insert_ne by done. intros Hf. apply Hok in Hf. lia. }
  destruct (denied w !! path); simpl; [apply grows_refl|].
  destruct mode, (files w !! path); simpl;
    first [apply grows_refl | by apply Hstart].
Qed.

Lemma tidy_fclose f : tidy (fclose f).
Proof.
  intros w. unfold fclose. destruct (streams w !! f) eqn:E; simpl;
    [|apply grows_refl].
  apply grows_same_streams; [done|]. simpl. intros f' Hf.
  destruct (decide (f' = f)) as [->|Hne].
  - by rewrite lookup_delete_eq in Hf; destruct Hf.
  - by rewrite lookup_delete_ne in Hf.
Qed.

Lemma tidy_fgetc f : tidy (fgetc f).
Proof.
  intros w. unfold fgetc. destruct (streams w !! f) as [st|] eqn:E; simpl;
    [|apply grows_refl].
  destruct (s_in st); simpl; [apply grows_refl|].
  apply grows_same_streams; [done|]. simpl. intros f'.
  by eapply is_Some_insert_present.
Qed.

Lemma grows_ungetc c f w : grows w (ungetc c f w).
Proof.
  unfold ungetc. destruct (streams w !! f) as [st|] eqn:E; [|apply grows_refl].
  apply grows_same_streams; [done|]. simpl. intros f'.
  by eapply is_Some_insert_present.
Qed.

Lemma tidy_fputc c f : tidy (fputc c f).
Proof.
  intros w. unfold fputc. destruct (streams w !! f) as [st|] eqn:E; simpl;
    [|apply grows_refl].
  destruct (s_room st) as [[|n]|]; simpl; [apply grows_refl|..];
    (apply grows_same_streams; [done|]; simpl; intros f';
     by eapply is_Some_insert_present).
Qed.

Lemma tidy_fwrite_bytes buf f : tidy (fwrite_bytes buf f).
Proof.
  induction buf as [|c rest IH]; intros w; simpl; [apply grows_refl|].
  pose proof (tidy_fputc c f w) as Hc.
  destruct (fputc c f w) as [[e|] w1]; simpl in *; [done|].
  specialize (IH w1). destruct (fwrite_bytes rest f w1) as [[n r] w2].
  simpl in *. by eapply grows_trans.
Qed.

Lemma tidy_fputs buf f : tidy (fputs buf f).
Proof.
  intros w. unfold fputs. pose proof (tidy_fwrite_bytes buf f w) as H.
  by destruct (fwrite_bytes buf f w) as [[n r] w1].
Qed.

Lemma tidy_fflush f : tidy (fflush f).
Proof. intros w. unfold fflush. repeat case_match; apply grows_refl. Qed.

Lemma tidy_unlink path : tidy (unlink path).
Proof.
  intros w. unfold unlink. case_match; simpl; [apply grows_refl|].
  by apply grows_same_streams.
Qed.

Lemma tidy_rename src dst : tidy (rename src dst).
Proof.
  intros w. unfold rename. repeat case_match; simpl; try apply grows_refl.
  by apply grows_same_streams.
Qed.

Lemma tidy_stat path : tidy (λ w, (stat path w, w)).
Proof. intros w. apply grows_refl. Qed.

Lemma grows_get_line_loop fuel f buffer eof errno w :
  grows w (snd (get_line_loop fuel f buffer eof errno w)).
Proof.
  revert buffer eof errno w. induction fuel as [|fuel IH]; intros; simpl;
    [apply grows_refl|].
  pose proof (tidy_fgetc f w) as H1.
  destruct (fgetc f w) as [[e|c] w1]; simpl in *; [done|].
  case_bool_decide.
  - pose proof (tidy_fgetc f w1) as H2.
    destruct (fgetc f w1) as [[e|c'] w2]; simpl in *;
      [by eapply grows_trans|].
    case_bool_decide; simpl; [by eapply grows_trans|].
    eapply grows_trans; [done|]. eapply grows_trans; [done|].
    apply grows_ungetc.
  - case_bool_decide; simpl; [done|]. by eapply grows_trans.
Qed.

Lemma keeps_world_ret {A} (a : A) : keeps_world (ret a).
Proof. intros s. apply grows_refl. Qed.

Lemma keeps_world_raise {A} e : keeps_world (raise (A:=A) e).
Proof. intros s. apply grows_refl. Qed.

Lemma keeps_world_bind {A B} (m : M A) (k : A → M B) :
  keeps_world m → (∀ a, keeps_world (k a)) → keeps_world (bind m k).
Proof.
  intros Hm Hk s. unfold bind. specialize (Hm s).
  destruct (m s) as [[a|e] s1]; simpl in *; [|done].
  eapply grows_trans; [done|apply Hk].
Qed.

Lemma keeps_world_sys {A} (c : world → A * world) :
  tidy c → keeps_world (sys c).
Proof.
  intros Hc s. unfold sys. specialize (Hc (os s)). by destruct (c (os s)).
Qed.

Lemma keeps_world_when b e : keeps_world (when b e).
Proof. destruct b; [apply keeps_world_raise|apply keeps_world_ret]. Qed.

Lemma keeps_world_CUSTOM_EXCEPTION {A} msg :
  keeps_world (CUSTOM_EXCEPTION (A:=A) msg).
Proof. apply keeps_world_raise. Qed.

Lemma keeps_world_NOT_NULL_ARG {A} n (arg : option A) :
  keeps_world (NOT_NULL_ARG n arg).
Proof. destruct arg; [apply keeps_world_ret|apply keeps_world_raise]. Qed.

Lemma keeps_world_CHECK_FILE_HANDLE arg0 : keeps_world (CHECK_FILE_HANDLE arg0).
Proof. destruct arg0; [apply keeps_world_ret|apply keeps_world_raise]. Qed.

Lemma keeps_world_IO_EXCEPTION {A} errno : keeps_world (IO_EXCEPTION (A:=A) errno).
Proof. unfold IO_EXCEPTION. case_match; apply keeps_world_raise. Qed.

Lemma keeps_world_CHECK_ERRNO_PUT {A} errno :
  keeps_world (CHECK_ERRNO_PUT (A:=A) errno).
Proof. unfold CHECK_ERRNO_PUT. case_match; apply keeps_world_raise. Qed.

(** A call that keeps the session as it is. *)
Lemma keeps_world_still {A} (m : M A) :
  (∀ s, snd (m s) = s) → keeps_world m.
Proof. intros H s. rewrite H. apply grows_refl. Qed.

Lemma get_stream_session d s : snd (get_stream d s) = s.
Proof. unfold get_stream. by repeat case_match. Qed.

Lemma keeps_world_get_stream d : keeps_world (get_stream d).
Proof. apply keeps_world_still, get_stream_session. Qed.

Lemma keeps_world_get_safe_path location filename :
  keeps_world (get_safe_path location filename).
Proof. apply keeps_world_still, get_safe_path_session. Qed.

Create HintDb worlds discriminated.

#[local] Hint Resolve keeps_world_ret keeps_world_raise keeps_world_sys
  keeps_world_when keeps_world_CUSTOM_EXCEPTION keeps_world_NOT_NULL_ARG
  keeps_world_CHECK_FILE_HANDLE keeps_world_IO_EXCEPTION
  keeps_world_CHECK_ERRNO_PUT keeps_world_get_stream
  keeps_world_get_safe_path
  tidy_fopen tidy_fclose tidy_fputc tidy_fwrite_bytes tidy_fputs
  tidy_fflush tidy_unlink tidy_rename tidy_stat : worlds.

Ltac worlds_step :=
  match goal with
  | |- keeps_world (bind _ _) => apply keeps_world_bind; [|intros ?]
  | |- keeps_world (match ?x with _ => _ end) => destruct x
  | |- keeps_world _ => solve [eauto with worlds]
  end.

Ltac worlds := repeat worlds_step.

Lemma keeps_world_get_line f max_linesize :
  keeps_world (get_line f max_linesize).
Proof.
  intros s. unfold get_line.
  pose proof (grows_get_line_loop (Z.to_nat max_linesize) f [] true 0 (os s)) as H.
  destruct (get_line_loop _ _ _ _ _ _) as [[[buffer eof] errno] w].
  by repeat case_match.
Qed.

Lemma keeps_world_do_flush f : keeps_world (do_flush f).
Proof. unfold do_flush. worlds. Qed.

Lemma keeps_world_put_char c f : keeps_world (put_char c f).
Proof. unfold put_char. worlds. Qed.

#[local] Hint Resolve keeps_world_get_line keeps_world_do_flush
  keeps_world_put_char : worlds.

Lemma keeps_world_do_put arg0 arg1 : keeps_world (do_put arg0 arg1).
Proof. unfold do_put, CHECK_LENGTH. worlds. Qed.

Lemma keeps_world_do_new_line f lines : keeps_world (do_new_line f lines).
Proof.
  unfold do_new_line. induction (Z.to_nat lines) as [|n IH]; simpl; worlds.
Qed.

Lemma keeps_world_putf_loop fpt f max_linesize args cur_par cur_len :
  keeps_world (putf_loop fpt f max_linesize args cur_par cur_len).
Proof.
  remember (length fpt) as n eqn:Hn. revert fpt Hn cur_par cur_len.
  induction (lt_wf n) as [n _ IH]. intros fpt -> cur_par cur_len.
  destruct fpt as [|c0 [|c1 rest]]; simpl; unfold CHECK_LENGTH; worlds;
    try (eapply IH; [|done]; simpl; lia).
Qed.

#[local] Hint Resolve keeps_world_do_put keeps_world_do_new_line
  keeps_world_putf_loop : worlds.

Lemma keeps_world_close_slot i : keeps_world (close_slot i).
Proof.
  intros s. unfold close_slot.
  destruct (slot_file (slot s i) =? NULL)%N; simpl; [apply grows_refl|].
  pose proof (tidy_fclose (slot_file (slot s i)) (os s)) as Hc.
  destruct (fclose (slot_file (slot s i)) (os s)) as [errno w]; simpl in *.
  destruct (errno =? 0)%Z; simpl; [done|].
  unfold CUSTOM_EXCEPTION, raise. by case_match.
Qed.

Lemma keeps_world_fclose_all_from n i : keeps_world (fclose_all_from n i).
Proof.
  revert i. induction n as [|n IH]; intros i; simpl; [apply keeps_world_ret|].
  intros s. destruct (negb _); [|apply IH].
  apply keeps_world_bind; [apply keeps_world_close_slot|intros _; apply IH].
Qed.

Lemma keeps_world_fopen arg0 arg1 arg2 arg3 :
  keeps_world (utl_file_fopen arg0 arg1 arg2 arg3).
Proof.
  unfold utl_file_fopen, NON_EMPTY_TEXT, CHECK_LINESIZE. worlds.
  intros s. destruct (get_descriptor _ _ s) as [d s1] eqn:Hd.
  assert (Hos : os s1 = os s).
  { unfold get_descriptor in Hd. rewrite get_descriptor_from_find in Hd.
    destruct (find_slot_from _ _ _ _); by simplify_eq. }
  destruct (d =? INVALID_SLOTID)%Z; simpl; [|rewrite Hos; apply grows_refl].
  rewrite <- Hos.
  match goal with
  | |- grows _ (os (snd (?m s1))) =>
    assert (Hk : keeps_world m) by worlds; apply Hk
  end.
Qed.

Lemma keeps_world_fmap_M {A B} (g : A → B) m :
  keeps_world m → keeps_world (fmap_M g m).
Proof. intros H. unfold fmap_M. worlds. Qed.

Lemma keeps_world_run c : keeps_world (run c).
Proof.
  destruct c; cbn [run]; apply keeps_world_fmap_M.
  - apply keeps_world_fopen.
  - apply keeps_world_still. intros s. unfold utl_file_is_open.
    by repeat case_match.
  - unfold utl_file_get_line, CHECK_LINESIZE. worlds.
  - unfold utl_file_get_nextline. worlds.
  - unfold utl_file_put. worlds.
  - unfold utl_file_put_line. worlds.
  - unfold utl_file_new_line. worlds.
  - unfold utl_file_putf. worlds.
  - unfold utl_file_fflush. worlds.
  - intros s. unfold utl_file_fclose. destruct (find_slot file s);
      [apply keeps_world_close_slot|apply grows_refl].
  - apply keeps_world_fclose_all_from.
  - unfold utl_file_fremove. worlds.
  - unfold utl_file_frename. worlds.
  - unfold utl_file_fgetattr. worlds. apply keeps_world_still.
    intros s. by repeat case_match.
  - apply keeps_world_still. done.
Qed.

(** ** The slots of a session *)

Lemma fopen_next path mode w file w1 :
  fopen path mode w = (inr file, w1) →
  file = next_file w ∧ next_file w1 = N.succ file ∧
  ∃ st, streams w1 = <[file := st]> (streams w).
Proof.
  unfold fopen. intros H.
  repeat (case_match; simplify_eq/=); eauto.
Qed.

(** What a call of [utl_file_fopen] that returns has gone through. *)
Lemma utl_file_fopen_inv arg0 arg1 arg2 arg3 s d s' :
  utl_file_fopen arg0 arg1 arg2 arg3 s = (Ok d, s') →
  ∃ location filename letter mode max_linesize fullname file w1 k,
    arg0 = Some location ∧ arg1 = Some filename ∧ arg2 = Some [letter] ∧
    arg3 = Some max_linesize ∧
    (1 ≤ max_linesize ≤ MAX_LINESIZE)%Z ∧
    mode_of_letter letter = Some mode ∧
    get_safe_path location filename s = (Ok fullname, s) ∧
    fopen fullname mode (os s) = (inr file, w1) ∧
    find_slot INVALID_SLOTID s = Some k ∧
    d = next_slotid (slotid s) ∧
    s' = {| slots := <[k := {| slot_file := file;
                               slot_max_linesize := max_linesize;
                               slot_id := d |}]> (slots s);
            slotid := d; os := w1 |}.
Proof.
  unfold utl_file_fopen.
  destruct arg0 as [location|], arg1 as [filename|], arg2 as [open_mode|],
    arg3 as [max_linesize|]; try done.
  unfold bind at 1 2 3 4; simpl.
  unfold NON_EMPTY_TEXT, CHECK_LINESIZE, when, bind at 1 2 3.
  destruct (length open_mode =? 0) eqn:Hlen0; [done|].
  destruct (_ || _) eqn:Hsize; [done|].
  destruct (negb _) eqn:Hlen1; [done|]. simpl.
  destruct open_mode as [|letter [|c2 rest]]; try done. simpl.
  destruct (mode_of_letter letter) as [mode|] eqn:Hmode; [|done].
  unfold bind at 1.
  pose proof (get_safe_path_session location filename s) as Hs.
  destruct (get_safe_path location filename s) as [[fullname|e] s0] eqn:Hpath;
    simpl in Hs; subst s0; [|done].
  unfold bind, sys.
  destruct (fopen fullname mode (os s)) as [[errno|file] w1] eqn:Hopen.
  { rewrite IO_EXCEPTION_eq. done. }
  unfold get_descriptor. rewrite get_descriptor_from_find.
  change (find_slot_from MAX_SLOTS 0 INVALID_SLOTID (set_os w1 s))
    with (find_slot INVALID_SLOTID s).
  destruct (find_slot INVALID_SLOTID s) as [k|] eqn:Hk; simpl.
  - destruct (Z.eqb_spec (next_slotid (slotid s)) INVALID_SLOTID) as [E|_].
    { by destruct (next_slotid_nonzero (slotid s)). }
    intros [= <- <-].
    exists location, filename, letter, mode, max_linesize, fullname, file, w1, k.
    apply orb_false_iff in Hsize as [H1 H2].
    split_and!; try done; lia.
  - by destruct (fclose file w1).
Qed.

Lemma same_or_cleared_same_table s s' : same_table s s' → same_or_cleared s s'.
Proof.
  intros [Hsl Hid]. split; [by rewrite Hsl|]. split; [done|].
  intros i _. left. unfold slot. by rewrite Hsl.
Qed.

Lemma close_slot_same_or_cleared i s :
  same_or_cleared s (snd (close_slot i s)).
Proof.
  destruct (close_slot_cases i s)
    as [(w & -> & _)|(w & errno & -> & _)]; simpl;
    [|by apply same_or_cleared_same_table].
  split; [unfold set_slot; simpl; by rewrite length_insert|]. split; [done|].
  intros j _. destruct (decide (j = i)) as [->|Hne].
  - destruct (decide (i < length (slots s))) as [Hi|Hi].
    + right. by rewrite slot_set_slot_eq.
    + left. unfold slot, set_slot; simpl. rewrite list_insert_ge; [done|lia].
  - left. by rewrite slot_set_slot_ne.
Qed.

Lemma fclose_same_or_cleared d s :
  same_or_cleared s (snd (utl_file_fclose d s)).
Proof.
  unfold utl_file_fclose. destruct (find_slot d s) as [i|].
  - apply close_slot_same_or_cleared.
  - by apply same_or_cleared_same_table.
Qed.

Lemma fclose_all_same_or_cleared s :
  length (slots s) = MAX_SLOTS →
  same_or_cleared s (snd (utl_file_fclose_all s)).
Proof.
  intros Hlen.
  destruct (fclose_all_spec s Hlen) as (k & Hk & H).
  destruct (utl_file_fclose_all s) as [r s']; simpl.
  destruct H as (Hid & Hl & _ & Hrec & Hun & _).
  split; [done|]. split; [done|].
  intros i Hi. destruct (decide (i < k)) as [Hik|Hik].
  - destruct (Hrec i Hik) as [E _]. rewrite E.
    destruct (decide (occupied s i)); [by right|by left].
  - left. apply Hun. lia.
Qed.

(** Every call leaves each slot as it was or cleared, unless it is a
    [utl_file_fopen] that returns a handle. *)
Lemma run_slots c s :
  length (slots s) = MAX_SLOTS →
  same_or_cleared s (snd (run c s)) ∨
  ∃ arg0 arg1 arg2 arg3 d,
    c = FOPEN arg0 arg1 arg2 arg3 ∧
    utl_file_fopen arg0 arg1 arg2 arg3 s = (Ok d, snd (run c s)).
Proof.
  intros Hlen.
  assert (Hk : ∀ A (m : M A) P, keeps_table m →
            same_or_cleared s (snd (m s)) ∨ P).
  { intros A m P Hm. left. apply same_or_cleared_same_table. by destruct (Hm s). }
  destruct c;
    try (assert (E : run FCLOSE_ALL = fmap_M (λ _, D_void) utl_file_fclose_all)
           by reflexivity; rewrite E);
    cbn [run]; rewrite fmap_M_snd.
  - pose proof (fopen_table location filename open_mode max_linesize s) as H.
    destruct (utl_file_fopen _ _ _ _ s) as [[d|e] s'] eqn:Hopen; simpl.
    + right. by exists location, filename, open_mode, max_linesize, d.
    + left. apply same_or_cleared_same_table. by destruct H.
  - apply Hk, keeps_table_is_open.
  - apply Hk, keeps_table_get_line_call.
  - apply Hk, keeps_table_get_nextline.
  - apply Hk, keeps_table_put.
  - apply Hk, keeps_table_put_line.
  - apply Hk, keeps_table_new_line.
  - apply Hk, keeps_table_putf.
  - apply Hk, keeps_table_fflush.
  - left. apply fclose_same_or_cleared.
  - left. by apply fclose_all_same_or_cleared.
  - apply Hk, keeps_table_fremove.
  - apply Hk, keeps_table_frename.
  - apply Hk, keeps_table_fgetattr.
  - apply Hk, keeps_table_tmpdir.
Qed.

Lemma session_ok_same_or_cleared s s' :
  same_or_cleared s s' → grows (os s) (os s') → session_ok s → session_ok s'.
Proof.
  intros (Hl & _ & Hsl) [Hnext Hw] (Hlen & Hok & Hfree & Hlt & Hshare).
  assert (Hkeep : ∀ i, i < MAX_SLOTS → occupied s' i →
            slot s' i = slot s i ∧ occupied s i).
  { intros i Hi Ho. destruct (Hsl i Hi) as [E|E].
    - split; [done|]. unfold occupied in *. by rewrite <- E.
    - unfold occupied in Ho. by rewrite E in Ho. }
  split; [by rewrite Hl|]. split; [by apply Hw|]. split; [|split].
  - intros i Hi. destruct (Hsl i Hi) as [->| ->]; [by apply Hfree|done].
  - intros i Hi Ho. destruct (Hkeep i Hi Ho) as [-> Ho'].
    specialize (Hlt i Hi Ho'). lia.
  - intros i j Hi Hj Hoi Hoj.
    destruct (Hkeep i Hi Hoi) as [-> ?], (Hkeep j Hj Hoj) as [-> ?].
    by apply Hshare.
Qed.

Lemma session_ok_fopen arg0 arg1 arg2 arg3 s d s' :
  utl_file_fopen arg0 arg1 arg2 arg3 s = (Ok d, s') →
  session_ok s → session_ok s'.
Proof.
  intros Hopen (Hlen & Hok & Hfree & Hlt & Hshare).
  apply utl_file_fopen_inv in Hopen
    as (location & filename & letter & mode & m & fullname & file & w1 & k
        & _ & _ & _ & _ & _ & _ & _ & Hf & Hk & Hd & ->).
  pose proof (tidy_fopen fullname mode (os s)) as [_ Hw].
  rewrite Hf in Hw. simpl in Hw.
  apply fopen_next in Hf as (Hfile & Hnext & _).
  apply find_slot_from_Some in Hk as (Hk & Hkfree & _).
  pose proof (next_slotid_nonzero (slotid s)) as Hnz. rewrite <- Hd in Hnz.
  destruct Hok as [H0 Hstreams].
  set (x := {| slot_file := file; slot_max_linesize := m; slot_id := d |}).
  set (s' := {| slots := <[k:=x]> (slots s); slotid := d; os := w1 |}).
  assert (Hsk : slot s' k = x).
  { unfold slot, s'; simpl. apply list_lookup_total_insert_eq. lia. }
  assert (Hso : ∀ i, i ≠ k → slot s' i = slot s i).
  { intros i ?. unfold slot, s'; simpl. by apply list_lookup_total_insert_ne. }
  split; [unfold s'; simpl; by rewrite length_insert|].
  split; [by apply Hw|]. split; [|split].
  - intros i Hi. destruct (decide (i = k)) as [->|Hik].
    + rewrite Hsk. simpl. split; [done|]. unfold NULL. lia.
    + rewrite Hso by done. by apply Hfree.
  - intros i Hi Ho. simpl. destruct (decide (i = k)) as [->|Hik].
    + rewrite Hsk. simpl. lia.
    + unfold occupied in Ho. rewrite Hso in * by done.
      specialize (Hlt i Hi Ho). lia.
  - assert (Hold : ∀ i, i < MAX_SLOTS → i ≠ k → occupied s' i →
              slot_file (slot s' i) ≠ file).
    { intros i Hi Hik Ho. unfold occupied in Ho. rewrite Hso in * by done.
      specialize (Hlt i Hi Ho). lia. }
    intros i j Hi Hj Hoi Hoj Heq.
    destruct (decide (i = k)) as [->|Hik], (decide (j = k)) as [->|Hjk]; [done|..].
    + exfalso. apply (Hold j Hj Hjk Hoj). by rewrite <- Heq, Hsk.
    + exfalso. apply (Hold i Hi Hik Hoi). by rewrite Heq, Hsk.
    + unfold occupied in Hoi, Hoj. rewrite !Hso in * by done. by apply Hshare.
Qed.

Lemma session_ok_run c s : session_ok s → session_ok (snd (run c s)).
Proof.
  intros Hok.
  destruct (run_slots c s) as [H|(a0 & a1 & a2 & a3 & d & _ & H)].
  - by destruct Hok.
  - eapply session_ok_same_or_cleared; [done|apply keeps_world_run|done].
  - by eapply session_ok_fopen.
Qed.

Lemma session_ok_run_all cs s : session_ok s → session_ok (run_all cs s).
Proof.
  revert s. induction cs as [|c cs IH]; intros s Hok; simpl; [done|].
  by apply IH, session_ok_run.
Qed.

Lemma slot_initial w i : i < MAX_SLOTS → slot (initial_session w) i = zero_slot.
Proof.
  intros Hi. change (replicate MAX_SLOTS zero_slot !!! i = zero_slot).
  by apply lookup_total_replicate_2.
Qed.

Lemma session_ok_initial w : world_ok w → session_ok (initial_session w).
Proof.
  intros Hw. split; [done|]. split; [done|]. split; [|split].
  - intros i Hi. by rewrite slot_initial.
  - intros i Hi Ho. unfold occupied in Ho. by rewrite slot_initial in Ho.
  - intros i j Hi _ Ho. unfold occupied in Ho. by rewrite slot_initial in Ho.
Qed.

(** X1: from a fresh backend, whatever calls of the package are made, the
    table keeps its 50 slots and a slot is free ([id] 0) exactly when its
    [file] is [NULL]. *)
Theorem reachable_sessions_are_consistent w cs :
  world_ok w →
  length (slots (run_all cs (initial_session w))) = MAX_SLOTS ∧
  free_iff_null (run_all cs (initial_session w)).
Proof.
  intros Hw.
  destruct (session_ok_run_all cs _ (session_ok_initial w Hw))
    as (Hlen & _ & Hfree & _).
  done.
Qed.

(** ** Handles *)

Lemma find_slot_Some d s k :
  find_slot d s = Some k →
  k < MAX_SLOTS ∧ slot_id (slot s k) = d ∧
  ∀ j, j < k → slot_id (slot s j) ≠ d.
Proof.
  intros H. apply find_slot_from_Some in H as (Hk & Hd & Hlt).
  split; [lia|]. split; [done|]. intros j Hj. apply Hlt. lia.
Qed.

Lemma find_slot_None d s :
  find_slot d s = None ↔ ∀ i, i < MAX_SLOTS → slot_id (slot s i) ≠ d.
Proof.
  split.
  - intros H i Hi. apply (find_slot_from_None _ _ _ _ H). lia.
  - intros H. destruct (find_slot d s) as [k|] eqn:E; [|done].
    apply find_slot_Some in E as (Hk & Hd & _). by destruct (H k Hk).
Qed.

Lemma find_slot_from_ext n i d s s' :
  (∀ j, i ≤ j < i + n →
     (slot_id (slot s' j) =? d)%Z = (slot_id (slot s j) =? d)%Z) →
  find_slot_from n i d s' = find_slot_from n i d s.
Proof.
  revert i. induction n as [|n IH]; intros i H; simpl; [done|].
  rewrite H by lia. rewrite IH; [done|]. intros j Hj. apply H. lia.
Qed.

(** [get_stream] raises for a handle that names nothing, and returns what
    the first slot with this id holds for any other. *)
Lemma get_stream_cases d s :
  (dead_handle (Some d) s ∧
   get_stream d s = (Raise (RAISE_EXCEPTION INVALID_FILEHANDLE), s)) ∨
  (∃ k, d ≠ INVALID_SLOTID ∧ find_slot d s = Some k ∧
        get_stream d s
        = (Ok (slot_file (slot s k), slot_max_linesize (slot s k)), s)).
Proof.
  unfold get_stream, dead_handle.
  destruct (Z.eqb_spec d INVALID_SLOTID) as [->|Hne]; [left; split; [by left|done]|].
  destruct (find_slot d s) as [k|] eqn:E.
  - right. by exists k.
  - left. split; [|done]. right. by apply find_slot_None.
Qed.

Lemma get_stream_found d k s :
  d ≠ INVALID_SLOTID → find_slot d s = Some k →
  get_stream d s
  = (Ok (slot_file (slot s k), slot_max_linesize (slot s k)), s).
Proof.
  intros Hne Hk. unfold get_stream.
  destruct (Z.eqb_spec d INVALID_SLOTID); [done|]. by rewrite Hk.
Qed.

Lemma get_stream_dead d s :
  dead_handle (Some d) s →
  get_stream d s = (Raise (RAISE_EXCEPTION INVALID_FILEHANDLE), s).
Proof.
  intros Hdead. destruct (get_stream_cases d s) as [[_ ?]|(k & Hne & Hk & _)];
    [done|].
  apply find_slot_Some in Hk as (Hk & Hd & _).
  destruct Hdead as [?|H]; [done|]. by destruct (H k Hk).
Qed.

Lemma get_stream_live d s f max_linesize :
  fst (get_stream d s) = Ok (f, max_linesize) →
  ∃ k, d ≠ INVALID_SLOTID ∧ find_slot d s = Some k ∧
       slot_file (slot s k) = f ∧ slot_max_linesize (slot s k) = max_linesize.
Proof.
  intros H. destruct (get_stream_cases d s) as [[_ E]|(k & Hne & Hk & E)];
    rewrite E in H; [done|].
  injection H as <- <-. by exists k.
Qed.

(** Handles resolve alike in two sessions whose slots differ only in ids
    that are neither of them the handle. *)
Lemma get_stream_ext d s s' :
  (∀ i, i < MAX_SLOTS →
     slot s' i = slot s i ∨
     (slot_id (slot s' i) ≠ d ∧ slot_id (slot s i) ≠ d)) →
  fst (get_stream d s') = fst (get_stream d s).
Proof.
  intros H. unfold get_stream. destruct (d =? INVALID_SLOTID)%Z; [done|].
  assert (E : find_slot d s' = find_slot d s).
  { apply find_slot_from_ext. intros j Hj.
    destruct (H j) as [->|[H1 H2]]; [lia|done|].
    apply Z.eqb_neq in H1, H2. by rewrite H1, H2. }
  rewrite E. destruct (find_slot d s) as [k|] eqn:Hk; [|done].
  apply find_slot_Some in Hk as (Hk & Hd & _).
  destruct (H k Hk) as [->|[_ ?]]; done.
Qed.

Lemma is_open_cases arg0 s :
  utl_file_is_open arg0 s
  = (Ok (match arg0 with
         | Some d =>
           match find_slot d s with
           | Some i => negb (slot_file (slot s i) =? NULL)%N
           | None => false
           end
         | None => false
         end), s).
Proof. unfold utl_file_is_open. by repeat case_match. Qed.

(** X2: [utl_file_is_open] never raises and never changes the session, and
    in a session whose free slots are the ones without a stream it answers
    true exactly for the handles that [get_stream] resolves, that is, the
    handles the I/O calls accept. *)
Theorem is_open_tells_valid_handles arg0 s :
  free_iff_null s →
  ∃ b, utl_file_is_open arg0 s = (Ok b, s) ∧
       (b = true ↔
        ∃ d f max_linesize,
          arg0 = Some d ∧ get_stream d s = (Ok (f, max_linesize), s)).
Proof.
  intros Hfree. rewrite is_open_cases. eexists. split; [done|].
  destruct arg0 as [d|]; [|split; [done|by intros (? & ? & ? & ? & _)]].
  destruct (get_stream_cases d s) as [[Hdead E]|(k & Hne & Hk & E)].
  - split; [|intros (d' & f & m & [= <-] & E'); by rewrite E in E'].
    destruct (find_slot d s) as [k|] eqn:Hk; [|done].
    apply find_slot_Some in Hk as (Hk & Hd & _).
    destruct Hdead as [->|H]; [|by destruct (H k Hk)].
    apply Hfree in Hd; [|done]. rewrite Hd. done.
  - rewrite Hk. split; [intros _; by eexists _, _, _|]. intros _.
    apply find_slot_Some in Hk as (Hk & Hd & _).
    apply negb_true_iff, N.eqb_neq. intros Hnull.
    apply Hfree in Hnull; [|done]. congruence.
Qed.

(** X3: for a handle that is NULL, 0, or an id that no slot holds, every
    call that reads, writes or flushes raises INVALID_FILEHANDLE, whatever
    its other arguments are, and leaves the session as it was. *)
Theorem io_calls_reject_dead_handle arg0 s :
  dead_handle arg0 s →
  (∀ len, utl_file_get_line arg0 len s
          = (Raise (RAISE_EXCEPTION INVALID_FILEHANDLE), s)) ∧
  utl_file_get_nextline arg0 s
  = (Raise (RAISE_EXCEPTION INVALID_FILEHANDLE), s) ∧
  (∀ buffer, utl_file_put arg0 buffer s
             = (Raise (RAISE_EXCEPTION INVALID_FILEHANDLE), s)) ∧
  (∀ buffer autoflush,
     utl_file_put_line arg0 buffer autoflush s
     = (Raise (RAISE_EXCEPTION INVALID_FILEHANDLE), s)) ∧
  (∀ lines, utl_file_new_line arg0 lines s
            = (Raise (RAISE_EXCEPTION INVALID_FILEHANDLE), s)) ∧
  (∀ format args,
     utl_file_putf arg0 format args s
     = (Raise (RAISE_EXCEPTION INVALID_FILEHANDLE), s)) ∧
  utl_file_fflush arg0 s = (Raise (RAISE_EXCEPTION INVALID_FILEHANDLE), s).
Proof.
  intros Hdead.
  unfold utl_file_get_line, utl_file_get_nextline, utl_file_put,
    utl_file_put_line, utl_file_new_line, utl_file_putf, utl_file_fflush,
    do_put.
  destruct arg0 as [d|]; [|by split_and!].
  apply get_stream_dead in Hdead.
  unfold bind, CHECK_FILE_HANDLE, ret. rewrite Hdead. by split_and!.
Qed.

Lemma set_slot_same i s :
  i < length (slots s) → set_slot i (slot s i) s = s.
Proof.
  intros Hi. unfold set_slot, slot. rewrite list_insert_id; [by destruct s|].
  by apply list_lookup_lookup_total_lt.
Qed.

(** [close_slot] on a free slot that holds no stream does nothing. *)
Lemma close_slot_free i s :
  i < length (slots s) →
  slot_id (slot s i) = INVALID_SLOTID → slot_file (slot s i) = NULL →
  close_slot i s = (Ok tt, s).
Proof.
  intros Hi Hid Hfile. unfold close_slot. rewrite Hfile. simpl.
  rewrite <- (set_slot_same i s Hi) at 3. do 2 f_equal.
  destruct (slot s i); simpl in *. by subst.
Qed.

(** X4: [utl_file_fclose] has no test for [INVALID_SLOTID]: called with 0
    it finds the first free slot and clears it again, so as long as the
    table has a free slot the call returns normally and changes nothing;
    only with all 50 slots occupied does it raise INVALID_FILEHANDLE. *)
Theorem fclose_of_handle_zero s :
  length (slots s) = MAX_SLOTS → free_iff_null s →
  (¬ table_full s → utl_file_fclose INVALID_SLOTID s = (Ok tt, s)) ∧
  (table_full s →
   utl_file_fclose INVALID_SLOTID s
   = (Raise (RAISE_EXCEPTION INVALID_FILEHANDLE), s)).
Proof.
  intros Hlen Hfree. unfold utl_file_fclose. split.
  - intros Hnot. destruct (find_slot INVALID_SLOTID s) as [k|] eqn:Hk.
    + apply find_slot_Some in Hk as (Hk & Hd & _).
      apply close_slot_free; [lia|done|by apply Hfree].
    + by apply find_slot_not_full in Hk.
  - intros Hfull. by rewrite find_slot_full.
Qed.

(** X5: after [utl_file_fclose] has returned for a handle that one slot
    holds, the handle names nothing any more: [get_stream] and a second
    [utl_file_fclose] raise INVALID_FILEHANDLE and [utl_file_is_open]
    answers false.  The stream of the handle is closed and no other stream
    is; every other handle resolves as before, and the id counter is not
    set back. *)
Theorem fclose_invalidates_handle d s s' :
  length (slots s) = MAX_SLOTS → unique_ids s → d ≠ INVALID_SLOTID →
  utl_file_fclose d s = (Ok tt, s') →
  ∃ f max_linesize,
    get_stream d s = (Ok (f, max_linesize), s) ∧
    get_stream d s' = (Raise (RAISE_EXCEPTION INVALID_FILEHANDLE), s') ∧
    utl_file_is_open (Some d) s' = (Ok false, s') ∧
    utl_file_fclose d s' = (Raise (RAISE_EXCEPTION INVALID_FILEHANDLE), s') ∧
    (f ≠ NULL → streams (os s') !! f = None) ∧
    (∀ f', f' ≠ f → streams (os s') !! f' = streams (os s) !! f') ∧
    (∀ d', d' ≠ d → fst (get_stream d' s') = fst (get_stream d' s)) ∧
    slotid s' = slotid s.
Proof.
  intros Hlen Huniq Hne Hclose. unfold utl_file_fclose in Hclose.
  destruct (find_slot d s) as [k|] eqn:Hk; [|done].
  pose proof Hk as Hk'. apply find_slot_Some in Hk' as (Hklt & Hd & _).
  destruct (close_slot_cases k s)
    as [(w & E & _ & Hw)|(w & errno & E & _)]; rewrite E in Hclose; [|done].
  injection Hclose as <-.
  set (s' := set_slot k (cleared (slot s k)) (set_os w s)).
  assert (Hsk : slot s' k = cleared (slot s k)).
  { unfold s'. rewrite slot_set_slot_eq; [done|simpl; lia]. }
  assert (Hso : ∀ i, i ≠ k → slot s' i = slot s i).
  { intros i ?. unfold s'. by rewrite slot_set_slot_ne. }
  assert (Hgone : ∀ i, i < MAX_SLOTS → slot_id (slot s' i) ≠ d).
  { intros i Hi. destruct (decide (i = k)) as [->|Hik].
    - rewrite Hsk. simpl. done.
    - rewrite Hso by done. intros Hid. apply Hik. symmetry.
      apply Huniq; [done..| |congruence]. unfold occupied. congruence. }
  assert (Hdead : dead_handle (Some d) s') by (by right).
  exists (slot_file (slot s k)), (slot_max_linesize (slot s k)).
  split; [by apply get_stream_found|].
  split; [by apply get_stream_dead|].
  split; [rewrite is_open_cases; by rewrite (proj2 (find_slot_None d s') Hgone)|].
  split; [unfold utl_file_fclose; by rewrite (proj2 (find_slot_None d s') Hgone)|].
  split; [|split; [|split; [|done]]].
  - intros Hnn. simpl. rewrite Hw.
    destruct (N.eqb_spec (slot_file (slot s k)) NULL); [done|].
    apply lookup_delete_eq.
  - intros f' Hf'. simpl. rewrite Hw.
    destruct (slot_file (slot s k) =? NULL)%N; [done|].
    by rewrite lookup_delete_ne.
  - intros d' Hd'.
    destruct (decide (d' = INVALID_SLOTID)) as [->|Hd0]; [done|].
    apply get_stream_ext. intros i Hi.
    destruct (decide (i = k)) as [->|Hik]; [right|left; by apply Hso].
    rewrite Hsk, Hd. simpl. split; congruence.
Qed.

(** While the counter has not gone all the way round, the id it gives
    next is held by no slot. *)
Lemma table_inv_fresh n s :
  table_inv n s → (n < 2 ^ 32 - 1)%Z →
  ∀ i, i < MAX_SLOTS → slot_id (slot s i) ≠ next_slotid (slotid s).
Proof.
  intros (_ & Hr & Hn & Hocc & _) Hlt i Hi E.
  destruct (uint32_next (slotid s)) as [_ Hu]; [done|lia|].
  assert (Ho : occupied s i).
  { unfold occupied. rewrite E. apply next_slotid_nonzero. }
  destruct (Hocc i Hi Ho) as [_ Hle]. rewrite E, Hu in Hle. lia.
Qed.

(** X6: a handle that [utl_file_fopen] returns resolves, in the session
    the call leaves, to the stream just opened and to the [max_linesize]
    given; the stream is open, it is none of the streams open before, and
    [utl_file_is_open] answers true.  Every other handle resolves as it
    did before the call.  This holds in every session a fresh backend
    reaches by calls of which fewer than 2^32 - 1 are [utl_file_fopen]. *)
Theorem fopen_handle_resolves w cs arg0 arg1 arg2 arg3 d s' :
  world_ok w →
  (fopen_calls cs < 2 ^ 32 - 1)%Z →
  utl_file_fopen arg0 arg1 arg2 arg3 (run_all cs (initial_session w))
  = (Ok d, s') →
  let s := run_all cs (initial_session w) in
  ∃ f max_linesize,
    arg3 = Some max_linesize ∧
    (1 ≤ max_linesize ≤ MAX_LINESIZE)%Z ∧
    get_stream d s' = (Ok (f, max_linesize), s') ∧
    is_Some (streams (os s') !! f) ∧
    streams (os s) !! f = None ∧
    (∀ f', f' ≠ f → streams (os s') !! f' = streams (os s) !! f') ∧
    utl_file_is_open (Some d) s' = (Ok true, s') ∧
    (∀ d', d' ≠ d → fst (get_stream d' s') = fst (get_stream d' s)).
Proof.
  intros Hw Hn Hopen s. fold s in Hopen.
  assert (Hinv : table_inv (fopen_calls cs) s).
  { apply (table_inv_run_all cs 0 (initial_session w) (table_inv_initial w)).
    lia. }
  pose proof (session_ok_run_all cs _ (session_ok_initial w Hw)) as Hok.
  fold s in Hok.
  pose proof (table_inv_fresh _ _ Hinv Hn) as Hfresh.
  apply utl_file_fopen_inv in Hopen
    as (location & filename & letter & mode & m & fullname & file & w1 & k
        & _ & _ & _ & -> & Hm & _ & _ & Hf & Hk & Hd & Hs').
  rewrite <- Hd in Hfresh.
  apply fopen_next in Hf as (Hfile & Hnext & st & Hst).
  apply find_slot_Some in Hk as (Hk & Hkfree & _).
  destruct Hok as (Hlen & [H0 Hstreams] & _).
  pose proof (next_slotid_nonzero (slotid s)) as Hnz. rewrite <- Hd in Hnz.
  set (x := {| slot_file := file; slot_max_linesize := m; slot_id := d |}) in *.
  assert (Hsk : slot s' k = x).
  { rewrite Hs'. unfold slot; simpl. apply list_lookup_total_insert_eq. lia. }
  assert (Hso : ∀ i, i ≠ k → slot s' i = slot s i).
  { intros i ?. rewrite Hs'. unfold slot; simpl.
    by apply list_lookup_total_insert_ne. }
  assert (Hfind : find_slot d s' = Some k).
  { apply find_slot_first; [done|by rewrite Hsk|].
    intros j Hj. rewrite Hso by lia. apply Hfresh. lia. }
  exists file, m. split; [done|]. split; [done|].
  split; [rewrite (get_stream_found d k s' Hnz Hfind); by rewrite Hsk|].
  assert (Hos : streams (os s') = <[file := st]> (streams (os s))).
  { by rewrite Hs'. }
  split; [rewrite Hos, lookup_insert_eq; by eexists|].
  split.
  { destruct (streams (os s) !! file) eqn:E; [|done].
    assert (Hlt : (0 < file < next_file (os s))%N) by (apply Hstreams; by eexists).
    lia. }
  split; [intros f' Hf'; by rewrite Hos, lookup_insert_ne|].
  split.
  { rewrite is_open_cases, Hfind, Hsk. simpl.
    destruct (N.eqb_spec file NULL) as [E|_]; [|done]. unfold NULL in E. lia. }
  intros d' Hd'.
  destruct (decide (d' = INVALID_SLOTID)) as [->|Hd0]; [done|].
  apply get_stream_ext. intros i Hi.
  destruct (decide (i = k)) as [->|Hik]; [right|left; by apply Hso].
  rewrite Hsk. simpl. split; congruence.
Qed.

Lemma fmap_M_Ok {A B} (g : A → B) m s b s1 :
  fmap_M g m s = (Ok b, s1) → ∃ a, m s = (Ok a, s1) ∧ b = g a.
Proof.
  unfold fmap_M, bind, ret. destruct (m s) as [[a|e] s0]; [|done].
  intros [= <- <-]. by exists a.
Qed.

(** Only [utl_file_fopen] returns an [int32]. *)
Lemma run_int32 c s d s1 :
  run c s = (Ok (D_int32 d), s1) →
  ∃ arg0 arg1 arg2 arg3,
    c = FOPEN arg0 arg1 arg2 arg3 ∧
    utl_file_fopen arg0 arg1 arg2 arg3 s = (Ok d, s1).
Proof.
  destruct c; cbn [run]; intros H; apply fmap_M_Ok in H as (a & Ha & E);
    try discriminate E.
  - injection E as ->. by eexists _, _, _, _.
  - by destruct a.
  - by destruct a as [[? ?] ?].
Qed.

(** The counter only moves when [utl_file_fopen] returns a handle, and
    then to that handle. *)
Lemma run_slotid c s :
  length (slots s) = MAX_SLOTS →
  slotid (snd (run c s)) = slotid s ∨
  ∃ d, fst (run c s) = Ok (D_int32 d) ∧ d = next_slotid (slotid s) ∧
       slotid (snd (run c s)) = d.
Proof.
  intros Hlen.
  destruct (run_slots c s Hlen) as [(_ & Hid & _)|(a0 & a1 & a2 & a3 & d & -> & H)];
    [by left|].
  right. exists d. cbn [run] in *. rewrite fmap_M_snd in H.
  unfold fmap_M, bind, ret.
  destruct (utl_file_fopen a0 a1 a2 a3 s) as [r s1] eqn:Hopen.
  simpl in H. injection H as ->. simpl.
  apply utl_file_fopen_inv in Hopen
    as (? & ? & ? & ? & ? & ? & ? & ? & ? & _ & _ & _ & _ & _ & _ & _ & _ & _
        & Hd & ->).
  done.
Qed.

Lemma issued_spec cs n s :
  table_inv n s → (n + fopen_calls cs < 2 ^ 32)%Z →
  NoDup (issued cs s) ∧
  ∀ d, d ∈ issued cs s →
    d ≠ INVALID_SLOTID ∧ (- 2 ^ 31 ≤ d < 2 ^ 31)%Z ∧
    (uint32 (slotid s) < uint32 d)%Z.
Proof.
  revert n s. induction cs as [|c cs IH]; intros n s Hinv Hn.
  { split; [constructor|]. intros d Hd. by apply elem_of_nil in Hd. }
  pose proof (fopen_calls_nonneg cs) as Hnn.
  cbn [issued fopen_calls] in *.
  assert (Hlen : length (slots s) = MAX_SLOTS) by (by destruct Hinv).
  pose proof (table_inv_run c n s Hinv) as Hinv1.
  destruct (IH (n + (if is_fopen c then 1 else 0))%Z (snd (run c s))) as [Hnd Hall].
  { apply Hinv1. destruct (is_fopen c); lia. }
  { lia. }
  assert (Hmono : (uint32 (slotid s) ≤ uint32 (slotid (snd (run c s))))%Z ∧
            ∀ d, fst (run c s) = Ok (D_int32 d) →
              d ≠ INVALID_SLOTID ∧ (- 2 ^ 31 ≤ d < 2 ^ 31)%Z ∧
              (uint32 (slotid s) < uint32 d)%Z ∧ slotid (snd (run c s)) = d).
  { destruct (run_slotid c s Hlen) as [E|(d & Hr & Hd & E)].
    - rewrite E. split; [lia|]. intros d Hr.
      destruct (run c s) as [r s1] eqn:Hrun. simpl in *. subst r.
      apply run_int32 in Hrun as (a0 & a1 & a2 & a3 & -> & Hopen).
      apply utl_file_fopen_inv in Hopen
        as (? & ? & ? & ? & ? & ? & ? & ? & ? & _ & _ & _ & _ & _ & _ & _ & _ & _
            & Hd & ->).
      simpl in E. pose proof (next_slotid_nonzero (slotid s)) as Hnz.
      destruct Hinv as (_ & Hr & Hu & _).
      destruct (uint32_next (slotid s)) as [_ Hu']; [done|simpl in Hn; lia|].
      rewrite <- Hd in Hu'. rewrite <- E in Hu'. lia.
    - assert (Hc : is_fopen c = true).
      { destruct (run c s) as [r s1] eqn:Hrun. simpl in Hr. subst r.
        by apply run_int32 in Hrun as (? & ? & ? & ? & -> & _). }
      rewrite Hc in Hn.
      destruct Hinv as (_ & Hr' & Hu & _).
      destruct (uint32_next (slotid s)) as [_ Hu']; [done|lia|].
      rewrite <- Hd in Hu'. rewrite E. split; [lia|].
      intros d' Hr2. rewrite Hr in Hr2. injection Hr2 as <-.
      split; [rewrite Hd; apply next_slotid_nonzero|].
      split; [rewrite Hd; apply next_slotid_range|]. split; [lia|done]. }
  destruct Hmono as [Hle Hnew].
  destruct (run c s) as [[[d| | | | |]|e] s1] eqn:Hrun; simpl in *;
    try (split; [done|]; intros d' Hd'; destruct (Hall d' Hd') as (? & ? & ?);
         split; [done|]; split; [done|lia]).
  destruct (Hnew d eq_refl) as (Hnz & Hrange & Hlt & Hid).
  split.
  - constructor; [|done]. intros Hin. destruct (Hall d Hin) as (_ & _ & Hgt).
    rewrite Hid in Hgt. lia.
  - intros d' Hd'. apply elem_of_cons in Hd' as [->|Hd']; [done|].
    destruct (Hall d' Hd') as (? & ? & ?). split; [done|]. split; [done|lia].
Qed.

(** X7: the handles that [utl_file_fopen] returns in the course of a
    session are pairwise different and never 0, as long as fewer than 2^32
    calls of it have been made: the id of a handle that has been closed is
    not given to a file opened later. *)
Theorem issued_handles_never_repeat w cs :
  (fopen_calls cs < 2 ^ 32)%Z →
  NoDup (issued cs (initial_session w)) ∧
  ∀ d, d ∈ issued cs (initial_session w) → d ≠ INVALID_SLOTID.
Proof.
  intros Hn.
  destruct (issued_spec cs 0 (initial_session w) (table_inv_initial w)) as [Hnd Hall];
    [lia|].
  split; [done|]. intros d Hd. by destruct (Hall d Hd).
Qed.

(** ** Closing every handle *)

Lemma fclose_all_from_free n i s :
  (∀ j, i ≤ j < i + n → slot_id (slot s j) = INVALID_SLOTID) →
  fclose_all_from n i s = (Ok tt, s).
Proof.
  revert i. induction n as [|n IH]; intros i H; simpl; [done|].
  rewrite H by lia. simpl. apply IH. intros j Hj. apply H. lia.
Qed.

(** X8: once [utl_file_fclose_all] has returned, no handle names anything:
    [get_stream] raises INVALID_FILEHANDLE and [utl_file_is_open] answers
    false for every handle, the stream of every handle that was open is
    closed, and a second [utl_file_fclose_all] returns without a change.
    The id counter stays where it was. *)
Theorem fclose_all_leaves_no_handle s s' :
  length (slots s) = MAX_SLOTS → free_iff_null s →
  utl_file_fclose_all s = (Ok tt, s') →
  (∀ d, get_stream d s' = (Raise (RAISE_EXCEPTION INVALID_FILEHANDLE), s')) ∧
  (∀ arg0, utl_file_is_open arg0 s' = (Ok false, s')) ∧
  (∀ i, i < MAX_SLOTS → occupied s i →
     streams (os s') !! slot_file (slot s i) = None) ∧
  utl_file_fclose_all s' = (Ok tt, s') ∧
  slotid s' = slotid s.
Proof.
  intros Hlen Hfree Hclose.
  destruct (fclose_all_spec s Hlen) as (k & Hk & H).
  rewrite Hclose in H. destruct H as (Hid & Hl & _ & Hrec & _ & ->).
  assert (Hslot : ∀ i, i < MAX_SLOTS →
            slot_id (slot s' i) = INVALID_SLOTID ∧ slot_file (slot s' i) = NULL).
  { intros i Hi. destruct (Hrec i Hi) as [-> _].
    destruct (decide (occupied s i)) as [Ho|Ho]; [done|].
    assert (E : slot_id (slot s i) = INVALID_SLOTID).
    { unfold occupied in Ho.
      by destruct (decide (slot_id (slot s i) = INVALID_SLOTID)). }
    split; [done|]. by apply Hfree. }
  split; [|split; [|split; [|split; [|done]]]].
  - intros d. apply get_stream_dead.
    destruct (decide (d = INVALID_SLOTID)) as [->|Hne]; [by left|right].
    intros i Hi. destruct (Hslot i Hi) as [-> _]. done.
  - intros arg0. rewrite is_open_cases. destruct arg0 as [d|]; [|done].
    destruct (find_slot d s') as [i|] eqn:Hi; [|done].
    apply find_slot_Some in Hi as (Hi & _). destruct (Hslot i Hi) as [_ ->]. done.
  - intros i Hi Ho. destruct (Hrec i Hi) as [_ Hc]. apply Hc; [done|].
    intros Hnull. apply Ho. by apply Hfree.
  - unfold utl_file_fclose_all. apply fclose_all_from_free.
    intros j Hj. apply Hslot. lia.
Qed.

(** ** Arguments and paths *)

(** X9: [utl_file_fopen] looks at its arguments before it looks at the
    path: a NULL argument raises NULL_VALUE_NOT_ALLOWED for the first one
    that is NULL, and with a mode that is not empty a [max_linesize]
    outside 1 .. 32767 raises INVALID_MAXLINESIZE, whatever the mode
    letter and the path are; in both cases the session is as before.  A
    call that returns a handle was given four arguments that are not NULL,
    a mode of one letter and a [max_linesize] in 1 .. 32767. *)
Theorem fopen_checks_arguments_first location filename open_mode max_linesize s :
  (∀ arg1 arg2 arg3,
     utl_file_fopen None arg1 arg2 arg3 s
     = (Raise (NULL_VALUE_NOT_ALLOWED 0), s)) ∧
  (∀ arg2 arg3,
     utl_file_fopen (Some location) None arg2 arg3 s
     = (Raise (NULL_VALUE_NOT_ALLOWED 1), s)) ∧
  (∀ arg3,
     utl_file_fopen (Some location) (Some filename) None arg3 s
     = (Raise (NULL_VALUE_NOT_ALLOWED 2), s)) ∧
  utl_file_fopen (Some location) (Some filename) (Some open_mode) None s
  = (Raise (NULL_VALUE_NOT_ALLOWED 3), s) ∧
  (open_mode ≠ [] → (max_linesize < 1 ∨ 32767 < max_linesize)%Z →
   utl_file_fopen (Some location) (Some filename) (Some open_mode)
                  (Some max_linesize) s
   = (Raise (RAISE_EXCEPTION INVALID_MAXLINESIZE), s)) ∧
  (∀ arg0 arg1 arg2 arg3 d s',
     utl_file_fopen arg0 arg1 arg2 arg3 s = (Ok d, s') →
     is_Some arg0 ∧ is_Some arg1 ∧
     (∃ letter, arg2 = Some [letter]) ∧
     (∃ m, arg3 = Some m ∧ (1 ≤ m ≤ 32767)%Z)).
Proof.
  split; [done|]. split; [done|]. split; [done|]. split; [done|]. split.
  - intros Hmode Hsize. unfold utl_file_fopen.
    unfold bind at 1 2 3 4; simpl.
    unfold NON_EMPTY_TEXT, CHECK_LINESIZE, when, bind at 1 2.
    destruct open_mode as [|c rest]; [done|]. simpl.
    replace ((max_linesize <? 1)%Z || (max_linesize >? MAX_LINESIZE)%Z)
      with true; [done|].
    symmetry. apply orb_true_iff. unfold MAX_LINESIZE. lia.
  - intros arg0 arg1 arg2 arg3 d s' Hopen.
    apply utl_file_fopen_inv in Hopen
      as (? & ? & letter & ? & m & ? & ? & ? & ? & -> & -> & -> & -> & Hm & _).
    split; [done|]. split; [done|]. split; [by exists letter|].
    exists m. split; [done|]. unfold MAX_LINESIZE in Hm. lia.
Qed.

(** X10: a path that [get_safe_path] rejects is never handed to the
    operating system: with it [utl_file_fremove] and [utl_file_fgetattr]
    raise the error of [get_safe_path], [utl_file_fopen] and
    [utl_file_frename] (with the path as source or as destination) raise
    as well, and all of them leave the session, with its files and
    streams, exactly as it was. *)
Theorem rejected_path_touches_nothing location filename e s :
  fst (get_safe_path location filename s) = Raise e →
  (∀ arg2 arg3,
     ∃ e', utl_file_fopen (Some location) (Some filename) arg2 arg3 s
           = (Raise e', s)) ∧
  utl_file_fremove (Some location) (Some filename) s = (Raise e, s) ∧
  utl_file_fgetattr (Some location) (Some filename) s = (Raise e, s) ∧
  (∀ arg2 arg3 arg4,
     ∃ e', utl_file_frename (Some location) (Some filename) arg2 arg3 arg4 s
           = (Raise e', s)) ∧
  (∀ arg0 arg1 arg4,
     ∃ e', utl_file_frename arg0 arg1 (Some location) (Some filename) arg4 s
           = (Raise e', s)).
Proof.
  intros Hbad.
  assert (Hbad' : get_safe_path location filename s = (Raise e, s)).
  { pose proof (get_safe_path_session location filename s) as Hs.
    destruct (get_safe_path location filename s); simpl in *. congruence. }
  clear Hbad. rename Hbad' into Hbad.
  split; [|split; [|split; [|split]]].
  - intros arg2 arg3. unfold utl_file_fopen.
    destruct arg2 as [open_mode|], arg3 as [max_linesize|];
      try (by eexists).
    unfold bind at 1 2 3 4; simpl.
    unfold NON_EMPTY_TEXT, CHECK_LINESIZE, when, bind at 1 2 3.
    destruct (length open_mode =? 0); [by eexists|].
    destruct (_ || _); [by eexists|].
    destruct (negb _); [by eexists|]. simpl.
    destruct (mode_of_letter _); [|by eexists].
    unfold bind at 1. rewrite Hbad. by eexists.
  - unfold utl_file_fremove. unfold bind at 1 2; simpl.
    unfold bind. by rewrite Hbad.
  - unfold utl_file_fgetattr. unfold bind at 1 2; simpl.
    unfold bind. by rewrite Hbad.
  - intros arg2 arg3 arg4. unfold utl_file_frename.
    destruct arg2, arg3; try (by eexists).
    unfold bind at 1 2 3 4; simpl. unfold bind at 1. rewrite Hbad. by eexists.
  - intros arg0 arg1 arg4. unfold utl_file_frename.
    destruct arg0 as [l0|], arg1 as [f0|]; try (by eexists).
    unfold bind at 1 2 3 4; simpl. unfold bind at 1.
    pose proof (get_safe_path_session l0 f0 s) as Hs.
    destruct (get_safe_path l0 f0 s) as [[p|e0] s0]; simpl in Hs; subst s0;
      [|by eexists].
    unfold bind at 1. rewrite Hbad. by eexists.
Qed.

Lemma get_safe_path_dirs location filename s s' :
  utl_file_dir (os s') = utl_file_dir (os s) →
  fst (get_safe_path location filename s')
  = fst (get_safe_path location filename s).
Proof.
  intros E. unfold get_safe_path, NON_EMPTY_TEXT, when, bind.
  destruct (length location =? 0); [done|].
  destruct (length filename =? 0); [done|]. simpl.
  unfold check_secure_locality. case_bool_decide; [done|].
  rewrite E. destruct (utl_file_dir (os s)) as [dirs|]; [|done].
  by destruct (SPI_processed _ dirs =? 0).
Qed.

(** X11: on a path that [get_safe_path] accepts, [utl_file_fremove]
    raises what [IO_EXCEPTION] makes of the [errno] of [stat] when the
    file cannot be removed (INVALID_PATH for a file that is not there),
    with the session as before.  When the file is there it is removed and
    nothing else is touched: the other files, the open streams -- also one
    that was opened on this file -- and the handle table stay; afterwards
    [utl_file_fgetattr] reports that the file does not exist and a second
    [utl_file_fremove] raises INVALID_PATH. *)
Theorem fremove_removes_the_file location filename fullname s :
  fst (get_safe_path location filename s) = Ok fullname →
  (∀ errno, stat fullname (os s) = Some errno →
     utl_file_fremove (Some location) (Some filename) s
     = (Raise (io_error errno), s)) ∧
  (stat fullname (os s) = None →
   ∃ s',
     utl_file_fremove (Some location) (Some filename) s = (Ok tt, s') ∧
     files (os s') = delete fullname (files (os s)) ∧
     streams (os s') = streams (os s) ∧
     same_table s s' ∧
     utl_file_fgetattr (Some location) (Some filename) s'
     = (Ok (false, None, None), s') ∧
     utl_file_fremove (Some location) (Some filename) s'
     = (Raise (RAISE_EXCEPTION INVALID_PATH), s')).
Proof.
  intros Hpath. pose proof Hpath as Hpath0.
  apply get_safe_path_Ok in Hpath.
  assert (Hrm : ∀ t, get_safe_path location filename t = (Ok fullname, t) →
            utl_file_fremove (Some location) (Some filename) t
            = match unlink fullname (os t) with
              | (Some errno, w) => (Raise (io_error errno), set_os w t)
              | (None, w) => (Ok tt, set_os w t)
              end).
  { intros t Ht. unfold utl_file_fremove. unfold bind at 1 2; simpl.
    unfold bind at 1. rewrite Ht. unfold bind, sys.
    destruct (unlink fullname (os t)) as [[errno|] w]; [|done].
    apply IO_EXCEPTION_eq. }
  rewrite (Hrm s Hpath). unfold unlink. split.
  - intros errno ->. by rewrite set_os_id.
  - intros Hst. rewrite Hst.
    set (s' := set_os (set_files (delete fullname (files (os s))) (os s)) s).
    exists s'. split; [done|]. split; [done|]. split; [done|]. split; [done|].
    assert (Hpath' : get_safe_path location filename s' = (Ok fullname, s')).
    { apply get_safe_path_Ok. rewrite <- Hpath0. by apply get_safe_path_dirs. }
    assert (Hgone : stat fullname (os s') = Some ENOENT).
    { unfold stat in *. simpl.
      destruct (denied (os s) !! fullname); [done|].
      by rewrite lookup_delete_eq. }
    split.
    + unfold utl_file_fgetattr. unfold bind at 1 2; simpl.
      unfold bind. rewrite Hpath'. by rewrite Hgone.
    + rewrite (Hrm s' Hpath'). unfold unlink. rewrite Hgone.
      by rewrite set_os_id.
Qed.

(** X12: on a path that [get_safe_path] accepts, [utl_file_fgetattr] never
    raises and never changes the session: it reports that the file exists,
    with its size and the block size, exactly when [stat] succeeds, and
    otherwise -- whatever the [errno] of [stat] -- that it does not
    exist, with size and block size NULL. *)
Theorem fgetattr_reports_missing_file location filename fullname s :
  fst (get_safe_path location filename s) = Ok fullname →
  ∃ fexists size blksize,
    utl_file_fgetattr (Some location) (Some filename) s
    = (Ok (fexists, size, blksize), s) ∧
    (fexists = true ↔ stat fullname (os s) = None) ∧
    (fexists = true → is_Some size ∧ blksize = Some (st_blksize (os s))) ∧
    (fexists = false → size = None ∧ blksize = None).
Proof.
  intros Hpath. apply get_safe_path_Ok in Hpath.
  unfold utl_file_fgetattr. unfold bind at 1 2; simpl.
  unfold bind. rewrite Hpath.
  destruct (stat fullname (os s)) as [errno|] eqn:Hst.
  - eexists _, _, _. split; [done|]. by split_and!.
  - destruct (files (os s) !! fullname) as [file|] eqn:Hf.
    + eexists _, _, _. split; [done|]. split_and!; try done; by eexists.
    + unfold stat in Hst. rewrite Hf in Hst. by destruct (denied (os s) !! fullname).
Qed.

(** ** Writing *)

Lemma get_stream_same d s s' r :
  same_table s s' → get_stream d s = (r, s) → get_stream d s' = (r, s').
Proof.
  intros Ht H. pose proof (get_stream_same_table d s s' Ht) as E.
  pose proof (get_stream_session d s') as Es.
  destruct (get_stream d s') as [r' t]. rewrite H in E. simpl in *. congruence.
Qed.

Lemma same_table_append_out f out s : same_table s (append_out f out s).
Proof. unfold append_out. by case_match. Qed.

Lemma fwrite_bytes_ok buf f st s :
  streams (os s) !! f = Some st → s_room st = None →
  sys (fwrite_bytes buf f) s = (Ok (length buf, None), append_out f buf s).
Proof.
  intros Hst Hroom.
  assert (H : ∀ w, w = os s →
            fwrite_bytes buf f w = (length buf, None, os (append_out f buf s))).
  { revert s st Hst Hroom. induction buf as [|c rest IH]; intros s st Hst Hroom w ->.
    - simpl. by rewrite append_out_nil.
    - simpl. pose proof (fputc_ok c f st s Hst Hroom) as Hc.
      unfold sys in Hc. destruct (fputc c f (os s)) as [r w1].
      injection Hc as -> Hw.
      rewrite (IH (append_out f [c] s) _ (append_out_lookup f [c] s st Hst) Hroom w1).
      + by rewrite append_out_app.
      + by rewrite <- Hw. }
  unfold sys. rewrite (H (os s) eq_refl).
  unfold append_out. rewrite Hst. done.
Qed.

Lemma do_put_ok d f max_linesize st buffer s :
  get_stream d s = (Ok (f, max_linesize), s) →
  streams (os s) !! f = Some st → s_room st = None →
  (Z.of_nat (length buffer) ≤ max_linesize)%Z →
  do_put (Some d) (Some buffer) s = (Ok f, append_out f buffer s).
Proof.
  intros Hget Hst Hroom Hlen. unfold do_put.
  unfold bind at 1; simpl. unfold bind at 1. rewrite Hget.
  unfold bind at 1; simpl. unfold CHECK_LENGTH, when, bind at 1.
  destruct (Z.gtb_spec (Z.of_nat (length buffer)) max_linesize); [lia|]. simpl.
  unfold bind. rewrite (fwrite_bytes_ok buffer f st s Hst Hroom).
  by rewrite Nat.eqb_refl.
Qed.

(** X13: on a handle whose stream takes what is written, [utl_file_put]
    appends the buffer to the stream byte for byte when it holds at most
    [max_linesize] bytes -- exactly [max_linesize] bytes are accepted --
    and writes nothing and raises VALUE_ERROR when it holds more; a NULL
    buffer raises NULL_VALUE_NOT_ALLOWED. *)
Theorem put_writes_the_buffer d f max_linesize st buffer s :
  get_stream d s = (Ok (f, max_linesize), s) →
  streams (os s) !! f = Some st → s_room st = None →
  ((Z.of_nat (length buffer) ≤ max_linesize)%Z →
   utl_file_put (Some d) (Some buffer) s = (Ok true, append_out f buffer s) ∧
   streams (os (append_out f buffer s)) !! f
   = Some (set_out (s_out st ++ buffer) None st)) ∧
  ((max_linesize < Z.of_nat (length buffer))%Z →
   utl_file_put (Some d) (Some buffer) s
   = (Raise (RAISE_EXCEPTION VALUE_ERROR), s)) ∧
  utl_file_put (Some d) None s = (Raise (NULL_VALUE_NOT_ALLOWED 1), s).
Proof.
  intros Hget Hst Hroom. split; [|split].
  - intros Hlen. unfold utl_file_put, bind.
    rewrite (do_put_ok d f max_linesize st buffer s Hget Hst Hroom Hlen).
    split; [done|]. rewrite (append_out_lookup f buffer s st Hst).
    by rewrite Hroom.
  - intros Hlen. unfold utl_file_put, do_put.
    unfold bind at 1 2; simpl. unfold bind at 1. rewrite Hget.
    unfold bind at 1; simpl. unfold CHECK_LENGTH, when, bind at 1.
    destruct (Z.gtb_spec (Z.of_nat (length buffer)) max_linesize); [done|lia].
  - unfold utl_file_put, do_put.
    unfold bind at 1 2; simpl. unfold bind at 1. rewrite Hget. done.
Qed.

Lemma do_put_Ok arg0 arg1 s f s1 :
  do_put arg0 arg1 s = (Ok f, s1) →
  ∃ d max_linesize,
    arg0 = Some d ∧ get_stream d s = (Ok (f, max_linesize), s) ∧
    same_table s s1.
Proof.
  intros H. pose proof (keeps_table_do_put arg0 arg1 s) as [Ht _].
  rewrite H in Ht. simpl in Ht.
  unfold do_put in H. destruct arg0 as [d|]; [|done].
  unfold bind at 1 in H; simpl in H. unfold bind at 1 in H.
  pose proof (get_stream_session d s) as Hs.
  destruct (get_stream d s) as [[[f' m]|e] s0] eqn:Hget; simpl in Hs; subst s0;
    [|done].
  exists d, m. split; [done|]. split; [|done].
  destruct arg1 as [buffer|]; [|done].
  unfold bind at 1 in H; simpl in H. unfold bind at 1 in H.
  destruct (CHECK_LENGTH _ _ s) as [[?|?] s2]; [|done].
  unfold bind in H. destruct (sys _ s2) as [[[written r]|?] s3]; [|done].
  destruct (negb _); [|by injection H as -> _].
  unfold CHECK_ERRNO_PUT, CUSTOM_EXCEPTION, raise in H. by case_match.
Qed.

Lemma bind_assoc {A B C} (m : M A) (f : A → M B) (g : B → M C) s :
  bind (bind m f) g s = bind m (λ a, bind (f a) g) s.
Proof. unfold bind. by destruct (m s) as [[a|e] s1]. Qed.

Lemma bind_ret {A B} (a : A) (k : A → M B) s : bind (ret a) k s = k a s.
Proof. done. Qed.

Lemma bind_Ok {A B} (m : M A) (k : A → M B) s a s1 :
  m s = (Ok a, s1) → bind m k s = k a s1.
Proof. intros H. unfold bind. by rewrite H. Qed.

Lemma bind_cong {A B} (m : M A) (k k' : A → M B) s :
  (∀ a s1, m s = (Ok a, s1) → k a s1 = k' a s1) →
  bind m k s = bind m k' s.
Proof. intros H. unfold bind. destruct (m s) as [[a|e] s1]; [by apply H|done]. Qed.

(** X14: [utl_file_put_line] is [utl_file_put] followed by
    [utl_file_new_line] for one line and, when [autoflush] is true, by
    [utl_file_fflush]: for all arguments and in every session the two give
    the same result, the same error at the same point, and the same
    session. *)
Theorem put_line_is_put_then_new_line arg0 arg1 arg2 s :
  utl_file_put_line arg0 arg1 arg2 s
  = (utl_file_put arg0 arg1 ;;;
     utl_file_new_line arg0 (Some 1%Z) ;;;
     if default false arg2 then utl_file_fflush arg0 ;;; ret true
     else ret true) s.
Proof.
  unfold utl_file_put_line, utl_file_put. rewrite bind_assoc.
  apply bind_cong. intros f s1 Hput. rewrite bind_ret.
  apply do_put_Ok in Hput as (d & m & -> & Hget & Ht1).
  unfold utl_file_new_line.
  change (CHECK_FILE_HANDLE (Some d)) with (ret d).
  rewrite bind_assoc, bind_ret, bind_assoc.
  rewrite (bind_Ok _ _ _ _ _ (get_stream_same d s s1 _ Ht1 Hget)).
  cbn beta iota. rewrite bind_assoc.
  apply bind_cong. intros [] s2 Hnl. rewrite bind_ret.
  pose proof (keeps_table_do_new_line f 1 s1) as [Ht2 _].
  change (do_new_line f 1 s1 = (Ok (), s2)) in Hnl.
  rewrite Hnl in Ht2. simpl in Ht2.
  assert (Ht : same_table s s2).
  { destruct Ht1, Ht2. split; congruence. }
  destruct (default false arg2); [|done].
  unfold utl_file_fflush.
  change (CHECK_FILE_HANDLE (Some d)) with (ret d).
  rewrite bind_assoc, bind_ret, bind_assoc.
  rewrite (bind_Ok _ _ _ _ _ (get_stream_same d s s2 _ Ht Hget)).
  cbn beta iota. done.
Qed.

Lemma do_new_line_loop_ok n f st s :
  streams (os s) !! f = Some st → s_room st = None →
  do_new_line_loop n f s = (Ok tt, append_out f (replicate n LF) s).
Proof.
  revert s st. induction n as [|n IH]; intros s st Hst Hroom; simpl.
  { by rewrite append_out_nil. }
  unfold bind. rewrite (fputc_ok LF f st s Hst Hroom).
  destruct (append_out_open f [LF] s st Hst Hroom) as (st' & Hst' & Hroom').
  rewrite (IH _ st' Hst' Hroom'). by rewrite append_out_app.
Qed.

(** X15: on a handle whose stream takes what is written,
    [utl_file_new_line] writes as many line feeds as [lines] says -- one
    when [lines] is NULL, none when it is 0 or negative, which is not an
    error -- and nothing else; the count is not held against
    [max_linesize]. *)
Theorem new_line_writes_line_feeds d f max_linesize st lines s :
  get_stream d s = (Ok (f, max_linesize), s) →
  streams (os s) !! f = Some st → s_room st = None →
  utl_file_new_line (Some d) lines s
  = (Ok true, append_out f (replicate (Z.to_nat (default 1%Z lines)) LF) s) ∧
  utl_file_new_line (Some d) None s = (Ok true, append_out f [LF] s) ∧
  (∀ n, (n ≤ 0)%Z → utl_file_new_line (Some d) (Some n) s = (Ok true, s)).
Proof.
  intros Hget Hst Hroom.
  assert (H : ∀ lines,
            utl_file_new_line (Some d) lines s
            = (Ok true,
               append_out f (replicate (Z.to_nat (default 1%Z lines)) LF) s)).
  { intros l. unfold utl_file_new_line.
    change (CHECK_FILE_HANDLE (Some d)) with (ret d).
    rewrite bind_ret, (bind_Ok _ _ _ _ _ Hget). cbn beta iota.
    unfold do_new_line, bind.
    by rewrite (do_new_line_loop_ok _ f st s Hst Hroom). }
  split; [apply H|]. split; [apply H|].
  intros n Hn. rewrite H. simpl.
  replace (Z.to_nat n) with 0 by lia. by rewrite append_out_nil.
Qed.

Lemma put_line_ok d f max_linesize st buffer s :
  get_stream d s = (Ok (f, max_linesize), s) →
  streams (os s) !! f = Some st → s_room st = None →
  (Z.of_nat (length buffer) ≤ max_linesize)%Z →
  utl_file_put_line (Some d) (Some buffer) None s
  = (Ok true, append_out f (buffer ++ [LF]) s).
Proof.
  intros Hget Hst Hroom Hlen. unfold utl_file_put_line.
  rewrite (bind_Ok _ _ _ _ _
             (do_put_ok d f max_linesize st buffer s Hget Hst Hroom Hlen)).
  destruct (append_out_open f buffer s st Hst Hroom) as (st' & Hst' & Hroom').
  unfold do_new_line, bind.
  rewrite (do_new_line_loop_ok _ f st' _ Hst' Hroom'). simpl.
  by rewrite append_out_app.
Qed.

Lemma file_bytes_cons l t ls : file_bytes ((l, t) :: ls) = l ++ t ++ file_bytes ls.
Proof. unfold file_bytes. simpl. by rewrite <- app_assoc. Qed.

(** One [utl_file_put_line] after the other. *)
Lemma put_lines_spec d f max_linesize st ls s :
  get_stream d s = (Ok (f, max_linesize), s) →
  streams (os s) !! f = Some st → s_room st = None →
  Forall (λ l, (Z.of_nat (length l) ≤ max_linesize)%Z) ls →
  put_lines ls (Some d) s
  = (Ok tt, append_out f (file_bytes (map (λ l, (l, [LF])) ls)) s) ∧
  streams (os (snd (put_lines ls (Some d) s))) !! f
  = Some (set_out (s_out st ++ file_bytes (map (λ l, (l, [LF])) ls)) None st).
Proof.
  intros Hget Hst Hroom Hall.
  assert (H : put_lines ls (Some d) s
              = (Ok tt, append_out f (file_bytes (map (λ l, (l, [LF])) ls)) s)).
  { revert s st Hget Hst Hroom.
    induction Hall as [|l ls Hl Hall IH]; intros s st Hget Hst Hroom; simpl.
    { by rewrite append_out_nil. }
    rewrite (bind_Ok _ _ _ _ _ (put_line_ok d f max_linesize st l s Hget Hst Hroom Hl)).
    destruct (append_out_open f (l ++ [LF]) s st Hst Hroom) as (st' & Hst' & Hroom').
    rewrite (IH _ st');
      [|by eapply get_stream_same; [apply same_table_append_out|]|done..].
    rewrite append_out_app. by rewrite file_bytes_cons, app_assoc. }
  split; [done|]. rewrite H. simpl.
  rewrite (append_out_lookup f _ s st Hst). by rewrite Hroom.
Qed.

(** X16: on a handle whose stream takes what is written, one
    [utl_file_put_line] for each of a list of lines, none longer than
    [max_linesize], appends to the stream the text file of these lines:
    each line as it is, followed by one line feed.  The line feed is not
    counted: a line of exactly [max_linesize] bytes is accepted. *)
Theorem put_lines_writes_text_file d f max_linesize st ls s :
  get_stream d s = (Ok (f, max_linesize), s) →
  streams (os s) !! f = Some st → s_room st = None →
  Forall (λ l, (Z.of_nat (length l) ≤ max_linesize)%Z) ls →
  put_lines ls (Some d) s
  = (Ok tt, append_out f (file_bytes (map (λ l, (l, [LF])) ls)) s) ∧
  streams (os (snd (put_lines ls (Some d) s))) !! f
  = Some (set_out (s_out st ++ file_bytes (map (λ l, (l, [LF])) ls)) None st).
Proof. apply put_lines_spec. Qed.

(** ** Reading *)

(** Where a line ends when a terminator follows it before the limit. *)
Lemma line_split_line limit l t rest l' t' r' :
  (CR ∉ l) → (LF ∉ l) → length l < limit → newline t →
  line_split limit (l ++ t ++ rest) l' t' r' →
  l' = l ∧ t' = t ∧ r' = rest.
Proof.
  intros Hcr Hlf Hlen Ht (Hcat & Hlen' & Hcr' & Hlf' & Hend).
  assert (Hsame : l' = l → l' = l ∧ t' = t ∧ r' = rest).
  { intros ->. split; [done|]. apply app_inv_head in Hcat.
    destruct Hend as [[Hterm _]|[-> [?| ->]]].
    - destruct Hterm as [->|[->|[-> Hhead]]], Ht as [->| ->];
        simplify_eq/=; done.
    - lia.
    - destruct Ht as [->| ->]; done. }
  apply app_eq_app in Hcat as [x [[E1 E2]|[E1 E2]]].
  - destruct x as [|c x]; [apply Hsame; by rewrite E1, app_nil_r|].
    exfalso. subst l. rewrite length_app in Hlen. simpl in Hlen.
    assert (Hc : c ≠ CR ∧ c ≠ LF).
    { split; intros ->; [apply Hcr|apply Hlf]; apply elem_of_app; right;
        apply list_elem_of_here. }
    destruct Hend as [[Hterm _]|[-> [?| ->]]]; [|lia|done].
    destruct Hc. destruct Hterm as [->|[->|[-> _]]]; simplify_eq/=; done.
  - destruct x as [|c x]; [apply Hsame; by rewrite E1, app_nil_r|].
    exfalso. subst l'.
    assert (Hc : c ≠ CR ∧ c ≠ LF).
    { split; intros ->; [apply Hcr'|apply Hlf']; apply elem_of_app; right;
        apply list_elem_of_here. }
    destruct Hc. destruct Ht as [->| ->]; simplify_eq/=; done.
Qed.

(** Where a read ends in a line that fills the limit. *)
Lemma line_split_long limit l rest l' t' r' :
  (CR ∉ l) → (LF ∉ l) → limit ≤ length l →
  line_split limit (l ++ rest) l' t' r' →
  l' = take limit l ∧ t' = [] ∧ r' = drop limit l ++ rest.
Proof.
  intros Hcr Hlf Hlen (Hcat & Hlen' & Hcr' & Hlf' & Hend).
  apply app_eq_app in Hcat as [x [[E1 E2]|[E1 E2]]].
  - subst l. rewrite length_app in Hlen.
    destruct Hend as [[Hterm Hlt]|[-> Hstop]].
    + exfalso. destruct x as [|c x]; [simpl in Hlen; lia|].
      assert (Hc : c ≠ CR ∧ c ≠ LF).
      { split; intros ->; [apply Hcr|apply Hlf]; apply elem_of_app; right;
          apply list_elem_of_here. }
      destruct Hc. destruct Hterm as [->|[->|[-> _]]]; simplify_eq/=; done.
    + simpl in E2. subst r'. split; [|split; [done|]].
      * destruct Hstop as [<-|E]; [by rewrite take_app_length|].
        apply app_eq_nil in E as [-> ->]. rewrite !app_nil_r.
        simpl in Hlen. rewrite take_ge by lia. done.
      * destruct Hstop as [<-|E]; [by rewrite drop_app_length|].
        apply app_eq_nil in E as [-> ->]. rewrite !app_nil_r.
        simpl in Hlen. rewrite drop_ge by lia. done.
  - subst l'. rewrite length_app in Hlen'.
    assert (x = []) as -> by (destruct x; [done|simpl in Hlen'; lia]).
    rewrite app_nil_r in *. simpl in E2. subst rest.
    assert (length l = limit) by lia.
    rewrite take_ge, drop_ge by lia.
    destruct Hend as [[_ ?]|[-> _]]; [lia|done].
Qed.

Lemma get_nextline_line d f max_linesize st l t rest s :
  fst (get_stream d s) = Ok (f, max_linesize) →
  streams (os s) !! f = Some st →
  s_in st = l ++ t ++ rest → newline t → readable max_linesize l →
  let s' := set_os (with_input f rest st (os s)) s in
  utl_file_get_nextline (Some d) s = (Ok (Some l), s') ∧
  utl_file_get_line (Some d) None s = (Ok l, s').
Proof.
  intros Hget Hst Hin Ht (Hcr & Hlf & Hlen & Hmb) s'.
  destruct (read_some d f max_linesize st s Hget Hst)
    as (l' & t' & r' & Hsplit & Hgood & _); [lia| |].
  { rewrite Hin. destruct Ht as [->| ->]; by destruct l. }
  rewrite Hin in Hsplit.
  apply line_split_line in Hsplit as (-> & -> & ->); [|done|done|lia|done].
  destruct (Hgood Hmb) as (_ & ? & ?). done.
Qed.

(** Reading a text file to its end. *)
Lemma read_lines_spec d f max_linesize st ls s :
  fst (get_stream d s) = Ok (f, max_linesize) →
  streams (os s) !! f = Some st →
  (1 ≤ max_linesize)%Z →
  s_in st = file_bytes ls → s_in_errno st = 0%Z →
  Forall (λ lt, readable max_linesize lt.1 ∧ newline lt.2) ls →
  fst (read_lines (S (length ls)) (Some d) s)
  = map (λ lt, Ok (Some lt.1)) ls ++ [Ok None].
Proof.
  intros Hget Hst Hmax Hin Herr Hall. revert s st Hget Hst Hin Herr.
  induction Hall as [|[l t] ls [Hl Ht] Hall IH]; intros s st Hget Hst Hin Herr.
  - cbn [read_lines length].
    destruct (read_at_end d f max_linesize st s Hget Hst Hmax Hin Herr)
      as (_ & _ & ->). done.
  - rewrite file_bytes_cons in Hin.
    destruct (get_nextline_line d f max_linesize st l t (file_bytes ls) s
                Hget Hst Hin Ht Hl) as [Hread _].
    change (length ((l, t) :: ls)) with (S (length ls)).
    remember (S (length ls)) as n eqn:Hn.
    cbn [read_lines]. rewrite Hread. subst n.
    set (s1 := set_os (with_input f (file_bytes ls) st (os s)) s).
    specialize (IH s1 (set_in (file_bytes ls) st)).
    destruct (read_lines (S (length ls)) (Some d) s1) as [rs s2].
    simpl in *. f_equal. apply IH; try done.
    + rewrite <- Hget. by apply get_stream_same_table.
    + apply with_input_lookup.
Qed.

(** X17: a text file whose lines are shorter than [max_linesize] reads
    back line by line: when the unread input of a handle is the bytes of
    the lines [ls], each ended by LF or by CR LF, one call of
    [utl_file_get_nextline] after the other returns the lines in their
    order, without the terminators, and the call after the last line
    returns NULL. *)
Theorem reading_returns_the_lines_in_order d f max_linesize st ls s :
  fst (get_stream d s) = Ok (f, max_linesize) →
  streams (os s) !! f = Some st →
  (1 ≤ max_linesize)%Z →
  s_in st = file_bytes ls → s_in_errno st = 0%Z →
  Forall (λ lt, readable max_linesize lt.1 ∧ newline lt.2) ls →
  fst (read_lines (S (length ls)) (Some d) s)
  = map (λ lt, Ok (Some lt.1)) ls ++ [Ok None].
Proof. apply read_lines_spec. Qed.

(** X18: a line of [max_linesize] characters or more is read in pieces:
    one call returns its first [max_linesize] characters and leaves the
    rest unread.  So a line of exactly [max_linesize] characters, which
    [utl_file_put_line] accepts, does not read back as one line: the call
    returns the line and leaves its line feed, and the next call returns
    an empty line. *)
Theorem full_length_line_reads_as_two d f max_linesize st l rest s :
  fst (get_stream d s) = Ok (f, max_linesize) →
  streams (os s) !! f = Some st →
  (1 ≤ max_linesize)%Z →
  s_in st = l ++ rest → (CR ∉ l) → (LF ∉ l) →
  (max_linesize ≤ Z.of_nat (length l))%Z →
  pg_verifymbstr (take (Z.to_nat max_linesize) l) = true →
  let now := take (Z.to_nat max_linesize) l in
  let later := drop (Z.to_nat max_linesize) l ++ rest in
  let s1 := set_os (with_input f later st (os s)) s in
  utl_file_get_nextline (Some d) s = (Ok (Some now), s1) ∧
  utl_file_get_line (Some d) None s = (Ok now, s1) ∧
  (∀ rest', Z.of_nat (length l) = max_linesize → rest = LF :: rest' →
     pg_verifymbstr [] = true →
     now = l ∧
     utl_file_get_nextline (Some d) s1
     = (Ok (Some []), set_os (with_input f rest' st (os s)) s)).
Proof.
  intros Hget Hst Hmax Hin Hcr Hlf Hlen Hmb now later s1.
  destruct (read_some d f max_linesize st s Hget Hst Hmax)
    as (l' & t' & r' & Hsplit & Hgood & _).
  { rewrite Hin. destruct l; [simpl in Hlen; lia|done]. }
  rewrite Hin in Hsplit.
  apply line_split_long in Hsplit as (-> & -> & ->); [|done|done|lia].
  destruct (Hgood Hmb) as (_ & Hline & Hnext).
  split; [done|]. split; [done|].
  intros rest' Hfull -> Hempty.
  assert (Hnow : now = l) by (unfold now; apply take_ge; lia).
  split; [done|].
  assert (Hlater : later = LF :: rest').
  { unfold later. rewrite drop_ge by lia. done. }
  assert (Hget1 : fst (get_stream d s1) = Ok (f, max_linesize)).
  { rewrite <- Hget. by apply get_stream_same_table. }
  destruct (get_nextline_line d f max_linesize (set_in later st) [] [LF] rest' s1
              Hget1 (with_input_lookup f later st (os s)))
    as [Hread _]; [by rewrite Hlater|by left| |].
  { split; [apply not_elem_of_nil|]. split; [apply not_elem_of_nil|].
    split; [simpl; lia|done]. }
  rewrite Hread. unfold s1. simpl. by rewrite with_input_twice.
Qed.

Lemma get_line_loop_length fuel f buffer eof errno w :
  length (get_line_loop fuel f buffer eof errno w).1.1.1 ≤ length buffer + fuel.
Proof.
  revert buffer eof errno w. induction fuel as [|fuel IH]; intros; simpl; [lia|].
  destruct (fgetc f w) as [[e|c] w1]; simpl; [lia|].
  case_bool_decide.
  - destruct (fgetc f w1) as [[e|c'] w2]; simpl; [lia|].
    case_bool_decide; simpl; lia.
  - case_bool_decide; simpl; [lia|].
    etrans; [apply IH|]. rewrite length_app. simpl. lia.
Qed.

Lemma get_line_length f max_linesize s result iseof s' :
  get_line f max_linesize s = (Ok (result, iseof), s') →
  length (default [] result) ≤ Z.to_nat max_linesize.
Proof.
  unfold get_line.
  pose proof (get_line_loop_length (Z.to_nat max_linesize) f [] true 0 (os s)) as H.
  destruct (get_line_loop _ _ _ _ _ _) as [[[buffer eof] errno] w].
  simpl in H. unfold CUSTOM_EXCEPTION, raise.
  repeat case_match; intros [= <- <- <-]; simpl; lia.
Qed.

(** X19: the optional [len] of [utl_file_get_line] can only shorten what
    one call reads.  Outside 1 .. 32767 it raises INVALID_MAXLINESIZE
    before anything is read; within, the line is read under the smaller of
    [len] and the [max_linesize] of the handle, so with a [len] that is
    not smaller the call is the call without [len], and a line returned
    is never longer than either. *)
Theorem get_line_len_argument d f max_linesize len s :
  get_stream d s = (Ok (f, max_linesize), s) →
  ((len < 1 ∨ 32767 < len)%Z →
   utl_file_get_line (Some d) (Some len) s
   = (Raise (RAISE_EXCEPTION INVALID_MAXLINESIZE), s)) ∧
  ((1 ≤ len ≤ 32767)%Z →
   utl_file_get_line (Some d) (Some len) s
   = (let '(r, s') := get_line f (Z.min max_linesize len) s in
      (match r with
       | Ok (result, true) => Raise NO_DATA_FOUND
       | Ok (result, false) => Ok (default [] result)
       | Raise e => Raise e
       end, s')) ∧
   ((max_linesize ≤ len)%Z →
    utl_file_get_line (Some d) (Some len) s
    = utl_file_get_line (Some d) None s) ∧
   ∀ line s',
     utl_file_get_line (Some d) (Some len) s = (Ok line, s') →
     (Z.of_nat (length line) ≤ len)%Z ∧
     (Z.of_nat (length line) ≤ Z.max 0 max_linesize)%Z).
Proof.
  intros Hget.
  assert (Hcall : ∀ arg1,
            utl_file_get_line (Some d) arg1 s
            = (let* max_linesize :=
                 match arg1 with
                 | Some len =>
                   CHECK_LINESIZE len ;;;
                   ret (if (max_linesize >? len)%Z then len else max_linesize)
                 | None => ret max_linesize
                 end in
               let* (result, iseof) := get_line f max_linesize in
               if iseof : bool then raise NO_DATA_FOUND
               else ret (default [] result)) s).
  { intros arg1. unfold utl_file_get_line.
    change (CHECK_FILE_HANDLE (Some d)) with (ret d).
    by rewrite bind_ret, (bind_Ok _ _ _ _ _ Hget). }
  assert (Hread : ∀ limit,
            (let* (result, iseof) := get_line f limit in
             if iseof : bool then raise NO_DATA_FOUND
             else ret (default [] result)) s
            = (let '(r, s') := get_line f limit s in
               (match r with
                | Ok (result, true) => Raise NO_DATA_FOUND
                | Ok (result, false) => Ok (default [] result)
                | Raise e => Raise e
                end, s'))).
  { intros limit. unfold bind.
    by destruct (get_line f limit s) as [[[result []]|e] s']. }
  split.
  - intros Hlen. rewrite Hcall. unfold CHECK_LINESIZE, when, bind.
    replace ((len <? 1)%Z || (len >? MAX_LINESIZE)%Z) with true; [done|].
    symmetry. apply orb_true_iff. unfold MAX_LINESIZE. lia.
  - intros Hlen.
    assert (Hmin : utl_file_get_line (Some d) (Some len) s
                   = (let '(r, s') := get_line f (Z.min max_linesize len) s in
                      (match r with
                       | Ok (result, true) => Raise NO_DATA_FOUND
                       | Ok (result, false) => Ok (default [] result)
                       | Raise e => Raise e
                       end, s'))).
    { rewrite Hcall, <- Hread. unfold CHECK_LINESIZE, when.
      replace ((len <? 1)%Z || (len >? MAX_LINESIZE)%Z) with false
        by (symmetry; apply orb_false_iff; unfold MAX_LINESIZE; lia).
      rewrite bind_assoc, !bind_ret.
      destruct (Z.gtb_spec max_linesize len).
      - by rewrite Z.min_r by lia.
      - by rewrite Z.min_l by lia. }
    split; [done|]. split.
    + intros Hle. rewrite Hmin, Hcall, bind_ret, Hread.
      by rewrite Z.min_l by lia.
    + intros line s'. rewrite Hmin.
      destruct (get_line f (Z.min max_linesize len) s) as [[[result iseof]|e] s1]
        eqn:Hline; [|done].
      apply get_line_length in Hline.
      destruct iseof; [done|]. intros [= <- <-]. lia.
Qed.

(** ** The errors of each call *)

Ltac in_list :=
  unfold path_errors; simpl;
  repeat first [apply list_elem_of_here | apply list_elem_of_further].

Ltac path_errors_in_list :=
  let e := fresh "e" in
  let He := fresh "He" in
  intros e He; unfold path_errors in He;
  rewrite !elem_of_cons, elem_of_nil in He;
  destruct He as [->|[->|[->|[]]]]; in_list.

Lemma raises_only_ret {A} P (a : A) : raises_only P (ret a).
Proof. by intros s e s'. Qed.

Lemma raises_only_raise {A} (P : error → Prop) e :
  P e → raises_only P (raise (A:=A) e).
Proof. intros H s e' s' [= <- _]. done. Qed.

Lemma raises_only_bind {A B} P (m : M A) (k : A → M B) :
  raises_only P m → (∀ a, raises_only P (k a)) → raises_only P (bind m k).
Proof.
  intros Hm Hk s e s'. unfold bind.
  destruct (m s) as [[a|e0] s1] eqn:E.
  - apply Hk.
  - intros [= <- <-]. by eapply Hm.
Qed.

Lemma raises_only_sys {A} P (c : world → A * world) : raises_only P (sys c).
Proof. intros s e s'. unfold sys. by destruct (c (os s)). Qed.

Lemma raises_only_when (P : error → Prop) b e : P e → raises_only P (when b e).
Proof. intros H. destruct b; [by apply raises_only_raise|apply raises_only_ret]. Qed.

Lemma raises_only_NOT_NULL_ARG {A} (P : error → Prop) n (arg : option A) :
  P (NULL_VALUE_NOT_ALLOWED n) → raises_only P (NOT_NULL_ARG n arg).
Proof. intros H. destruct arg; [apply raises_only_ret|by apply raises_only_raise]. Qed.

Lemma raises_only_CHECK_FILE_HANDLE (P : error → Prop) arg0 :
  P (RAISE_EXCEPTION INVALID_FILEHANDLE) → raises_only P (CHECK_FILE_HANDLE arg0).
Proof. intros H. destruct arg0; [apply raises_only_ret|by apply raises_only_raise]. Qed.

Lemma raises_only_IO_EXCEPTION {A} (P : error → Prop) errno :
  P (RAISE_EXCEPTION INVALID_PATH) → P (RAISE_EXCEPTION INVALID_OPERATION) →
  raises_only P (IO_EXCEPTION (A:=A) errno).
Proof. intros. unfold IO_EXCEPTION. case_match; by apply raises_only_raise. Qed.

Lemma raises_only_CHECK_ERRNO_PUT {A} (P : error → Prop) errno :
  P (RAISE_EXCEPTION INVALID_OPERATION) → P (RAISE_EXCEPTION WRITE_ERROR) →
  raises_only P (CHECK_ERRNO_PUT (A:=A) errno).
Proof. intros. unfold CHECK_ERRNO_PUT. case_match; by apply raises_only_raise. Qed.

Lemma raises_only_get_stream (P : error → Prop) d :
  P (RAISE_EXCEPTION INVALID_FILEHANDLE) → raises_only P (get_stream d).
Proof.
  intros H s e s' E.
  destruct (get_stream_cases d s) as [[_ E']|(k & _ & _ & E')];
    rewrite E' in E; by simplify_eq.
Qed.

Lemma raises_only_get_safe_path (P : error → Prop) location filename :
  (∀ e, e ∈ path_errors → P e) →
  raises_only P (get_safe_path location filename).
Proof.
  intros H. unfold get_safe_path, NON_EMPTY_TEXT.
  assert (H1 : P INVALID_PARAMETER_VALUE) by (apply H; in_list).
  assert (H2 : P (RAISE_EXCEPTION INVALID_PATH)) by (apply H; in_list).
  assert (H3 : P INTERNAL_ERROR) by (apply H; in_list).
  repeat (apply raises_only_bind; [|intros ?]);
    try (by apply raises_only_when); try apply raises_only_ret.
  unfold check_secure_locality. case_bool_decide; [apply raises_only_ret|].
  intros s e s'. repeat case_match; intros [= <- _]; done.
Qed.

Lemma raises_only_get_line (P : error → Prop) f max_linesize :
  P (RAISE_EXCEPTION INVALID_OPERATION) → P (RAISE_EXCEPTION READ_ERROR) →
  P CHARACTER_NOT_IN_REPERTOIRE →
  raises_only P (get_line f max_linesize).
Proof.
  intros H1 H2 H3 s e s'. unfold get_line, CUSTOM_EXCEPTION, raise.
  destruct (get_line_loop _ _ _ _ _ _) as [[[buffer eof] errno] w].
  repeat case_match; intros [= <- _]; done.
Qed.

Ltac raises_step :=
  match goal with
  | |- raises_only _ (bind _ _) => apply raises_only_bind; [|intros ?]
  | |- raises_only _ (match ?x with _ => _ end) => destruct x
  | |- raises_only _ (ret _) => apply raises_only_ret
  | |- raises_only _ (sys _) => apply raises_only_sys
  | |- raises_only _ (raise _) => apply raises_only_raise
  | |- raises_only _ (when _ _) => apply raises_only_when
  | |- raises_only _ (CUSTOM_EXCEPTION _) => apply raises_only_raise
  | |- raises_only _ (NOT_NULL_ARG _ _) => apply raises_only_NOT_NULL_ARG
  | |- raises_only _ (CHECK_FILE_HANDLE _) => apply raises_only_CHECK_FILE_HANDLE
  | |- raises_only _ (IO_EXCEPTION _) => apply raises_only_IO_EXCEPTION
  | |- raises_only _ (CHECK_ERRNO_PUT _) => apply raises_only_CHECK_ERRNO_PUT
  | |- raises_only _ (get_stream _) => apply raises_only_get_stream
  | |- raises_only _ (get_line _ _) => apply raises_only_get_line
  | |- raises_only _ (get_safe_path _ _) =>
    apply raises_only_get_safe_path; path_errors_in_list
  | |- _ ∈ _ => solve [in_list]
  end.

Ltac raises := repeat raises_step.

Lemma raises_only_do_put (l : list error) arg0 arg1 :
  RAISE_EXCEPTION INVALID_FILEHANDLE ∈ l → NULL_VALUE_NOT_ALLOWED 1 ∈ l →
  RAISE_EXCEPTION VALUE_ERROR ∈ l → RAISE_EXCEPTION INVALID_OPERATION ∈ l →
  RAISE_EXCEPTION WRITE_ERROR ∈ l →
  raises_only (.∈ l) (do_put arg0 arg1).
Proof. intros. unfold do_put, CHECK_LENGTH. raises; done. Qed.

Lemma raises_only_do_new_line (l : list error) f lines :
  RAISE_EXCEPTION INVALID_OPERATION ∈ l → RAISE_EXCEPTION WRITE_ERROR ∈ l →
  raises_only (.∈ l) (do_new_line f lines).
Proof.
  intros. unfold do_new_line.
  induction (Z.to_nat lines) as [|n IH]; simpl; raises; done.
Qed.

Lemma raises_only_do_flush (l : list error) f :
  RAISE_EXCEPTION INVALID_OPERATION ∈ l → RAISE_EXCEPTION WRITE_ERROR ∈ l →
  raises_only (.∈ l) (do_flush f).
Proof. intros. unfold do_flush. raises; done. Qed.

Lemma raises_only_putf_loop (l : list error) fpt f max_linesize args cur_par cur_len :
  RAISE_EXCEPTION VALUE_ERROR ∈ l → RAISE_EXCEPTION INVALID_OPERATION ∈ l →
  RAISE_EXCEPTION WRITE_ERROR ∈ l →
  raises_only (.∈ l) (putf_loop fpt f max_linesize args cur_par cur_len).
Proof.
  intros H1 H2 H3.
  remember (length fpt) as n eqn:Hn. revert fpt Hn cur_par cur_len.
  induction (lt_wf n) as [n _ IH]. intros fpt -> cur_par cur_len.
  destruct fpt as [|c0 [|c1 rest]]; simpl; unfold CHECK_LENGTH, put_char;
    raises; try done;
    try (eapply IH; [|done]; simpl; lia).
Qed.

Lemma raises_only_close_slot (l : list error) i :
  RAISE_EXCEPTION INVALID_FILEHANDLE ∈ l → RAISE_EXCEPTION WRITE_ERROR ∈ l →
  raises_only (.∈ l) (close_slot i).
Proof.
  intros H1 H2 s e s' E.
  destruct (close_slot_cases i s)
    as [(w & E' & _)|(w & errno & E' & _)]; rewrite E' in E; [done|].
  injection E as <- _. unfold close_exception. by case_match.
Qed.

Lemma raises_only_fclose_all_from (l : list error) n i :
  RAISE_EXCEPTION INVALID_FILEHANDLE ∈ l → RAISE_EXCEPTION WRITE_ERROR ∈ l →
  raises_only (.∈ l) (fclose_all_from n i).
Proof.
  intros H1 H2. revert i. induction n as [|n IH]; intros i; simpl;
    [apply raises_only_ret|].
  intros s. destruct (negb _); [|apply IH].
  apply raises_only_bind; [by apply raises_only_close_slot|intros _; apply IH].
Qed.

Lemma raises_only_fmap_M {A B} P (g : A → B) m :
  raises_only P m → raises_only P (fmap_M g m).
Proof.
  intros H. unfold fmap_M.
  apply raises_only_bind; [done|intros a; apply raises_only_ret].
Qed.

(** X20: the errors a call can raise are those listed for it by
    [may_raise]; [utl_file_is_open] and [utl_file_tmpdir] raise nothing. *)
Theorem calls_raise_listed_errors c s e :
  fst (run c s) = Raise e → e ∈ may_raise c.
Proof.
  intros H. destruct (run c s) as [r s'] eqn:E. simpl in H. subst r.
  revert s e s' E. change (raises_only (.∈ may_raise c) (run c)).
  destruct c; cbn [run may_raise]; apply raises_only_fmap_M.
  - unfold utl_file_fopen, NON_EMPTY_TEXT, CHECK_LINESIZE. raises.
    intros s. destruct (get_descriptor _ _ s) as [d s1].
    destruct (d =? INVALID_SLOTID)%Z; [|by intros e s'].
    intros e s'. unfold bind, sys. destruct (fclose _ _).
    intros [= <- _]. in_list.
  - intros s e s'. rewrite is_open_cases. done.
  - unfold utl_file_get_line, CHECK_LINESIZE. raises.
  - unfold utl_file_get_nextline. raises.
  - unfold utl_file_put. raises. apply raises_only_do_put; in_list.
  - unfold utl_file_put_line. raises.
    + apply raises_only_do_put; in_list.
    + apply raises_only_do_new_line; in_list.
    + apply raises_only_do_flush; in_list.
  - unfold utl_file_new_line. raises. apply raises_only_do_new_line; in_list.
  - unfold utl_file_putf. raises. apply raises_only_putf_loop; in_list.
  - unfold utl_file_fflush. raises. apply raises_only_do_flush; in_list.
  - intros s. unfold utl_file_fclose. destruct (find_slot file s).
    + apply raises_only_close_slot; in_list.
    + intros e s' [= <- _]. in_list.
  - apply raises_only_fclose_all_from; in_list.
  - unfold utl_file_fremove. raises.
  - unfold utl_file_frename. raises.
  - unfold utl_file_fgetattr. raises. intros s e s'. by repeat case_match.
  - by intros s e s'.
Qed.

(** ** Files that are not there, devices that are full *)

Lemma fopen_valid_call location filename letter mode max_linesize fullname s :
  (1 ≤ max_linesize ≤ MAX_LINESIZE)%Z →
  mode_of_letter letter = Some mode →
  fst (get_safe_path location filename s) = Ok fullname →
  utl_file_fopen (Some location) (Some filename) (Some [letter])
                 (Some max_linesize) s
  = (let* opened := sys (fopen fullname mode) in
     match opened with
     | inl errno => IO_EXCEPTION errno
     | inr file =>
       λ s,
         let (d, s1) := get_descriptor file max_linesize s in
         if (d =? INVALID_SLOTID)%Z then
           (sys (fclose file) ;;; raise PROGRAM_LIMIT_EXCEEDED) s1
         else (Ok d, s1)
     end) s.
Proof.
  intros Hsize Hmode Hpath. apply get_safe_path_Ok in Hpath.
  unfold utl_file_fopen.
  unfold bind at 1 2 3 4; simpl.
  unfold NON_EMPTY_TEXT, CHECK_LINESIZE, when, bind at 1 2 3; simpl.
  replace ((max_linesize <? 1)%Z || (max_linesize >? MAX_LINESIZE)%Z)
    with false by (symmetry; apply orb_false_iff; lia).
  simpl. rewrite Hmode. unfold bind at 1. by rewrite Hpath.
Qed.

(** X21: what [utl_file_fopen] does with a file that is not there depends
    on the mode letter.  With r or R the call raises INVALID_PATH and
    the session stays as it was: no file is made and no slot is taken.
    With w, W, a or A and a free slot the file is made, empty, and the
    call returns a handle with an empty stream on it. *)
Theorem fopen_of_a_missing_file location filename letter max_linesize fullname s :
  (1 ≤ max_linesize ≤ MAX_LINESIZE)%Z →
  fst (get_safe_path location filename s) = Ok fullname →
  files (os s) !! fullname = None → denied (os s) !! fullname = None →
  let r := utl_file_fopen (Some location) (Some filename) (Some [letter])
                          (Some max_linesize) s in
  (letter ∈ [ "r"; "R" ]%char →
   r = (Raise (RAISE_EXCEPTION INVALID_PATH), s)) ∧
  (letter ∈ [ "w"; "W"; "a"; "A" ]%char → ¬ table_full s →
   ∃ s', r = (Ok (next_slotid (slotid s)), s') ∧
     files (os s') = <[fullname := empty_file]> (files (os s)) ∧
     streams (os s') = <[next_file (os s) := empty_file]> (streams (os s))).
Proof.
  intros Hsize Hpath Hfile Hden r. split.
  - intros Hr.
    assert (Hmode : mode_of_letter letter = Some mode_r).
    { rewrite !elem_of_cons, elem_of_nil in Hr.
      by destruct Hr as [->|[->|[]]]. }
    unfold r. rewrite (fopen_valid_call _ _ _ mode_r _ fullname s Hsize Hmode Hpath).
    unfold bind, sys, fopen. rewrite Hden, Hfile.
    by rewrite IO_EXCEPTION_eq, set_os_id.
  - intros Hw Hroom.
    assert (Hmode : ∃ mode, mode_of_letter letter = Some mode ∧ mode ≠ mode_r).
    { rewrite !elem_of_cons, elem_of_nil in Hw.
      destruct Hw as [->|[->|[->|[->|[]]]]]; by eexists. }
    destruct Hmode as (mode & Hmode & Hnr).
    destruct (find_slot INVALID_SLOTID s) as [k|] eqn:Hk;
      [|by apply find_slot_not_full in Hk].
    set (w1 := {| streams := <[next_file (os s) := empty_file]> (streams (os s));
                  next_file := N.succ (next_file (os s));
                  files := <[fullname := empty_file]> (files (os s));
                  denied := denied (os s); utl_file_dir := utl_file_dir (os s);
                  st_blksize := st_blksize (os s); TMPDIR := TMPDIR (os s) |}).
    assert (Hopen : fopen fullname mode (os s) = (inr (next_file (os s)), w1)).
    { unfold fopen. rewrite Hden, Hfile. by destruct mode. }
    unfold r.
    rewrite (utl_file_fopen_ok location filename [letter] max_linesize letter
               mode fullname (next_file (os s)) w1 k s Hsize eq_refl Hmode
               Hpath Hopen Hk).
    by eexists.
Qed.

Lemma fputc_full c f st s :
  streams (os s) !! f = Some st → s_room st = Some 0 →
  sys (fputc c f) s = (Ok (Some (s_out_errno st)), s).
Proof.
  intros Hst Hroom. unfold sys, fputc. rewrite Hst, Hroom.
  by rewrite set_os_id.
Qed.

(** X22: when the device of a handle takes no more bytes, a call that has
    something to write raises what [CHECK_ERRNO_PUT] makes of [errno] --
    INVALID_OPERATION for EBADF, WRITE_ERROR for anything else -- and
    not VALUE_ERROR; [utl_file_put] with an empty buffer and
    [utl_file_new_line] for no line write nothing and return. *)
Theorem write_failure_raises d f max_linesize st c buffer s :
  get_stream d s = (Ok (f, max_linesize), s) →
  streams (os s) !! f = Some st → s_room st = Some 0 →
  (Z.of_nat (length (c :: buffer)) ≤ max_linesize)%Z →
  let e := RAISE_EXCEPTION (if (s_out_errno st =? EBADF)%Z
                            then INVALID_OPERATION else WRITE_ERROR) in
  utl_file_put (Some d) (Some (c :: buffer)) s = (Raise e, s) ∧
  utl_file_put_line (Some d) (Some (c :: buffer)) None s = (Raise e, s) ∧
  utl_file_put_line (Some d) (Some []) None s = (Raise e, s) ∧
  utl_file_new_line (Some d) None s = (Raise e, s) ∧
  utl_file_put (Some d) (Some []) s = (Ok true, s) ∧
  utl_file_new_line (Some d) (Some 0%Z) s = (Ok true, s).
Proof.
  intros Hget Hst Hroom Hlen e.
  assert (Hraise : ∀ A, CHECK_ERRNO_PUT (A:=A) (s_out_errno st) s = (Raise e, s)).
  { intros A. unfold CHECK_ERRNO_PUT, e, CUSTOM_EXCEPTION, raise. by case_match. }
  assert (Hput : ∀ buf, (Z.of_nat (length buf) ≤ max_linesize)%Z →
            do_put (Some d) (Some buf) s
            = match buf with
              | [] => (Ok f, s)
              | _ => (Raise e, s)
              end).
  { intros buf Hbuf. unfold do_put.
    change (CHECK_FILE_HANDLE (Some d)) with (ret d).
    rewrite bind_ret, (bind_Ok _ _ _ _ _ Hget). cbn beta iota.
    change (NOT_NULL_ARG 1 (Some buf)) with (ret (A:=text) buf).
    rewrite bind_ret. unfold CHECK_LENGTH, when.
    destruct (Z.gtb_spec (Z.of_nat (length buf)) max_linesize); [lia|].
    rewrite bind_ret. destruct buf as [|c0 buf0].
    - unfold bind, sys. simpl. by rewrite set_os_id.
    - unfold bind, sys. simpl.
      pose proof (fputc_full c0 f st s Hst Hroom) as Hc. unfold sys in Hc.
      destruct (fputc c0 f (os s)) as [r w]. injection Hc as -> Hw.
      simpl. rewrite Hw. apply Hraise. }
  assert (Hnl : do_new_line f 1 s = (Raise e, s)).
  { unfold do_new_line. simpl. unfold bind.
    rewrite (fputc_full LF f st s Hst Hroom). apply Hraise. }
  simpl in Hlen.
  split_and!.
  - unfold utl_file_put, bind. rewrite Hput by (simpl; lia). done.
  - unfold utl_file_put_line. unfold bind at 1. rewrite Hput by (simpl; lia). done.
  - unfold utl_file_put_line. unfold bind at 1. rewrite Hput by (simpl; lia).
    unfold bind at 1. by rewrite Hnl.
  - unfold utl_file_new_line.
    change (CHECK_FILE_HANDLE (Some d)) with (ret d).
    rewrite bind_ret, (bind_Ok _ _ _ _ _ Hget). cbn beta iota.
    unfold bind. simpl. by rewrite Hnl.
  - unfold utl_file_put, bind. rewrite Hput by (simpl; lia). done.
  - unfold utl_file_new_line.
    change (CHECK_FILE_HANDLE (Some d)) with (ret d).
    rewrite bind_ret, (bind_Ok _ _ _ _ _ Hget). done.
Qed.

(** ** A file from end to end *)

Lemma get_stream_new_handle n k file max_linesize w1 s :
  table_inv n s → (n < 2 ^ 32 - 1)%Z →
  find_slot INVALID_SLOTID s = Some k →
  let d := next_slotid (slotid s) in
  let s1 := {| slots := <[k := {| slot_file := file;
                                  slot_max_linesize := max_linesize;
                                  slot_id := d |}]> (slots s);
               slotid := d; os := w1 |} in
  get_stream d s1 = (Ok (file, max_linesize), s1).
Proof.
  intros Hinv Hn Hk d s1.
  pose proof (table_inv_fresh _ _ Hinv Hn) as Hfresh.
  assert (Hlen : length (slots s) = MAX_SLOTS) by (by destruct Hinv).
  apply find_slot_Some in Hk as (Hk & _).
  assert (Hsk : slot s1 k
                = {| slot_file := file; slot_max_linesize := max_linesize;
                     slot_id := d |}).
  { unfold slot, s1; simpl. apply list_lookup_total_insert_eq. lia. }
  assert (Hfind : find_slot d s1 = Some k).
  { apply find_slot_first; [done|by rewrite Hsk|].
    intros j Hj. unfold slot, s1; simpl.
    rewrite list_lookup_total_insert_ne by lia. apply Hfresh. lia. }
  rewrite (get_stream_found d k s1 (next_slotid_nonzero _) Hfind).
  by rewrite Hsk.
Qed.

(** X23: a file opened for reading is read as it stands: in a session a
    fresh backend reaches by calls none of which writes to a stream and of
    which fewer than 2^32 - 1 are [utl_file_fopen], with a slot free,
    [utl_file_fopen] with r or R on a text file whose lines are shorter
    than [max_linesize] returns a handle, and [utl_file_get_nextline] on
    this handle returns the lines of the file in their order and then
    NULL. *)
Theorem open_and_read_a_file
  w cs location filename letter max_linesize fullname file ls :
  Forall (λ c, is_write c = false) cs →
  (fopen_calls cs < 2 ^ 32 - 1)%Z →
  ¬ table_full (run_all cs (initial_session w)) →
  letter ∈ [ "r"; "R" ]%char →
  (1 ≤ max_linesize ≤ MAX_LINESIZE)%Z →
  fst (get_safe_path location filename (run_all cs (initial_session w)))
  = Ok fullname →
  denied (os (run_all cs (initial_session w))) !! fullname = None →
  files (os (run_all cs (initial_session w))) !! fullname = Some file →
  s_in file = file_bytes ls → s_in_errno file = 0%Z →
  Forall (λ lt, readable max_linesize lt.1 ∧ newline lt.2) ls →
  ∃ d s1,
    utl_file_fopen (Some location) (Some filename) (Some [letter])
                   (Some max_linesize) (run_all cs (initial_session w))
    = (Ok d, s1) ∧
    fst (read_lines (S (length ls)) (Some d) s1)
    = map (λ lt, Ok (Some lt.1)) ls ++ [Ok None].
Proof.
  set (s := run_all cs (initial_session w)).
  intros _ Hn Hroom Hr Hsize Hpath Hden Hfile Hin Herr Hall.
  assert (Hinv : table_inv (fopen_calls cs) s).
  { apply (table_inv_run_all cs 0 (initial_session w) (table_inv_initial w)).
    lia. }
  assert (Hmode : mode_of_letter letter = Some mode_r).
  { rewrite !elem_of_cons, elem_of_nil in Hr. by destruct Hr as [->|[->|[]]]. }
  destruct (find_slot INVALID_SLOTID s) as [k|] eqn:Hk;
    [|by apply find_slot_not_full in Hk].
  set (w1 := {| streams := <[next_file (os s) := file]> (streams (os s));
                next_file := N.succ (next_file (os s));
                files := files (os s);
                denied := denied (os s); utl_file_dir := utl_file_dir (os s);
                st_blksize := st_blksize (os s); TMPDIR := TMPDIR (os s) |}).
  assert (Hopen : fopen fullname mode_r (os s) = (inr (next_file (os s)), w1)).
  { unfold fopen. by rewrite Hden, Hfile. }
  pose proof (get_stream_new_handle _ k (next_file (os s)) max_linesize w1 s
                Hinv Hn Hk) as Hget.
  simpl in Hget.
  eexists _, _. split.
  { exact (utl_file_fopen_ok location filename [letter] max_linesize letter
             mode_r fullname (next_file (os s)) w1 k s Hsize eq_refl Hmode
             Hpath Hopen Hk). }
  apply (read_lines_spec _ (next_file (os s)) max_linesize file ls);
    [by rewrite Hget|apply lookup_insert_eq|lia|done..].
Qed.

(** ** Renaming there and back *)

Lemma frename_valid_call
  src_location src_filename dst_location dst_filename overwrite
  srcpath dstpath s :
  fst (get_safe_path src_location src_filename s) = Ok srcpath →
  fst (get_safe_path dst_location dst_filename s) = Ok dstpath →
  stat dstpath (os s) = Some ENOENT →
  utl_file_frename (Some src_location) (Some src_filename)
                   (Some dst_location) (Some dst_filename) overwrite s
  = rename_outcome srcpath dstpath s.
Proof.
  intros Hsrc Hdst Hst. apply get_safe_path_Ok in Hsrc, Hdst.
  unfold utl_file_frename. unfold bind at 1 2 3 4; simpl.
  unfold bind at 1. rewrite Hsrc. unfold bind at 1. rewrite Hdst.
  assert (Hcheck : (if negb (default false overwrite) then
                      let* st := sys (λ w, (stat dstpath w, w)) in
                      match st with
                      | None => CUSTOM_EXCEPTION WRITE_ERROR
                      | Some errno =>
                        if negb (errno =? ENOENT)%Z then IO_EXCEPTION errno
                        else ret tt
                      end
                    else ret tt) s = (Ok tt, s)).
  { destruct (negb _); [|done]. unfold bind, sys. rewrite Hst.
    by rewrite set_os_id. }
  rewrite (bind_Ok _ _ _ _ _ Hcheck).
  unfold bind, sys, rename_outcome.
  destruct (rename srcpath dstpath (os s)) as [[errno|] w]; [|done].
  apply IO_EXCEPTION_eq.
Qed.

(** X24: [utl_file_frename] moves a file to a name that is free, whether
    or not [overwrite] is set: afterwards the file is under the new name
    and the old name is free.  Renaming it back then restores the session
    exactly. *)
Theorem frename_there_and_back
  location1 filename1 location2 filename2 overwrite path1 path2 file s :
  fst (get_safe_path location1 filename1 s) = Ok path1 →
  fst (get_safe_path location2 filename2 s) = Ok path2 →
  files (os s) !! path1 = Some file → denied (os s) !! path1 = None →
  files (os s) !! path2 = None → denied (os s) !! path2 = None →
  ∃ s1,
    utl_file_frename (Some location1) (Some filename1)
                     (Some location2) (Some filename2) overwrite s
    = (Ok tt, s1) ∧
    files (os s1) !! path1 = None ∧
    files (os s1) !! path2 = Some file ∧
    utl_file_frename (Some location2) (Some filename2)
                     (Some location1) (Some filename1) overwrite s1
    = (Ok tt, s).
Proof.
  intros Hp1 Hp2 Hf1 Hd1 Hf2 Hd2.
  assert (Hne : path1 ≠ path2) by congruence.
  set (s1 := set_os (set_files (<[path2 := file]> (delete path1 (files (os s))))
                               (os s)) s).
  assert (H1 : files (os s1) !! path1 = None).
  { simpl. rewrite lookup_insert_ne by done. apply lookup_delete_eq. }
  assert (H2 : files (os s1) !! path2 = Some file).
  { simpl. apply lookup_insert_eq. }
  exists s1. split; [|split; [done|split; [done|]]].
  - rewrite (frename_valid_call _ _ _ _ _ path1 path2 s Hp1 Hp2).
    + unfold rename_outcome, rename. by rewrite Hd1, Hd2, Hf1.
    + unfold stat. by rewrite Hd2, Hf2.
  - rewrite (frename_valid_call _ _ _ _ _ path2 path1 s1).
    + unfold rename_outcome, rename.
      change (denied (os s1)) with (denied (os s)). rewrite Hd1, Hd2, H2.
      f_equal. destruct s as [sl sid [? ? fs ? ? ? ?]]. unfold s1, set_os, set_files.
      simpl in *. do 2 f_equal.
      apply map_eq. intros p.
      destruct (decide (p = path1)) as [->|Hp1']; [by rewrite lookup_insert_eq|].
      rewrite lookup_insert_ne by done.
      destruct (decide (p = path2)) as [->|Hp2'].
      * by rewrite lookup_delete_eq.
      * rewrite lookup_delete_ne, lookup_insert_ne, lookup_delete_ne by done.
        done.
    + rewrite <- Hp2. by apply get_safe_path_dirs.
    + rewrite <- Hp1. by apply get_safe_path_dirs.
    + unfold stat. change (denied (os s1)) with (denied (os s)).
      by rewrite Hd1, H1.
Qed.

(** ** Flushing after a line *)

(** X25: with [autoflush] true [utl_file_put_line] flushes after it has
    written the line and its line feed.  When the flush fails the call
    raises -- INVALID_OPERATION for EBADF, WRITE_ERROR otherwise -- but the
    line is on the stream all the same; when it succeeds the call does what
    it does without [autoflush]. *)
Theorem put_line_writes_before_it_flushes d f max_linesize st buffer s :
  get_stream d s = (Ok (f, max_linesize), s) →
  streams (os s) !! f = Some st → s_room st = None →
  (Z.of_nat (length buffer) ≤ max_linesize)%Z →
  let s' := append_out f (buffer ++ [LF]) s in
  utl_file_put_line (Some d) (Some buffer) None s = (Ok true, s') ∧
  utl_file_put_line (Some d) (Some buffer) (Some false) s = (Ok true, s') ∧
  (s_flush_errno st = 0%Z →
   utl_file_put_line (Some d) (Some buffer) (Some true) s = (Ok true, s')) ∧
  (s_flush_errno st ≠ 0%Z →
   utl_file_put_line (Some d) (Some buffer) (Some true) s
   = (Raise (RAISE_EXCEPTION (if (s_flush_errno st =? EBADF)%Z
                              then INVALID_OPERATION else WRITE_ERROR)), s')).
Proof.
  intros Hget Hst Hroom Hlen s'.
  assert (Hline : ∀ autoflush,
            utl_file_put_line (Some d) (Some buffer) autoflush s
            = ((if default false autoflush then do_flush f else ret tt) ;;;
               ret true) s').
  { intros autoflush. unfold utl_file_put_line.
    rewrite (bind_Ok _ _ _ _ _
               (do_put_ok d f max_linesize st buffer s Hget Hst Hroom Hlen)).
    destruct (append_out_open f buffer s st Hst Hroom) as (st' & Hst' & Hroom').
    unfold do_new_line.
    rewrite (bind_Ok _ _ _ _ _ (do_new_line_loop_ok _ f st' _ Hst' Hroom')).
    simpl. by rewrite append_out_app. }
  assert (Hst' : streams (os s') !! f
                 = Some (set_out (s_out st ++ buffer ++ [LF]) (s_room st) st)).
  { by apply append_out_lookup. }
  split; [by rewrite Hline|]. split; [by rewrite Hline|]. split.
  - intros Hok. rewrite Hline. simpl. unfold do_flush, bind, sys, fflush.
    rewrite Hst'. simpl. rewrite Hok. simpl.
    rewrite (set_os_id s'). reflexivity.
  - intros Hbad. rewrite Hline. simpl. unfold do_flush, bind, sys, fflush.
    rewrite Hst'. simpl. apply Z.eqb_neq in Hbad. rewrite Hbad.
    rewrite (set_os_id s'). unfold CUSTOM_EXCEPTION, raise.
    by destruct (s_flush_errno st =? EBADF)%Z.
Qed.

(** ** Room in the table *)

(** X26: [utl_file_fopen] raises PROGRAM_LIMIT_EXCEEDED only when all 50
    slots are occupied, and a [utl_file_fclose] that returns leaves a slot
    free, so that the limit is on the handles open at the same time, not
    on the handles opened in a session. *)
Theorem limit_error_means_full_table s :
  length (slots s) = MAX_SLOTS →
  (∀ arg0 arg1 arg2 arg3,
     fst (utl_file_fopen arg0 arg1 arg2 arg3 s) = Raise PROGRAM_LIMIT_EXCEEDED →
     table_full s) ∧
  (∀ d s', utl_file_fclose d s = (Ok tt, s') → ¬ table_full s').
Proof.
  intros Hlen. split.
  - intros arg0 arg1 arg2 arg3. unfold utl_file_fopen.
    destruct arg0 as [location|], arg1 as [filename|], arg2 as [open_mode|],
      arg3 as [max_linesize|]; try done.
    unfold bind at 1 2 3 4; simpl.
    unfold NON_EMPTY_TEXT, CHECK_LINESIZE, when, bind at 1 2 3.
    destruct (length open_mode =? 0); [done|].
    destruct (_ || _); [done|].
    destruct (negb _); [done|]. simpl.
    destruct (mode_of_letter _) as [mode|]; [|done].
    unfold bind at 1.
    destruct (get_safe_path location filename s) as [[fullname|e] s0] eqn:Hpath.
    2:{ simpl. intros [= ->]. revert Hpath.
        unfold get_safe_path, NON_EMPTY_TEXT, check_secure_locality, when, bind,
          ret, raise.
        repeat (case_match; simplify_eq/=; try done). }
    pose proof (get_safe_path_session location filename s) as Hs.
    rewrite Hpath in Hs. simpl in Hs. subst s0.
    unfold bind, sys.
    destruct (fopen fullname mode (os s)) as [[errno|file] w].
    { rewrite IO_EXCEPTION_eq. unfold io_error. simpl. by case_match. }
    unfold get_descriptor. rewrite get_descriptor_from_find.
    change (find_slot_from MAX_SLOTS 0 INVALID_SLOTID (set_os w s))
      with (find_slot INVALID_SLOTID s).
    destruct (find_slot INVALID_SLOTID s) as [k|] eqn:Hk.
    + simpl.
      destruct (Z.eqb_spec (next_slotid (slotid s)) INVALID_SLOTID) as [E|_];
        [by destruct (next_slotid_nonzero (slotid s))|done].
    + intros _. by apply find_slot_not_full.
  - intros d s' Hclose Hfull. unfold utl_file_fclose in Hclose.
    destruct (find_slot d s) as [k|] eqn:Hk; [|done].
    apply find_slot_Some in Hk as (Hk & _).
    destruct (close_slot_cases k s)
      as [(w & E & _)|(w & errno & E & _)]; rewrite E in Hclose; [|done].
    injection Hclose as <-.
    apply (Hfull k Hk). rewrite slot_set_slot_eq; [done|simpl; lia].
Qed.

(** ** Written and read back *)

(** X27: lines written with [utl_file_put_line] read back with
    [utl_file_get_nextline]: when a reader's unread input is what a writer
    has put on a new stream, one [utl_file_put_line] for each line, and the
    lines hold no CR and no LF and are shorter than the reader's
    [max_linesize], the reader gets the lines in their order and then
    NULL. *)
Theorem written_lines_read_back
  dw fw writer_linesize stw ls s dr fr reader_linesize str t :
  get_stream dw s = (Ok (fw, writer_linesize), s) →
  streams (os s) !! fw = Some stw → s_room stw = None → s_out stw = [] →
  Forall (λ l, (Z.of_nat (length l) ≤ writer_linesize)%Z) ls →
  fst (get_stream dr t) = Ok (fr, reader_linesize) →
  streams (os t) !! fr = Some str →
  Some (s_in str)
  = s_out <$> streams (os (snd (put_lines ls (Some dw) s))) !! fw →
  s_in_errno str = 0%Z →
  (1 ≤ reader_linesize)%Z →
  Forall (readable reader_linesize) ls →
  fst (put_lines ls (Some dw) s) = Ok tt ∧
  fst (read_lines (S (length ls)) (Some dr) t)
  = map (λ l, Ok (Some l)) ls ++ [Ok None].
Proof.
  intros Hgw Hstw Hroom Hout Hlen Hgr Hstr Hin Herr Hmax Hread.
  destruct (put_lines_spec dw fw writer_linesize stw ls s Hgw Hstw Hroom Hlen)
    as [Hput Hafter].
  split; [by rewrite Hput|].
  rewrite Hafter in Hin. simpl in Hin. rewrite Hout in Hin. simpl in Hin.
  injection Hin as Hin.
  pose proof (read_lines_spec dr fr reader_linesize str
                (map (λ l, (l, [LF])) ls) t Hgr Hstr Hmax Hin Herr) as H.
  rewrite length_map, map_map in H. simpl in H. apply H.
  apply Forall_map. eapply Forall_impl; [exact Hread|].
  intros l Hl. simpl. split; [done|by left].
Qed.

End UtlFile.

(** * The statements at concrete sessions *)

(** The entry points on the host above. *)
Abbreviation run_model := (run canonicalize_path_model pg_verifymbstr_model).
Abbreviation two_handles_model :=
  (two_handles canonicalize_path_model pg_verifymbstr_model).
Abbreviation fifty_handles_model :=
  (fifty_handles canonicalize_path_model pg_verifymbstr_model).
Abbreviation log_then_full_model :=
  (log_then_full canonicalize_path_model pg_verifymbstr_model).
Abbreviation reachable_model :=
  (reachable canonicalize_path_model pg_verifymbstr_model).
Abbreviation log_path := (cstr "/tmp/allowed/log").
Abbreviation one_writer_model :=
  (one_writer canonicalize_path_model pg_verifymbstr_model).

Lemma two_handles_open_streams : open_streams two_handles_model.
Proof.
  intros i Hi Ho Hf.
  destruct i as [|[|i]].
  - split; [by eexists|]. intros j Hj. lia.
  - split; [by eexists|]. intros j Hj _.
    assert (j = 0) as -> by lia. vm_compute. discriminate.
  - exfalso. apply Ho. unfold MAX_SLOTS in Hi.
    do 48 (destruct i as [|i]; [vm_compute; reflexivity|]). lia.
Qed.



Lemma fopen_table_full_closes_stream_witness :
  let s := fifty_handles_model in
  let fullname := cstr "/tmp/allowed/log" in
  let w1 := snd (fopen fullname mode_r (os s)) in
  table_full s ∧
  (1 ≤ 100 ≤ MAX_LINESIZE)%Z ∧
  cstr "r" = ["r"%char] ∧
  mode_of_letter "r" = Some mode_r ∧
  fst (get_safe_path canonicalize_path_model
         (cstr "/tmp/allowed") (cstr "log") s) = Ok fullname ∧
  fopen fullname mode_r (os s) = (inr 51%N, w1) ∧
  let '(r, s') :=
    utl_file_fopen canonicalize_path_model
      (Some (cstr "/tmp/allowed")) (Some (cstr "log")) (Some (cstr "r"))
      (Some 100%Z) s in
  r = Raise PROGRAM_LIMIT_EXCEEDED ∧
  same_table s s' ∧
  is_Some (streams w1 !! 51%N) ∧
  os s' = snd (fclose 51 w1) ∧
  streams (os s') !! 51%N = None ∧
  (∀ f, f ≠ 51%N → streams (os s') !! f = streams (os s) !! f) ∧
  ∀ arg0 arg1 arg2 arg3,
    is_raise (fst (utl_file_fopen canonicalize_path_model
                     arg0 arg1 arg2 arg3 s)) = true.
Proof.
  intros s fullname w1.
  assert (H1 : table_full s) by (apply table_full_check; vm_compute; reflexivity).
  assert (H2 : (1 ≤ 100 ≤ MAX_LINESIZE)%Z) by (unfold MAX_LINESIZE; lia).
  assert (H3 : cstr "r" = ["r"%char]) by reflexivity.
  assert (H4 : mode_of_letter "r" = Some mode_r) by reflexivity.
  assert (H5 : fst (get_safe_path canonicalize_path_model
                      (cstr "/tmp/allowed") (cstr "log") s) = Ok fullname)
    by (vm_compute; reflexivity).
  assert (H6 : fopen fullname mode_r (os s) = (inr 51%N, w1))
    by (vm_compute; reflexivity).
  do 6 (split; [assumption|]).
  exact (fopen_table_full_closes_stream canonicalize_path_model
           (cstr "/tmp/allowed") (cstr "log") (cstr "r") 100 "r" mode_r
           fullname 51%N w1 s H1 H2 H3 H4 H5 H6).
Defined.

(** C7: the claim fails on the code.  Handle 1 is open on a device whose
    [fclose] fails, with a byte written to it.  [utl_file_fclose] of
    handle 1 raises WRITE_ERROR before it clears the slot (lines 678-686):
    the stream is gone, as after every [fclose], but the slot keeps its
    [id] and the address of that stream, so handle 1 still resolves and
    [utl_file_is_open] still answers true, for a stream that is no more. *)
Lemma failed_fclose_keeps_closed_stream :
  let s := run_all canonicalize_path_model pg_verifymbstr_model
             [open_example "full" "a"; open_example "log" "r";
              PUT (Some 1%Z) (Some (cstr "x"))]
             (initial_session example_world) in
  let '(r, s') := run_model (FCLOSE 1) s in
  fst (get_stream 1 s) = Ok (1%N, 100%Z) ∧
  s_out <$> streams (os s) !! 1%N = Some (cstr "x") ∧
  r = Raise (RAISE_EXCEPTION WRITE_ERROR) ∧
  streams (os s') !! 1%N = None ∧
  slot s' 0 = slot s 0 ∧
  slot_id (slot s' 0) = 1%Z ∧ slot_file (slot s' 0) = 1%N ∧
  fst (get_stream 1 s') = Ok (1%N, 100%Z) ∧
  fst (utl_file_is_open (Some 1%Z) s') = Ok true.
Proof. vm_compute. repeat (split; [reflexivity|]). reflexivity. Qed.

Lemma log_not_denied : denied example_world !! log_path = None.
Proof. vm_compute. reflexivity. Qed.

Lemma log_is_a_file : files example_world !! log_path = Some log_file.
Proof. vm_compute. reflexivity. Qed.

(** Opening the log in a cycling session takes slot 1. *)
Lemma cycling_open c nf m1 :
  run_model (open_example "log" "r") (cycling_session c nf m1)
  = (Ok (D_int32 (next_slotid c)),
     {| slots := <[1 := {| slot_file := nf; slot_max_linesize := 100;
                           slot_id := next_slotid c |}]>
                   (slots (cycling_session c nf m1));
        slotid := next_slotid c;
        os := {| streams := <[nf := log_file]> {[ 1%N := log_file ]};
                 next_file := N.succ nf;
                 files := files example_world; denied := denied example_world;
                 utl_file_dir := utl_file_dir example_world;
                 st_blksize := st_blksize example_world;
                 TMPDIR := TMPDIR example_world |} |}).
Proof.
  unfold run, open_example, fmap_M, bind.
  erewrite (utl_file_fopen_ok canonicalize_path_model
              (cstr "/tmp/allowed") (cstr "log") (cstr "r") 100 "r" mode_r
              log_path nf _ 1 (cycling_session c nf m1)); [done|..].
  - unfold MAX_LINESIZE; lia.
  - reflexivity.
  - reflexivity.
  - vm_compute. reflexivity.
  - unfold fopen.
    change (denied (os (cycling_session c nf m1))) with (denied example_world).
    change (files (os (cycling_session c nf m1))) with (files example_world).
    rewrite log_not_denied, log_is_a_file. reflexivity.
  - apply find_slot_first; [unfold MAX_SLOTS; lia|reflexivity|].
    intros j Hj. assert (j = 0) as -> by lia. vm_compute. discriminate.
Qed.

(** One turn: open a second handle and close it again. *)
Lemma cycling_turn c nf m1 :
  (- 2 ^ 31 ≤ c < 2 ^ 31)%Z → c ≠ 0%Z → c ≠ (-1)%Z → (2 ≤ nf)%N →
  snd (run_model (FCLOSE (next_slotid c))
         (snd (run_model (open_example "log" "r") (cycling_session c nf m1))))
  = cycling_session (int32_wrap (c + 1)) (nf + 1) 100.
Proof.
  intros Hc Hc0 Hc1 Hnf. rewrite cycling_open. cbn [snd].
  rewrite (next_slotid_no_wrap c) by done.
  assert (Hd : int32_wrap (c + 1) ≠ 1%Z).
  { unfold int32_wrap. destruct (Z_lt_le_dec (c + 1) (2 ^ 31)).
    - rewrite Z.mod_small; lia.
    - rewrite <- (Z_mod_plus_full _ (-1)). rewrite Z.mod_small; lia. }
  set (d := int32_wrap (c + 1)) in *.
  unfold run, fmap_M, bind.
  erewrite (utl_file_fclose_ok d 1 log_file).
  - cbn [snd]. unfold cycling_session, cycling_world, set_slot, set_os,
      set_streams, cleared; simpl.
    f_equal. f_equal; [|lia].
    apply delete_insert_id. apply lookup_singleton_ne. lia.
  - apply find_slot_first; [unfold MAX_SLOTS; lia|reflexivity|].
    intros j Hj. assert (j = 0) as -> by lia. simpl. congruence.
  - change (nf ≠ 0%N). lia.
  - apply lookup_insert_eq.
  - reflexivity.
Qed.

Lemma cycling_start :
  snd (run_model (open_example "log" "r") (initial_session example_world))
  = cycling_session 1 2 0.
Proof. vm_compute. reflexivity. Qed.

(** After [k] turns the counter stands at [1 + k], wrapped. *)
Lemma cycling_reachable k :
  (0 ≤ k)%Z → (k ≤ 2 ^ 32 - 2)%Z →
  ∃ m1, reachable_model
          (cycling_session (int32_wrap (1 + k)) (Z.to_N (2 + k)) m1).
Proof.
  intros Hk. pattern k. apply natlike_ind; [| |done]; clear k Hk.
  - intros _. exists 0%Z. change (reachable_model (cycling_session 1 2 0)).
    rewrite <- cycling_start.
    apply reachable_run. by exists example_world, [].
  - intros k Hk IH Hle. destruct IH as [m1 IH]; [lia|].
    exists 100%Z.
    assert (Hw : int32_wrap (1 + k)
                 = (if (1 + k <? 2 ^ 31)%Z then 1 + k else 1 + k - 2 ^ 32)%Z)
      by (apply int32_wrap_cases; lia).
    assert (Hr : (- 2 ^ 31 ≤ int32_wrap (1 + k) < 2 ^ 31)%Z)
      by apply int32_wrap_range.
    assert (Hnext : int32_wrap (int32_wrap (1 + k) + 1)
                    = int32_wrap (1 + Z.succ k)).
    { rewrite Hw. destruct (Z.ltb_spec (1 + k) (2 ^ 31)).
      - f_equal. lia.
      - unfold int32_wrap. rewrite <- (Z_mod_plus_full _ 1). f_equal. f_equal. lia. }
    pose proof (cycling_turn (int32_wrap (1 + k)) (Z.to_N (2 + k)) m1) as Ht.
    rewrite Hnext in Ht.
    replace (Z.to_N (2 + k) + 1)%N with (Z.to_N (2 + Z.succ k)) in Ht by lia.
    rewrite <- Ht.
    + by do 2 apply reachable_run.
    + done.
    + rewrite Hw. destruct (1 + k <? 2 ^ 31)%Z; lia.
    + rewrite Hw. destruct (1 + k <? 2 ^ 31)%Z; lia.
    + lia.
Qed.

Lemma wrapped_session_reachable : reachable_model wrapped_session.
Proof.
  destruct (cycling_reachable (2 ^ 32 - 2)) as [m1 H]; [lia..|].
  replace (int32_wrap (1 + (2 ^ 32 - 2))) with (-1)%Z in H
    by (vm_compute; reflexivity).
  replace (Z.to_N (2 + (2 ^ 32 - 2))) with (2 ^ 32)%N in H
    by (vm_compute; reflexivity).
  apply (reachable_run _ _ (open_example "log" "r")) in H.
  rewrite cycling_open in H. exact H.
Qed.



Lemma get_safe_path_sandbox_witness :
  let s := initial_session example_world in
  let dirs := [cstr "/tmp/allowed"] in
  let location := cstr "/tmp/allowed/./sub/.." in
  let filename := cstr "x.txt" in
  let path := canonicalize_path_model (location ++ cstr "/" ++ filename) in
  utl_file_dir (os s) = Some dirs ∧
  path = cstr "/tmp/allowed/x.txt" ∧
  (location = [] ∨ filename = [] →
   get_safe_path canonicalize_path_model location filename s
   = (Raise INVALID_PARAMETER_VALUE, s)) ∧
  (location ≠ [] → filename ≠ [] → path ≠ regress_path →
   (allowed dirs path →
    get_safe_path canonicalize_path_model location filename s = (Ok path, s)) ∧
   (¬ allowed dirs path →
    get_safe_path canonicalize_path_model location filename s
    = (Raise (RAISE_EXCEPTION INVALID_PATH), s)) ∧
   (fst (get_safe_path canonicalize_path_model location filename s) = Ok path
    ↔ allowed dirs path)) ∧
  (location ≠ [] → filename ≠ [] → path = regress_path →
   get_safe_path canonicalize_path_model location filename s = (Ok path, s)) ∧
  ¬ under_prefix (cstr "/tmp/allowed_evil/x") (cstr "/tmp/allowed").
Proof.
  intros s dirs location filename path.
  assert (H : utl_file_dir (os s) = Some dirs) by reflexivity.
  split; [exact H|]. split; [vm_compute; reflexivity|].
  exact (get_safe_path_sandbox canonicalize_path_model location filename dirs s H).
Defined.

(** C1 as stated fails in both directions: [/tmp/regress_orafce] is accepted
    although the table of allowed directories is empty, and with an empty
    directory the call is refused with the invalid-parameter error although
    the path it would build lies under a registered directory. *)
Lemma regress_path_bypasses_the_table :
  let s := initial_session empty_world in
  let s2 := initial_session example_world in
  utl_file_dir (os s) = Some [] ∧
  ¬ allowed [] regress_path ∧
  check_secure_locality regress_path s = (Ok tt, s) ∧
  get_safe_path canonicalize_path_model (cstr "/tmp") (cstr "regress_orafce") s
  = (Ok regress_path, s) ∧
  utl_file_dir (os s2) = Some [cstr "/tmp/allowed"] ∧
  allowed [cstr "/tmp/allowed"]
    (canonicalize_path_model ([] ++ cstr "/" ++ cstr "tmp/allowed/x")) ∧
  get_safe_path canonicalize_path_model [] (cstr "tmp/allowed/x") s2
  = (Raise INVALID_PARAMETER_VALUE, s2).
Proof.
  intros s s2. split; [reflexivity|]. split.
  { intros (dir & Hin & _). by apply elem_of_nil in Hin. }
  split; [reflexivity|]. split; [vm_compute; reflexivity|].
  split; [reflexivity|]. split; [|reflexivity].
  exists (cstr "/tmp/allowed"). split; [apply list_elem_of_here|].
  exists (cstr "x"). vm_compute. reflexivity.
Qed.

Lemma fopen_mode_letters_witness :
  let s := initial_session example_world in
  let location := cstr "/tmp/allowed" in
  let filename := cstr "log" in
  let open_mode := cstr "R" in
  let max_linesize := 100%Z in
  (1 ≤ max_linesize ≤ MAX_LINESIZE)%Z ∧
  let open m :=
    utl_file_fopen canonicalize_path_model (Some location) (Some filename)
                   (Some m) (Some max_linesize) s in
  (open_mode = [] → open open_mode = (Raise INVALID_PARAMETER_VALUE, s)) ∧
  (2 ≤ length open_mode →
   open open_mode = (Raise (RAISE_EXCEPTION INVALID_MODE), s)) ∧
  (∀ c, open_mode = [c] →
     c ∉ [ "r"; "R"; "w"; "W"; "a"; "A" ]%char →
     open open_mode = (Raise (RAISE_EXCEPTION INVALID_MODE), s)) ∧
  (∀ c, open_mode = [c] →
     c ∈ [ "r"; "R"; "w"; "W"; "a"; "A" ]%char →
     fst (open open_mode) ≠ Raise (RAISE_EXCEPTION INVALID_MODE)) ∧
  open (cstr "r") = open (cstr "R") ∧
  open (cstr "w") = open (cstr "W") ∧
  open (cstr "a") = open (cstr "A").
Proof.
  intros s location filename open_mode max_linesize.
  assert (H : (1 ≤ max_linesize ≤ MAX_LINESIZE)%Z)
    by (unfold max_linesize, MAX_LINESIZE; lia).
  split; [exact H|].
  exact (fopen_mode_letters canonicalize_path_model location filename
           open_mode max_linesize s H).
Defined.

(** C10 as stated fails for the empty mode: its length is not one, yet the
    call raises the invalid-parameter error of an empty string, not
    INVALID_MODE. *)
Lemma empty_mode_is_not_invalid_mode :
  let r := fst (utl_file_fopen canonicalize_path_model
                  (Some (cstr "/tmp/allowed")) (Some (cstr "log"))
                  (Some (cstr "")) (Some 100%Z)
                  (initial_session example_world)) in
  length (cstr "") ≠ 1 ∧
  r = Raise INVALID_PARAMETER_VALUE ∧
  r ≠ Raise (RAISE_EXCEPTION INVALID_MODE).
Proof. vm_compute. split; [discriminate|]. split; [reflexivity|discriminate]. Qed.

Lemma frename_overwrite_protection_witness :
  let s := initial_session example_world in
  let dir := cstr "/tmp/allowed" in
  let srcpath := cstr "/tmp/allowed/log" in
  let dstpath := cstr "/tmp/allowed/full" in
  fst (get_safe_path canonicalize_path_model dir (cstr "log") s) = Ok srcpath ∧
  fst (get_safe_path canonicalize_path_model dir (cstr "full") s) = Ok dstpath ∧
  stat dstpath (os s) = None ∧
  fst (utl_file_frename canonicalize_path_model (Some dir) (Some (cstr "log"))
         (Some dir) (Some (cstr "full")) (Some false) s)
  = Raise (RAISE_EXCEPTION WRITE_ERROR) ∧
  let r := utl_file_frename canonicalize_path_model (Some dir)
             (Some (cstr "log")) (Some dir) (Some (cstr "full")) (Some true) s in
  (Some true ≠ Some true →
   (stat dstpath (os s) = None →
    r = (Raise (RAISE_EXCEPTION WRITE_ERROR), s)) ∧
   (∀ errno, stat dstpath (os s) = Some errno → errno ≠ ENOENT →
      r = (Raise (io_error errno), s) ∧
      io_error errno ≠ RAISE_EXCEPTION WRITE_ERROR) ∧
   (stat dstpath (os s) = Some ENOENT →
    r = rename_outcome srcpath dstpath s)) ∧
  (Some true = Some true →
   r = rename_outcome srcpath dstpath s ∧
   ∀ f, files (os s) !! srcpath = Some f →
        denied (os s) !! srcpath = None → denied (os s) !! dstpath = None →
        fst r = Ok tt ∧
        files (os (snd r)) !! dstpath = Some f ∧
        (srcpath ≠ dstpath → files (os (snd r)) !! srcpath = None)).
Proof.
  intros s dir srcpath dstpath.
  assert (H1 : fst (get_safe_path canonicalize_path_model dir (cstr "log") s)
               = Ok srcpath) by (vm_compute; reflexivity).
  assert (H2 : fst (get_safe_path canonicalize_path_model dir (cstr "full") s)
               = Ok dstpath) by (vm_compute; reflexivity).
  assert (H3 : stat dstpath (os s) = None) by (vm_compute; reflexivity).
  do 3 (split; [assumption|]). split.
  - pose proof (frename_overwrite_protection canonicalize_path_model
                  dir (cstr "log") dir (cstr "full") (Some false)
                  srcpath dstpath s H1 H2) as [Hno _].
    destruct Hno as [Hex _]; [discriminate|]. by rewrite (Hex H3).
  - exact (frename_overwrite_protection canonicalize_path_model
             dir (cstr "log") dir (cstr "full") (Some true)
             srcpath dstpath s H1 H2).
Defined.

Lemma putf_emits_items_witness :
  let s := one_writer_model in
  let format := cstr "a%sb\nc" in
  let args := [Some (cstr "X")] in
  let items := putf_items format args 0 in
  let call := utl_file_putf (Some 1%Z) (Some format) args s in
  fst (get_stream 1 s) = Ok (1%N, 100%Z) ∧
  streams (os s) !! 1%N = Some empty_file ∧
  s_room empty_file = None ∧
  (0 ≤ 100)%Z ∧
  (items_count items ≤ 100)%Z ∧
  s_out <$> streams (os (snd call)) !! 1%N = Some ["a"; "X"; "b"; "010"; "c"]%char ∧
  ((items_count items ≤ 100)%Z →
   call = (Ok true, append_out 1 (items_bytes items) s)) ∧
  ((items_count items > 100)%Z →
   ∃ k, k < length items ∧
     (items_count (take k items) ≤ 100)%Z ∧
     (items_count (take (S k) items) > 100)%Z ∧
     call = (Raise (RAISE_EXCEPTION VALUE_ERROR),
             append_out 1 (items_bytes (take k items)) s)) ∧
  items_bytes (putf_items (cstr "a%sb\nc") [Some (cstr "X")] 0)
  = ["a"; "X"; "b"; "010"; "c"]%char ∧
  items_bytes (putf_items (cstr "%%") [] 0) = ["%"%char].
Proof.
  intros s format args items call.
  assert (H1 : fst (get_stream 1 s) = Ok (1%N, 100%Z)) by (vm_compute; reflexivity).
  assert (H2 : streams (os s) !! 1%N = Some empty_file) by (vm_compute; reflexivity).
  assert (H3 : s_room empty_file = None) by reflexivity.
  assert (H4 : (0 ≤ 100)%Z) by lia.
  assert (H5 : (items_count items ≤ 100)%Z) by (vm_compute; discriminate).
  assert (H6 : s_out <$> streams (os (snd call)) !! 1%N
               = Some ["a"; "X"; "b"; "010"; "c"]%char) by (vm_compute; reflexivity).
  do 6 (split; [assumption|]).
  exact (putf_emits_items (Z.of_nat 1) format args 1%N 100%Z empty_file s
           H1 H2 H3 H4).
Defined.

(** C6 as stated fails: the format [%dX] holds no [%s], [%%] or newline
    escape, so each of its characters is "any other character", yet the
    call succeeds and writes the single byte [X]: the [%] and the [d] after
    it are dropped. *)
Lemma putf_drops_unknown_directive :
  let s := one_writer_model in
  let call := utl_file_putf (Some 1%Z) (Some (cstr "%dX")) [] s in
  fst call = Ok true ∧
  s_out <$> streams (os s) !! 1%N = Some [] ∧
  s_out <$> streams (os (snd call)) !! 1%N = Some (cstr "X") ∧
  cstr "X" ≠ cstr "%dX".
Proof. vm_compute. repeat (split; [reflexivity|]). discriminate. Qed.

Lemma get_line_reads_one_line_witness :
  let s := log_then_full_model in
  streams (os s) !! 1%N = Some log_file ∧
  fst (get_line pg_verifymbstr_model 1 100 s) = Ok (Some (cstr "one"), false) ∧
  s_in <$> streams (os (snd (get_line pg_verifymbstr_model 1 100 s))) !! 1%N
  = Some (cstr "two" ++ [LF]) ∧
  ∃ line term rest,
    s_in log_file = line ++ term ++ rest ∧
    (Z.of_nat (length line) ≤ Z.max 0 100)%Z ∧
    (CR ∉ line) ∧ (LF ∉ line) ∧
    ((terminator term rest ∧ (Z.of_nat (length line) < 100)%Z) ∨
     (term = [] ∧ (Z.of_nat (length line) = Z.max 0 100 ∨ rest = []))) ∧
    streams (os (snd (get_line pg_verifymbstr_model 1 100 s))) !! 1%N
    = Some (set_in rest log_file) ∧
    snd (get_line pg_verifymbstr_model 1 100 s)
    = set_os (with_input 1 rest log_file (os s)) s ∧
    fst (get_line pg_verifymbstr_model 1 100 s)
    = (if bool_decide (line = [] ∧ term = [])
       then nothing_read (Z.to_nat 100) log_file
       else if pg_verifymbstr_model line then Ok (Some line, false)
       else Raise CHARACTER_NOT_IN_REPERTOIRE).
Proof.
  intros s.
  assert (H : streams (os s) !! 1%N = Some log_file) by (vm_compute; reflexivity).
  split; [exact H|]. split; [vm_compute; reflexivity|].
  split; [vm_compute; reflexivity|].
  exact (get_line_reads_one_line pg_verifymbstr_model 1%N 100%Z log_file s H).
Defined.

Abbreviation log_read_out_model :=
  (log_read_out canonicalize_path_model pg_verifymbstr_model).
Abbreviation tail_reader_model :=
  (tail_reader canonicalize_path_model pg_verifymbstr_model).

Lemma read_at_end_of_stream_witness :
  let s := log_read_out_model in
  let st := set_in [] log_file in
  let t := tail_reader_model in
  let t' := set_os (with_input 1 [] tail_file (os t)) t in
  (fst (get_stream 1 s) = Ok (1%N, 100%Z) ∧
   streams (os s) !! 1%N = Some st ∧
   (1 ≤ 100)%Z ∧ s_in st = [] ∧ s_in_errno st = 0%Z) ∧
  (fst (get_line pg_verifymbstr_model 1 100 s) = Ok (None, true) ∧
   utl_file_get_line pg_verifymbstr_model (Some 1%Z) None s
   = (Raise NO_DATA_FOUND, s) ∧
   utl_file_get_nextline pg_verifymbstr_model (Some 1%Z) s = (Ok None, s) ∧
   utl_file_get_line pg_verifymbstr_model (Some 1%Z) (Some 2%Z) s
   = (Raise NO_DATA_FOUND, s)) ∧
  (fst (get_stream 1 t) = Ok (1%N, 100%Z) ∧
   streams (os t) !! 1%N = Some tail_file ∧
   s_in tail_file ≠ [] ∧ (CR ∉ s_in tail_file) ∧ (LF ∉ s_in tail_file) ∧
   (Z.of_nat (length (s_in tail_file)) ≤ 100)%Z ∧
   pg_verifymbstr_model (s_in tail_file) = true ∧
   s_in_errno tail_file = 0%Z) ∧
  (fst (get_line pg_verifymbstr_model 1 100 t) = Ok (Some (cstr "end"), false) ∧
   utl_file_get_line pg_verifymbstr_model (Some 1%Z) None t
   = (Ok (cstr "end"), t') ∧
   utl_file_get_nextline pg_verifymbstr_model (Some 1%Z) t
   = (Ok (Some (cstr "end")), t') ∧
   utl_file_get_line pg_verifymbstr_model (Some 1%Z) None t'
   = (Raise NO_DATA_FOUND, t') ∧
   utl_file_get_nextline pg_verifymbstr_model (Some 1%Z) t' = (Ok None, t')) ∧
  utl_file_get_line pg_verifymbstr_model (Some 1%Z) (Some 0%Z) t
  = (Raise (RAISE_EXCEPTION INVALID_MAXLINESIZE), t).
Proof.
  intros s st t t'.
  assert (H1 : fst (get_stream 1 s) = Ok (1%N, 100%Z))
    by (vm_compute; reflexivity).
  assert (H2 : streams (os s) !! 1%N = Some st) by (vm_compute; reflexivity).
  assert (H3 : (1 ≤ 100)%Z) by lia.
  assert (H4 : s_in st = []) by reflexivity.
  assert (H5 : s_in_errno st = 0%Z) by reflexivity.
  assert (T1 : fst (get_stream 1 t) = Ok (1%N, 100%Z))
    by (vm_compute; reflexivity).
  assert (T2 : streams (os t) !! 1%N = Some tail_file)
    by (vm_compute; reflexivity).
  assert (T3 : s_in tail_file ≠ []) by discriminate.
  assert (T4 : CR ∉ s_in tail_file)
    by (apply (bool_decide_unpack _); vm_compute; exact I).
  assert (T5 : LF ∉ s_in tail_file)
    by (apply (bool_decide_unpack _); vm_compute; exact I).
  assert (T6 : (Z.of_nat (length (s_in tail_file)) ≤ 100)%Z)
    by (vm_compute; discriminate).
  assert (T7 : pg_verifymbstr_model (s_in tail_file) = true)
    by (vm_compute; reflexivity).
  assert (T8 : s_in_errno tail_file = 0%Z) by reflexivity.
  destruct (read_at_end_of_stream pg_verifymbstr_model 1 1 100 st s H1 H2 H3)
    as (Hend & _ & _ & _ & _ & Hlen).
  destruct (read_at_end_of_stream pg_verifymbstr_model 1 1 100 tail_file t
              T1 T2 H3) as (_ & _ & Hpart & _ & Hrange & _).
  destruct (Hend H4 H5) as (E1 & E2 & E3).
  destruct (Hlen 2%Z) as (_ & _ & E4); [unfold MAX_LINESIZE; lia|].
  destruct (Hpart T3 T4 T5 T6 T7) as (P1 & P2 & P3 & P4).
  destruct (P4 T8) as (P5 & P6).
  split; [exact (conj H1 (conj H2 (conj H3 (conj H4 H5))))|].
  split; [exact (conj E1 (conj E2 (conj E3 (E4 H4 H5))))|].
  split.
  { exact (conj T1 (conj T2 (conj T3 (conj T4 (conj T5 (conj T6 (conj T7 T8))))))). }
  split; [exact (conj P1 (conj P2 (conj P3 (conj P5 P6))))|].
  apply Hrange. lia.
Defined.

(** C5 as stated fails: the two entry points do not differ at the end of
    the stream only.  Handle 2 is on the log, whose first line is "one",
    and nothing has been read: [utl_file_get_line] with [len] 2 returns
    "on" where [utl_file_get_nextline] returns "one", and with [len] 0 it
    raises INVALID_MAXLINESIZE. *)
Lemma get_line_len_cuts_the_line :
  let s := two_handles_model in
  s_in <$> streams (os s) !! 2%N = Some (s_in log_file) ∧
  fst (utl_file_get_line pg_verifymbstr_model (Some 2%Z) (Some 2%Z) s)
  = Ok (cstr "on") ∧
  fst (utl_file_get_nextline pg_verifymbstr_model (Some 2%Z) s)
  = Ok (Some (cstr "one")) ∧
  fst (utl_file_get_line pg_verifymbstr_model (Some 2%Z) (Some 0%Z) s)
  = Raise (RAISE_EXCEPTION INVALID_MAXLINESIZE) ∧
  utl_file_get_line pg_verifymbstr_model (Some 2%Z) (Some 2%Z) s
  ≠ (let '(r, s') := utl_file_get_nextline pg_verifymbstr_model (Some 2%Z) s in
     (match r with
      | Ok (Some line) => Ok line
      | Ok None => Raise NO_DATA_FOUND
      | Raise e => Raise e
      end, s')).
Proof.
  vm_compute. repeat (split; [reflexivity|]). intros H. discriminate H.
Qed.

(** * Further statements at concrete sessions *)

Abbreviation stuck_writer_model :=
  (stuck_writer canonicalize_path_model pg_verifymbstr_model).
Abbreviation short_reader_model :=
  (short_reader canonicalize_path_model pg_verifymbstr_model).
Abbreviation issued_model :=
  (issued canonicalize_path_model pg_verifymbstr_model).
Abbreviation read_lines_model := (read_lines pg_verifymbstr_model).
Abbreviation readable_model := (readable pg_verifymbstr_model).
Abbreviation run_all_model :=
  (run_all canonicalize_path_model pg_verifymbstr_model).
Abbreviation fresh_session := (initial_session example_world).

Lemma example_world_ok : world_ok example_world.
Proof.
  split; [done|]. intros f [st Hst]. simpl in Hst.
  by rewrite lookup_empty in Hst.
Qed.

Lemma sessions_of_example_world_ok cs :
  session_ok (run_all_model cs fresh_session).
Proof. apply session_ok_run_all, session_ok_initial, example_world_ok. Qed.

Lemma sessions_of_example_world_unique cs :
  (fopen_calls cs < 2 ^ 32)%Z →
  unique_ids (run_all_model cs fresh_session).
Proof.
  intros Hn.
  pose proof (table_inv_run_all canonicalize_path_model pg_verifymbstr_model
                cs 0 fresh_session (table_inv_initial example_world)) as H.
  destruct H as (_ & _ & _ & _ & Hu); [lia|done].
Qed.

Lemma readable_check max_linesize line :
  bool_decide (CR ∉ line) && bool_decide (LF ∉ line)
  && (Z.of_nat (length line) <? max_linesize)%Z
  && pg_verifymbstr_model line = true →
  readable_model max_linesize line.
Proof.
  rewrite !andb_true_iff, !bool_decide_eq_true, Z.ltb_lt.
  intros [[[? ?] ?] ?]. by split_and!.
Qed.

Lemma clean_line (c : ascii) (line : text) :
  bool_decide (c ∉ line) = true → c ∉ line.
Proof. apply bool_decide_eq_true_1. Qed.

Lemma reachable_sessions_are_consistent_witness :
  world_ok example_world ∧
  length (slots two_handles_model) = MAX_SLOTS ∧
  free_iff_null two_handles_model.
Proof.
  split; [exact example_world_ok|].
  exact (reachable_sessions_are_consistent canonicalize_path_model
           pg_verifymbstr_model example_world
           [open_example "full" "a"; open_example "log" "r"] example_world_ok).
Defined.

Lemma is_open_tells_valid_handles_witness :
  let s := two_handles_model in
  let arg0 := Some 2%Z in
  free_iff_null s ∧
  fst (utl_file_is_open arg0 s) = Ok true ∧
  ∃ b, utl_file_is_open arg0 s = (Ok b, s) ∧
       (b = true ↔
        ∃ d f max_linesize,
          arg0 = Some d ∧ get_stream d s = (Ok (f, max_linesize), s)).
Proof.
  intros s arg0.
  assert (H1 : free_iff_null s).
  { by destruct (sessions_of_example_world_ok
                   [open_example "full" "a"; open_example "log" "r"])
      as (_ & _ & H & _). }
  split; [assumption|]. split; [vm_compute; reflexivity|].
  exact (is_open_tells_valid_handles arg0 s H1).
Defined.

Lemma io_calls_reject_dead_handle_witness :
  let s := two_handles_model in
  let arg0 := Some 7%Z in
  dead_handle arg0 s ∧
  (∀ len, utl_file_get_line pg_verifymbstr_model arg0 len s
          = (Raise (RAISE_EXCEPTION INVALID_FILEHANDLE), s)) ∧
  utl_file_get_nextline pg_verifymbstr_model arg0 s
  = (Raise (RAISE_EXCEPTION INVALID_FILEHANDLE), s) ∧
  (∀ buffer, utl_file_put arg0 buffer s
             = (Raise (RAISE_EXCEPTION INVALID_FILEHANDLE), s)) ∧
  (∀ buffer autoflush,
     utl_file_put_line arg0 buffer autoflush s
     = (Raise (RAISE_EXCEPTION INVALID_FILEHANDLE), s)) ∧
  (∀ lines, utl_file_new_line arg0 lines s
            = (Raise (RAISE_EXCEPTION INVALID_FILEHANDLE), s)) ∧
  (∀ format args,
     utl_file_putf arg0 format args s
     = (Raise (RAISE_EXCEPTION INVALID_FILEHANDLE), s)) ∧
  utl_file_fflush arg0 s = (Raise (RAISE_EXCEPTION INVALID_FILEHANDLE), s).
Proof.
  intros s arg0.
  assert (H1 : dead_handle arg0 s).
  { right. apply find_slot_None. vm_compute. reflexivity. }
  split; [assumption|].
  exact (io_calls_reject_dead_handle pg_verifymbstr_model arg0 s H1).
Defined.

Lemma fclose_of_handle_zero_witness :
  let s := two_handles_model in
  length (slots s) = MAX_SLOTS ∧ free_iff_null s ∧
  fst (utl_file_fclose INVALID_SLOTID s) = Ok tt ∧
  (¬ table_full s → utl_file_fclose INVALID_SLOTID s = (Ok tt, s)) ∧
  (table_full s →
   utl_file_fclose INVALID_SLOTID s
   = (Raise (RAISE_EXCEPTION INVALID_FILEHANDLE), s)).
Proof.
  intros s.
  assert (H1 : length (slots s) = MAX_SLOTS) by (vm_compute; reflexivity).
  assert (H2 : free_iff_null s).
  { by destruct (sessions_of_example_world_ok
                   [open_example "full" "a"; open_example "log" "r"])
      as (_ & _ & H & _). }
  do 2 (split; [assumption|]). split; [vm_compute; reflexivity|].
  exact (fclose_of_handle_zero s H1 H2).
Defined.

Lemma fclose_invalidates_handle_witness :
  let s := two_handles_model in
  let d := 2%Z in
  let s' := snd (utl_file_fclose d s) in
  length (slots s) = MAX_SLOTS ∧ unique_ids s ∧ d ≠ INVALID_SLOTID ∧
  utl_file_fclose d s = (Ok tt, s') ∧
  ∃ f max_linesize,
    get_stream d s = (Ok (f, max_linesize), s) ∧
    get_stream d s' = (Raise (RAISE_EXCEPTION INVALID_FILEHANDLE), s') ∧
    utl_file_is_open (Some d) s' = (Ok false, s') ∧
    utl_file_fclose d s' = (Raise (RAISE_EXCEPTION INVALID_FILEHANDLE), s') ∧
    (f ≠ NULL → streams (os s') !! f = None) ∧
    (∀ f', f' ≠ f → streams (os s') !! f' = streams (os s) !! f') ∧
    (∀ d', d' ≠ d → fst (get_stream d' s') = fst (get_stream d' s)) ∧
    slotid s' = slotid s.
Proof.
  intros s d s'.
  assert (H1 : length (slots s) = MAX_SLOTS) by (vm_compute; reflexivity).
  assert (H2 : unique_ids s).
  { apply (sessions_of_example_world_unique
             [open_example "full" "a"; open_example "log" "r"]).
    vm_compute. reflexivity. }
  assert (H3 : d ≠ INVALID_SLOTID) by discriminate.
  assert (H4 : utl_file_fclose d s = (Ok tt, s')) by (vm_compute; reflexivity).
  do 4 (split; [assumption|]).
  exact (fclose_invalidates_handle d s s' H1 H2 H3 H4).
Defined.

Lemma fopen_handle_resolves_witness :
  let w := example_world in
  let cs := [open_example "full" "a"] in
  let arg0 := Some (cstr "/tmp/allowed") in
  let arg1 := Some (cstr "log") in
  let arg2 := Some (cstr "r") in
  let arg3 := Some 100%Z in
  let d := 2%Z in
  let s' := snd (utl_file_fopen canonicalize_path_model arg0 arg1 arg2 arg3
                   (run_all_model cs (initial_session w))) in
  world_ok w ∧
  (fopen_calls cs < 2 ^ 32 - 1)%Z ∧
  utl_file_fopen canonicalize_path_model arg0 arg1 arg2 arg3
                 (run_all_model cs (initial_session w)) = (Ok d, s') ∧
  let s := run_all_model cs (initial_session w) in
  ∃ f max_linesize,
    arg3 = Some max_linesize ∧
    (1 ≤ max_linesize ≤ MAX_LINESIZE)%Z ∧
    get_stream d s' = (Ok (f, max_linesize), s') ∧
    is_Some (streams (os s') !! f) ∧
    streams (os s) !! f = None ∧
    (∀ f', f' ≠ f → streams (os s') !! f' = streams (os s) !! f') ∧
    utl_file_is_open (Some d) s' = (Ok true, s') ∧
    (∀ d', d' ≠ d → fst (get_stream d' s') = fst (get_stream d' s)).
Proof.
  intros w cs arg0 arg1 arg2 arg3 d s'.
  assert (H1 : world_ok w) by exact example_world_ok.
  assert (H2 : (fopen_calls cs < 2 ^ 32 - 1)%Z) by (vm_compute; reflexivity).
  assert (H3 : utl_file_fopen canonicalize_path_model arg0 arg1 arg2 arg3
                 (run_all_model cs (initial_session w)) = (Ok d, s'))
    by (vm_compute; reflexivity).
  do 3 (split; [assumption|]).
  exact (fopen_handle_resolves canonicalize_path_model pg_verifymbstr_model
           w cs arg0 arg1 arg2 arg3 d s' H1 H2 H3).
Defined.

Lemma issued_handles_never_repeat_witness :
  let cs := [open_example "full" "a"; open_example "log" "r"; FCLOSE 2;
             open_example "log" "r"] in
  (fopen_calls cs < 2 ^ 32)%Z ∧
  issued_model cs fresh_session = [1; 2; 3]%Z ∧
  NoDup (issued_model cs fresh_session) ∧
  ∀ d, d ∈ issued_model cs fresh_session → d ≠ INVALID_SLOTID.
Proof.
  intros cs.
  assert (H1 : (fopen_calls cs < 2 ^ 32)%Z) by (vm_compute; reflexivity).
  split; [assumption|]. split; [vm_compute; reflexivity|].
  exact (issued_handles_never_repeat canonicalize_path_model
           pg_verifymbstr_model example_world cs H1).
Defined.

Lemma fclose_all_leaves_no_handle_witness :
  let s := one_writer_model in
  let s' := snd (utl_file_fclose_all s) in
  length (slots s) = MAX_SLOTS ∧ free_iff_null s ∧
  utl_file_fclose_all s = (Ok tt, s') ∧
  (∀ d, get_stream d s' = (Raise (RAISE_EXCEPTION INVALID_FILEHANDLE), s')) ∧
  (∀ arg0, utl_file_is_open arg0 s' = (Ok false, s')) ∧
  (∀ i, i < MAX_SLOTS → occupied s i →
     streams (os s') !! slot_file (slot s i) = None) ∧
  utl_file_fclose_all s' = (Ok tt, s') ∧
  slotid s' = slotid s.
Proof.
  intros s s'.
  assert (H1 : length (slots s) = MAX_SLOTS) by (vm_compute; reflexivity).
  assert (H2 : free_iff_null s).
  { by destruct (sessions_of_example_world_ok [open_example "out" "w"])
      as (_ & _ & H & _). }
  assert (H3 : utl_file_fclose_all s = (Ok tt, s')) by (vm_compute; reflexivity).
  do 3 (split; [assumption|]).
  exact (fclose_all_leaves_no_handle s s' H1 H2 H3).
Defined.

Lemma rejected_path_touches_nothing_witness :
  let s := fresh_session in
  let location := cstr "/etc" in
  let filename := cstr "passwd" in
  let e := RAISE_EXCEPTION INVALID_PATH in
  fst (get_safe_path canonicalize_path_model location filename s) = Raise e ∧
  (∀ arg2 arg3,
     ∃ e', utl_file_fopen canonicalize_path_model
             (Some location) (Some filename) arg2 arg3 s
           = (Raise e', s)) ∧
  utl_file_fremove canonicalize_path_model (Some location) (Some filename) s
  = (Raise e, s) ∧
  utl_file_fgetattr canonicalize_path_model (Some location) (Some filename) s
  = (Raise e, s) ∧
  (∀ arg2 arg3 arg4,
     ∃ e', utl_file_frename canonicalize_path_model
             (Some location) (Some filename) arg2 arg3 arg4 s
           = (Raise e', s)) ∧
  (∀ arg0 arg1 arg4,
     ∃ e', utl_file_frename canonicalize_path_model
             arg0 arg1 (Some location) (Some filename) arg4 s
           = (Raise e', s)).
Proof.
  intros s location filename e.
  assert (H1 : fst (get_safe_path canonicalize_path_model location filename s)
               = Raise e) by (vm_compute; reflexivity).
  split; [assumption|].
  exact (rejected_path_touches_nothing canonicalize_path_model
           location filename e s H1).
Defined.

Lemma fremove_removes_the_file_witness :
  let s := fresh_session in
  let location := cstr "/tmp/allowed" in
  let filename := cstr "log" in
  let fullname := cstr "/tmp/allowed/log" in
  fst (get_safe_path canonicalize_path_model location filename s) = Ok fullname ∧
  stat fullname (os s) = None ∧
  (∀ errno, stat fullname (os s) = Some errno →
     utl_file_fremove canonicalize_path_model (Some location) (Some filename) s
     = (Raise (io_error errno), s)) ∧
  (stat fullname (os s) = None →
   ∃ s',
     utl_file_fremove canonicalize_path_model (Some location) (Some filename) s
     = (Ok tt, s') ∧
     files (os s') = delete fullname (files (os s)) ∧
     streams (os s') = streams (os s) ∧
     same_table s s' ∧
     utl_file_fgetattr canonicalize_path_model (Some location) (Some filename) s'
     = (Ok (false, None, None), s') ∧
     utl_file_fremove canonicalize_path_model (Some location) (Some filename) s'
     = (Raise (RAISE_EXCEPTION INVALID_PATH), s')).
Proof.
  intros s location filename fullname.
  assert (H1 : fst (get_safe_path canonicalize_path_model location filename s)
               = Ok fullname) by (vm_compute; reflexivity).
  split; [assumption|]. split; [vm_compute; reflexivity|].
  exact (fremove_removes_the_file canonicalize_path_model
           location filename fullname s H1).
Defined.

Lemma fgetattr_reports_missing_file_witness :
  let s := fresh_session in
  let location := cstr "/tmp/allowed" in
  let filename := cstr "nothing" in
  let fullname := cstr "/tmp/allowed/nothing" in
  fst (get_safe_path canonicalize_path_model location filename s) = Ok fullname ∧
  stat fullname (os s) = Some ENOENT ∧
  ∃ fexists size blksize,
    utl_file_fgetattr canonicalize_path_model (Some location) (Some filename) s
    = (Ok (fexists, size, blksize), s) ∧
    (fexists = true ↔ stat fullname (os s) = None) ∧
    (fexists = true → is_Some size ∧ blksize = Some (st_blksize (os s))) ∧
    (fexists = false → size = None ∧ blksize = None).
Proof.
  intros s location filename fullname.
  assert (H1 : fst (get_safe_path canonicalize_path_model location filename s)
               = Ok fullname) by (vm_compute; reflexivity).
  split; [assumption|]. split; [vm_compute; reflexivity|].
  exact (fgetattr_reports_missing_file canonicalize_path_model
           location filename fullname s H1).
Defined.

Lemma put_writes_the_buffer_witness :
  let s := one_writer_model in
  let d := 1%Z in
  let f := 1%N in
  let max_linesize := 100%Z in
  let st := empty_file in
  let buffer := cstr "hello" in
  get_stream d s = (Ok (f, max_linesize), s) ∧
  streams (os s) !! f = Some st ∧ s_room st = None ∧
  ((Z.of_nat (length buffer) ≤ max_linesize)%Z →
   utl_file_put (Some d) (Some buffer) s = (Ok true, append_out f buffer s) ∧
   streams (os (append_out f buffer s)) !! f
   = Some (set_out (s_out st ++ buffer) None st)) ∧
  ((max_linesize < Z.of_nat (length buffer))%Z →
   utl_file_put (Some d) (Some buffer) s
   = (Raise (RAISE_EXCEPTION VALUE_ERROR), s)) ∧
  utl_file_put (Some d) None s = (Raise (NULL_VALUE_NOT_ALLOWED 1), s).
Proof.
  intros s d f max_linesize st buffer.
  assert (H1 : get_stream d s = (Ok (f, max_linesize), s))
    by (vm_compute; reflexivity).
  assert (H2 : streams (os s) !! f = Some st) by (vm_compute; reflexivity).
  assert (H3 : s_room st = None) by reflexivity.
  do 3 (split; [assumption|]).
  exact (put_writes_the_buffer d f max_linesize st buffer s H1 H2 H3).
Defined.

Lemma new_line_writes_line_feeds_witness :
  let s := one_writer_model in
  let d := 1%Z in
  let f := 1%N in
  let max_linesize := 100%Z in
  let st := empty_file in
  let lines := Some 3%Z in
  get_stream d s = (Ok (f, max_linesize), s) ∧
  streams (os s) !! f = Some st ∧ s_room st = None ∧
  utl_file_new_line (Some d) lines s
  = (Ok true, append_out f (replicate (Z.to_nat (default 1%Z lines)) LF) s) ∧
  utl_file_new_line (Some d) None s = (Ok true, append_out f [LF] s) ∧
  (∀ n, (n ≤ 0)%Z → utl_file_new_line (Some d) (Some n) s = (Ok true, s)).
Proof.
  intros s d f max_linesize st lines.
  assert (H1 : get_stream d s = (Ok (f, max_linesize), s))
    by (vm_compute; reflexivity).
  assert (H2 : streams (os s) !! f = Some st) by (vm_compute; reflexivity).
  assert (H3 : s_room st = None) by reflexivity.
  do 3 (split; [assumption|]).
  exact (new_line_writes_line_feeds d f max_linesize st lines s H1 H2 H3).
Defined.

Lemma put_lines_writes_text_file_witness :
  let s := one_writer_model in
  let d := 1%Z in
  let f := 1%N in
  let max_linesize := 100%Z in
  let st := empty_file in
  let ls := [cstr "one"; cstr "two"] in
  get_stream d s = (Ok (f, max_linesize), s) ∧
  streams (os s) !! f = Some st ∧ s_room st = None ∧
  Forall (λ l, (Z.of_nat (length l) ≤ max_linesize)%Z) ls ∧
  put_lines ls (Some d) s
  = (Ok tt, append_out f (file_bytes (map (λ l, (l, [LF])) ls)) s) ∧
  streams (os (snd (put_lines ls (Some d) s))) !! f
  = Some (set_out (s_out st ++ file_bytes (map (λ l, (l, [LF])) ls)) None st).
Proof.
  intros s d f max_linesize st ls.
  assert (H1 : get_stream d s = (Ok (f, max_linesize), s))
    by (vm_compute; reflexivity).
  assert (H2 : streams (os s) !! f = Some st) by (vm_compute; reflexivity).
  assert (H3 : s_room st = None) by reflexivity.
  assert (H4 : Forall (λ l, (Z.of_nat (length l) ≤ max_linesize)%Z) ls).
  { repeat constructor; vm_compute; discriminate. }
  do 4 (split; [assumption|]).
  exact (put_lines_writes_text_file d f max_linesize st ls s H1 H2 H3 H4).
Defined.

Lemma reading_returns_the_lines_in_order_witness :
  let s := two_handles_model in
  let d := 2%Z in
  let f := 2%N in
  let max_linesize := 100%Z in
  let st := log_file in
  let ls := [(cstr "one", [CR; LF]); (cstr "two", [LF])] in
  fst (get_stream d s) = Ok (f, max_linesize) ∧
  streams (os s) !! f = Some st ∧
  (1 ≤ max_linesize)%Z ∧
  s_in st = file_bytes ls ∧ s_in_errno st = 0%Z ∧
  Forall (λ lt, readable_model max_linesize lt.1 ∧ newline lt.2) ls ∧
  fst (read_lines_model (S (length ls)) (Some d) s)
  = map (λ lt, Ok (Some lt.1)) ls ++ [Ok None].
Proof.
  intros s d f max_linesize st ls.
  assert (H1 : fst (get_stream d s) = Ok (f, max_linesize))
    by (vm_compute; reflexivity).
  assert (H2 : streams (os s) !! f = Some st) by (vm_compute; reflexivity).
  assert (H3 : (1 ≤ max_linesize)%Z) by (vm_compute; discriminate).
  assert (H4 : s_in st = file_bytes ls) by reflexivity.
  assert (H5 : s_in_errno st = 0%Z) by reflexivity.
  assert (H6 : Forall (λ lt, readable_model max_linesize lt.1 ∧ newline lt.2) ls).
  { constructor.
    { split; [apply readable_check; vm_compute; reflexivity|by right]. }
    constructor; [|constructor].
    split; [apply readable_check; vm_compute; reflexivity|by left]. }
  do 6 (split; [assumption|]).
  exact (reading_returns_the_lines_in_order pg_verifymbstr_model
           d f max_linesize st ls s H1 H2 H3 H4 H5 H6).
Defined.

Lemma full_length_line_reads_as_two_witness :
  let s := short_reader_model in
  let d := 1%Z in
  let f := 1%N in
  let max_linesize := 3%Z in
  let st := set_in (cstr "one" ++ [LF] ++ cstr "two") log_file in
  let l := cstr "one" in
  let rest := [LF] ++ cstr "two" in
  let s0 := set_os (with_input f (l ++ rest) log_file (os s)) s in
  fst (get_stream d s0) = Ok (f, max_linesize) ∧
  streams (os s0) !! f = Some st ∧
  (1 ≤ max_linesize)%Z ∧
  s_in st = l ++ rest ∧ (CR ∉ l) ∧ (LF ∉ l) ∧
  (max_linesize ≤ Z.of_nat (length l))%Z ∧
  pg_verifymbstr_model (take (Z.to_nat max_linesize) l) = true ∧
  let now := take (Z.to_nat max_linesize) l in
  let later := drop (Z.to_nat max_linesize) l ++ rest in
  let s1 := set_os (with_input f later st (os s0)) s0 in
  utl_file_get_nextline pg_verifymbstr_model (Some d) s0 = (Ok (Some now), s1) ∧
  utl_file_get_line pg_verifymbstr_model (Some d) None s0 = (Ok now, s1) ∧
  (∀ rest', Z.of_nat (length l) = max_linesize → rest = LF :: rest' →
     pg_verifymbstr_model [] = true →
     now = l ∧
     utl_file_get_nextline pg_verifymbstr_model (Some d) s1
     = (Ok (Some []), set_os (with_input f rest' st (os s0)) s0)).
Proof.
  intros s d f max_linesize st l rest s0.
  assert (H1 : fst (get_stream d s0) = Ok (f, max_linesize))
    by (vm_compute; reflexivity).
  assert (H2 : streams (os s0) !! f = Some st) by (vm_compute; reflexivity).
  assert (H3 : (1 ≤ max_linesize)%Z) by (vm_compute; discriminate).
  assert (H4 : s_in st = l ++ rest) by reflexivity.
  assert (H5 : CR ∉ l) by (apply clean_line; vm_compute; reflexivity).
  assert (H6 : LF ∉ l) by (apply clean_line; vm_compute; reflexivity).
  assert (H7 : (max_linesize ≤ Z.of_nat (length l))%Z)
    by (vm_compute; discriminate).
  assert (H8 : pg_verifymbstr_model (take (Z.to_nat max_linesize) l) = true)
    by (vm_compute; reflexivity).
  do 8 (split; [assumption|]).
  exact (full_length_line_reads_as_two pg_verifymbstr_model
           d f max_linesize st l rest s0 H1 H2 H3 H4 H5 H6 H7 H8).
Defined.

Lemma get_line_len_argument_witness :
  let s := two_handles_model in
  let d := 2%Z in
  let f := 2%N in
  let max_linesize := 100%Z in
  let len := 2%Z in
  get_stream d s = (Ok (f, max_linesize), s) ∧
  fst (utl_file_get_line pg_verifymbstr_model (Some d) (Some len) s)
  = Ok (cstr "on") ∧
  ((len < 1 ∨ 32767 < len)%Z →
   utl_file_get_line pg_verifymbstr_model (Some d) (Some len) s
   = (Raise (RAISE_EXCEPTION INVALID_MAXLINESIZE), s)) ∧
  ((1 ≤ len ≤ 32767)%Z →
   utl_file_get_line pg_verifymbstr_model (Some d) (Some len) s
   = (let '(r, s') := get_line pg_verifymbstr_model f
                        (Z.min max_linesize len) s in
      (match r with
       | Ok (result, true) => Raise NO_DATA_FOUND
       | Ok (result, false) => Ok (default [] result)
       | Raise e => Raise e
       end, s')) ∧
   ((max_linesize ≤ len)%Z →
    utl_file_get_line pg_verifymbstr_model (Some d) (Some len) s
    = utl_file_get_line pg_verifymbstr_model (Some d) None s) ∧
   ∀ line s',
     utl_file_get_line pg_verifymbstr_model (Some d) (Some len) s
     = (Ok line, s') →
     (Z.of_nat (length line) ≤ len)%Z ∧
     (Z.of_nat (length line) ≤ Z.max 0 max_linesize)%Z).
Proof.
  intros s d f max_linesize len.
  assert (H1 : get_stream d s = (Ok (f, max_linesize), s))
    by (vm_compute; reflexivity).
  split; [assumption|]. split; [vm_compute; reflexivity|].
  exact (get_line_len_argument pg_verifymbstr_model d f max_linesize len s H1).
Defined.

Lemma calls_raise_listed_errors_witness :
  let s := two_handles_model in
  let c := FCLOSE 1 in
  let e := RAISE_EXCEPTION WRITE_ERROR in
  fst (run_model c s) = Raise e ∧ e ∈ may_raise c.
Proof.
  intros s c e.
  assert (H1 : fst (run_model c s) = Raise e) by (vm_compute; reflexivity).
  split; [assumption|].
  exact (calls_raise_listed_errors canonicalize_path_model
           pg_verifymbstr_model c s e H1).
Defined.

Lemma fopen_of_a_missing_file_witness :
  let s := fresh_session in
  let location := cstr "/tmp/allowed" in
  let filename := cstr "nothing" in
  let fullname := cstr "/tmp/allowed/nothing" in
  let max_linesize := 100%Z in
  let letter := "r"%char in
  (1 ≤ max_linesize ≤ MAX_LINESIZE)%Z ∧
  fst (get_safe_path canonicalize_path_model location filename s) = Ok fullname ∧
  files (os s) !! fullname = None ∧ denied (os s) !! fullname = None ∧
  let r := utl_file_fopen canonicalize_path_model
             (Some location) (Some filename) (Some [letter])
             (Some max_linesize) s in
  (letter ∈ [ "r"; "R" ]%char →
   r = (Raise (RAISE_EXCEPTION INVALID_PATH), s)) ∧
  (letter ∈ [ "w"; "W"; "a"; "A" ]%char → ¬ table_full s →
   ∃ s', r = (Ok (next_slotid (slotid s)), s') ∧
     files (os s') = <[fullname := empty_file]> (files (os s)) ∧
     streams (os s') = <[next_file (os s) := empty_file]> (streams (os s))).
Proof.
  intros s location filename fullname max_linesize letter.
  assert (H1 : (1 ≤ max_linesize ≤ MAX_LINESIZE)%Z)
    by (split; vm_compute; discriminate).
  assert (H2 : fst (get_safe_path canonicalize_path_model location filename s)
               = Ok fullname) by (vm_compute; reflexivity).
  assert (H3 : files (os s) !! fullname = None) by (vm_compute; reflexivity).
  assert (H4 : denied (os s) !! fullname = None) by (vm_compute; reflexivity).
  do 4 (split; [assumption|]).
  exact (fopen_of_a_missing_file canonicalize_path_model
           location filename letter max_linesize fullname s H1 H2 H3 H4).
Defined.

Lemma write_failure_raises_witness :
  let s := stuck_writer_model in
  let d := 1%Z in
  let f := 1%N in
  let max_linesize := 100%Z in
  let st := stuck_file in
  let c := "x"%char in
  let buffer := cstr "yz" in
  get_stream d s = (Ok (f, max_linesize), s) ∧
  streams (os s) !! f = Some st ∧ s_room st = Some 0 ∧
  (Z.of_nat (length (c :: buffer)) ≤ max_linesize)%Z ∧
  let e := RAISE_EXCEPTION (if (s_out_errno st =? EBADF)%Z
                            then INVALID_OPERATION else WRITE_ERROR) in
  utl_file_put (Some d) (Some (c :: buffer)) s = (Raise e, s) ∧
  utl_file_put_line (Some d) (Some (c :: buffer)) None s = (Raise e, s) ∧
  utl_file_put_line (Some d) (Some []) None s = (Raise e, s) ∧
  utl_file_new_line (Some d) None s = (Raise e, s) ∧
  utl_file_put (Some d) (Some []) s = (Ok true, s) ∧
  utl_file_new_line (Some d) (Some 0%Z) s = (Ok true, s).
Proof.
  intros s d f max_linesize st c buffer.
  assert (H1 : get_stream d s = (Ok (f, max_linesize), s))
    by (vm_compute; reflexivity).
  assert (H2 : streams (os s) !! f = Some st) by (vm_compute; reflexivity).
  assert (H3 : s_room st = Some 0) by reflexivity.
  assert (H4 : (Z.of_nat (length (c :: buffer)) ≤ max_linesize)%Z)
    by (vm_compute; discriminate).
  do 4 (split; [assumption|]).
  exact (write_failure_raises d f max_linesize st c buffer s H1 H2 H3 H4).
Defined.

Lemma open_and_read_a_file_witness :
  let w := example_world in
  let cs := [open_example "full" "a"] in
  let s := run_all_model cs (initial_session w) in
  let location := cstr "/tmp/allowed" in
  let filename := cstr "log" in
  let fullname := cstr "/tmp/allowed/log" in
  let letter := "r"%char in
  let max_linesize := 100%Z in
  let file := log_file in
  let ls := [(cstr "one", [CR; LF]); (cstr "two", [LF])] in
  Forall (λ c, is_write c = false) cs ∧
  (fopen_calls cs < 2 ^ 32 - 1)%Z ∧
  ¬ table_full s ∧
  letter ∈ [ "r"; "R" ]%char ∧
  (1 ≤ max_linesize ≤ MAX_LINESIZE)%Z ∧
  fst (get_safe_path canonicalize_path_model location filename s) = Ok fullname ∧
  denied (os s) !! fullname = None ∧
  files (os s) !! fullname = Some file ∧
  s_in file = file_bytes ls ∧ s_in_errno file = 0%Z ∧
  Forall (λ lt, readable_model max_linesize lt.1 ∧ newline lt.2) ls ∧
  ∃ d s1,
    utl_file_fopen canonicalize_path_model
      (Some location) (Some filename) (Some [letter]) (Some max_linesize) s
    = (Ok d, s1) ∧
    fst (read_lines_model (S (length ls)) (Some d) s1)
    = map (λ lt, Ok (Some lt.1)) ls ++ [Ok None].
Proof.
  intros w cs s location filename fullname letter max_linesize file ls.
  assert (H0 : Forall (λ c, is_write c = false) cs)
    by (constructor; [reflexivity|constructor]).
  assert (H1 : (fopen_calls cs < 2 ^ 32 - 1)%Z) by (vm_compute; reflexivity).
  assert (H2 : ¬ table_full s).
  { intros Hfull.
    assert (E : slot_id (slot s 1) = INVALID_SLOTID) by (vm_compute; reflexivity).
    apply (Hfull 1); [unfold MAX_SLOTS; lia|exact E]. }
  assert (H3 : letter ∈ [ "r"; "R" ]%char) by apply list_elem_of_here.
  assert (H4 : (1 ≤ max_linesize ≤ MAX_LINESIZE)%Z)
    by (split; vm_compute; discriminate).
  assert (H5 : fst (get_safe_path canonicalize_path_model location filename s)
               = Ok fullname) by (vm_compute; reflexivity).
  assert (H6 : denied (os s) !! fullname = None) by (vm_compute; reflexivity).
  assert (H7 : files (os s) !! fullname = Some file) by (vm_compute; reflexivity).
  assert (H8 : s_in file = file_bytes ls) by reflexivity.
  assert (H9 : s_in_errno file = 0%Z) by reflexivity.
  assert (H10 : Forall (λ lt, readable_model max_linesize lt.1 ∧ newline lt.2) ls).
  { constructor.
    { split; [apply readable_check; vm_compute; reflexivity|by right]. }
    constructor; [|constructor].
    split; [apply readable_check; vm_compute; reflexivity|by left]. }
  do 11 (split; [assumption|]).
  exact (open_and_read_a_file canonicalize_path_model pg_verifymbstr_model
           w cs location filename letter max_linesize fullname file ls
           H0 H1 H2 H3 H4 H5 H6 H7 H8 H9 H10).
Defined.

Lemma frename_there_and_back_witness :
  let s := fresh_session in
  let location1 := cstr "/tmp/allowed" in
  let filename1 := cstr "log" in
  let location2 := cstr "/tmp/allowed" in
  let filename2 := cstr "moved" in
  let path1 := cstr "/tmp/allowed/log" in
  let path2 := cstr "/tmp/allowed/moved" in
  let overwrite : option bool := None in
  let file := log_file in
  fst (get_safe_path canonicalize_path_model location1 filename1 s) = Ok path1 ∧
  fst (get_safe_path canonicalize_path_model location2 filename2 s) = Ok path2 ∧
  files (os s) !! path1 = Some file ∧ denied (os s) !! path1 = None ∧
  files (os s) !! path2 = None ∧ denied (os s) !! path2 = None ∧
  ∃ s1,
    utl_file_frename canonicalize_path_model
      (Some location1) (Some filename1) (Some location2) (Some filename2)
      overwrite s
    = (Ok tt, s1) ∧
    files (os s1) !! path1 = None ∧
    files (os s1) !! path2 = Some file ∧
    utl_file_frename canonicalize_path_model
      (Some location2) (Some filename2) (Some location1) (Some filename1)
      overwrite s1
    = (Ok tt, s).
Proof.
  intros s location1 filename1 location2 filename2 path1 path2 overwrite file.
  assert (H1 : fst (get_safe_path canonicalize_path_model location1 filename1 s)
               = Ok path1) by (vm_compute; reflexivity).
  assert (H2 : fst (get_safe_path canonicalize_path_model location2 filename2 s)
               = Ok path2) by (vm_compute; reflexivity).
  assert (H3 : files (os s) !! path1 = Some file) by (vm_compute; reflexivity).
  assert (H4 : denied (os s) !! path1 = None) by (vm_compute; reflexivity).
  assert (H5 : files (os s) !! path2 = None) by (vm_compute; reflexivity).
  assert (H6 : denied (os s) !! path2 = None) by (vm_compute; reflexivity).
  do 6 (split; [assumption|]).
  exact (frename_there_and_back canonicalize_path_model
           location1 filename1 location2 filename2 overwrite path1 path2
           file s H1 H2 H3 H4 H5 H6).
Defined.

Lemma put_line_writes_before_it_flushes_witness :
  let s := two_handles_model in
  let d := 1%Z in
  let f := 1%N in
  let max_linesize := 100%Z in
  let st := full_device_file in
  let buffer := cstr "hello" in
  get_stream d s = (Ok (f, max_linesize), s) ∧
  streams (os s) !! f = Some st ∧ s_room st = None ∧
  (Z.of_nat (length buffer) ≤ max_linesize)%Z ∧
  s_flush_errno st ≠ 0%Z ∧
  let s' := append_out f (buffer ++ [LF]) s in
  utl_file_put_line (Some d) (Some buffer) None s = (Ok true, s') ∧
  utl_file_put_line (Some d) (Some buffer) (Some false) s = (Ok true, s') ∧
  (s_flush_errno st = 0%Z →
   utl_file_put_line (Some d) (Some buffer) (Some true) s = (Ok true, s')) ∧
  (s_flush_errno st ≠ 0%Z →
   utl_file_put_line (Some d) (Some buffer) (Some true) s
   = (Raise (RAISE_EXCEPTION (if (s_flush_errno st =? EBADF)%Z
                              then INVALID_OPERATION else WRITE_ERROR)), s')).
Proof.
  intros s d f max_linesize st buffer.
  assert (H1 : get_stream d s = (Ok (f, max_linesize), s))
    by (vm_compute; reflexivity).
  assert (H2 : streams (os s) !! f = Some st) by (vm_compute; reflexivity).
  assert (H3 : s_room st = None) by reflexivity.
  assert (H4 : (Z.of_nat (length buffer) ≤ max_linesize)%Z)
    by (vm_compute; discriminate).
  do 4 (split; [assumption|]). split; [discriminate|].
  exact (put_line_writes_before_it_flushes d f max_linesize st buffer s
           H1 H2 H3 H4).
Defined.

Lemma limit_error_means_full_table_witness :
  let s := two_handles_model in
  length (slots s) = MAX_SLOTS ∧
  (∀ arg0 arg1 arg2 arg3,
     fst (utl_file_fopen canonicalize_path_model arg0 arg1 arg2 arg3 s)
     = Raise PROGRAM_LIMIT_EXCEEDED →
     table_full s) ∧
  (∀ d s', utl_file_fclose d s = (Ok tt, s') → ¬ table_full s').
Proof.
  intros s.
  assert (H1 : length (slots s) = MAX_SLOTS) by (vm_compute; reflexivity).
  split; [assumption|].
  exact (limit_error_means_full_table canonicalize_path_model s H1).
Defined.

Lemma written_lines_read_back_witness :
  let s := one_writer_model in
  let dw := 1%Z in
  let fw := 1%N in
  let writer_linesize := 100%Z in
  let stw := empty_file in
  let ls := [cstr "one"; cstr "two"] in
  let dr := 2%Z in
  let fr := 2%N in
  let reader_linesize := 100%Z in
  let str := set_in (cstr "one" ++ [LF] ++ cstr "two" ++ [LF]) log_file in
  let t := set_os (with_input fr (s_in str) log_file (os two_handles_model))
                  two_handles_model in
  get_stream dw s = (Ok (fw, writer_linesize), s) ∧
  streams (os s) !! fw = Some stw ∧ s_room stw = None ∧ s_out stw = [] ∧
  Forall (λ l, (Z.of_nat (length l) ≤ writer_linesize)%Z) ls ∧
  fst (get_stream dr t) = Ok (fr, reader_linesize) ∧
  streams (os t) !! fr = Some str ∧
  Some (s_in str)
  = s_out <$> streams (os (snd (put_lines ls (Some dw) s))) !! fw ∧
  s_in_errno str = 0%Z ∧
  (1 ≤ reader_linesize)%Z ∧
  Forall (readable_model reader_linesize) ls ∧
  fst (put_lines ls (Some dw) s) = Ok tt ∧
  fst (read_lines_model (S (length ls)) (Some dr) t)
  = map (λ l, Ok (Some l)) ls ++ [Ok None].
Proof.
  intros s dw fw writer_linesize stw ls dr fr reader_linesize str t.
  assert (H1 : get_stream dw s = (Ok (fw, writer_linesize), s))
    by (vm_compute; reflexivity).
  assert (H2 : streams (os s) !! fw = Some stw) by (vm_compute; reflexivity).
  assert (H3 : s_room stw = None) by reflexivity.
  assert (H4 : s_out stw = []) by reflexivity.
  assert (H5 : Forall (λ l, (Z.of_nat (length l) ≤ writer_linesize)%Z) ls).
  { repeat constructor; vm_compute; discriminate. }
  assert (H6 : fst (get_stream dr t) = Ok (fr, reader_linesize))
    by (vm_compute; reflexivity).
  assert (H7 : streams (os t) !! fr = Some str) by (vm_compute; reflexivity).
  assert (H8 : Some (s_in str)
               = s_out <$> streams (os (snd (put_lines ls (Some dw) s))) !! fw)
    by (vm_compute; reflexivity).
  assert (H9 : s_in_errno str = 0%Z) by reflexivity.
  assert (H10 : (1 ≤ reader_linesize)%Z) by (vm_compute; discriminate).
  assert (H11 : Forall (readable_model reader_linesize) ls).
  { constructor; [apply readable_check; vm_compute; reflexivity|].
    constructor; [apply readable_check; vm_compute; reflexivity|constructor]. }
  do 11 (split; [assumption|]).
  exact (written_lines_read_back pg_verifymbstr_model
           dw fw writer_linesize stw ls s dr fr reader_linesize str t
           H1 H2 H3 H4 H5 H6 H7 H8 H9 H10 H11).
Defined.
